(** * A square-root-chunked deque: model and verification

    Shallow embedding of [sjtu::deque<T>] from
    [deque_accepted_sqrt_vector_without_cache.hpp]: the inner class
    [Vector<U>], the chunk_at table [x] of type [Vector<Vector<T>>], the
    locator ([find_at], [find_at_allow_end]), the rebalancer
    ([split_chunk], [merge_chunk], [gc], [clear_zero]), the mutators
    ([insert_at], [remove_at]), the public surface and [base_iterator].

    Conventions.
    - C++ [int] and [size_t] values are represented by their integer value
      in [Z].  Signed overflow is undefined in C++, so counters ([_size],
      positions, capacities) are exact for containers of fewer than [2^31]
      elements, and the shifts of a size or a capacity ([_size << 2],
      [_cap << 1]) for fewer than [2^29].  The products inside
      [should_split] and [should_merge] leave the [int] range much
      earlier (a pair of chunks of 5793 elements is enough); they are
      written with the two's-complement result of a 32-bit multiplication
      ([wrap]).
    - A [Vector<U>] is its live prefix [buffer[0.._size)] together with
      [_cap]; [memcpy]/[memmove] of slots are the corresponding list
      operations on live prefixes.
    - A call returns [Ok v], or [Throw e] for a C++ exception, or
      [Undefined] where the source would read or write a slot outside a
      live prefix, call through a null pointer, or where a loop of the
      model has used up its iteration budget (shown not to happen).
    - [rand()] is an input: each mutator takes the value [r] that
      [rand()] returns.
    - A parameter [const T &value] is read after slots have moved.  The
      members named as in the source take the object it designates, for
      an object outside the container; those named [_ref] take either
      such an object or the slot of the container that the reference
      designates. *)

From stdpp Require Import base list gmap.
From Stdlib Require Import ZArith Lia.

Local Open Scope Z_scope.

(** ** Outcomes *)

(** Modelled from the spec: [exceptions.hpp] is not part of the sources;
    the three error kinds are opaque and pairwise distinct. *)
Inductive exception : Type :=
  | index_out_of_bound
  | container_is_empty
  | invalid_iterator.

Inductive result (A : Type) : Type :=
  | Ok (a : A)
  | Throw (e : exception)
  | Undefined.

Arguments Ok {A} a.
Arguments Throw {A} e.
Arguments Undefined {A}.

#[global] Instance result_ret : MRet result := fun A a => Ok a.

#[global] Instance result_bind : MBind result := fun A B f m =>
  match m with
  | Ok a => f a
  | Throw e => Throw e
  | Undefined => Undefined
  end.

(** Outcome of a member declared [noexcept]: an exception that would
    leave it ends the program through [std::terminate]. *)
Inductive noexcept_result (A : Type) : Type :=
  | Returns (a : A)
  | Terminates
  | NoOutcome.

Arguments Returns {A} a.
Arguments Terminates {A}.
Arguments NoOutcome {A}.

(** 32-bit two's-complement value of an integer. *)
Definition wrap (z : Z) : Z := (z + 2 ^ 31) mod 2 ^ 32 - 2 ^ 31.

(** [l[i]] for a C++ [int] index: defined inside the live prefix only. *)
Definition slot {A : Type} (l : list A) (i : Z) : result A :=
  if 0 <=? i then
    match l !! Z.to_nat i with
    | Some a => Ok a
    | None => Undefined
    end
  else Undefined.

(** ** The inner class [Vector<U>] *)

Module Vector.
Section Vector.
Context {U : Type}.

Record t : Type := mk { buffer : list U; _cap : Z }.

Definition min_chunk_size : Z := 512.

Definition _size (v : t) : Z := Z.of_nat (length (buffer v)).

Definition size (v : t) : Z := _size v.

Definition full (v : t) : bool := _size v =? _cap v.

(** [while (s < min_cap) s <<= 1]; [s] starts at [2^9] and an [int]
    can be doubled 21 times from there. *)
Fixpoint fit_loop (budget : nat) (s min_cap : Z) : Z :=
  match budget with
  | O => s
  | S budget' =>
      if s <? min_cap then fit_loop budget' (Z.shiftl s 1) min_cap else s
  end.

Definition fit (min_cap : Z) : Z := fit_loop 22 min_chunk_size min_cap.

(** The live prefix is relocated unchanged into storage of [new_cap]. *)
Definition expand_to (new_cap : Z) (v : t) : t :=
  {| buffer := buffer v; _cap := new_cap |}.

Definition shrink_if_small (v : t) : t :=
  if (_cap v >=? Z.shiftl min_chunk_size 2) && (Z.shiftl (_size v) 2 <? _cap v)
  then expand_to (Z.shiftr (_cap v) 2) v
  else v.

Definition expand_if_full (v : t) : t :=
  if negb (full v) then v else expand_to (Z.shiftl (_cap v) 1) v.

(** [Vector(int cap = min_chunk_size)] *)
Definition make (cap : Z) : t := {| buffer := []; _cap := cap |}.

(** [insert(pos, x)] for an argument [x] that designates an object
    outside the storage of the vector; [e] is that object.  [insert_ref]
    below is the general case. *)
Definition insert (pos : Z) (e : U) (v : t) : result t :=
  let v := expand_if_full v in
  if (0 <=? pos) && (pos <=? _size v) then
    Ok {| buffer := take (Z.to_nat pos) (buffer v) ++ e :: drop (Z.to_nat pos) (buffer v);
          _cap := _cap v |}
  else Undefined.

(** What the parameter [const U &x] of [insert] designates: an object
    outside the storage of the vector, or the live slot [buffer[j]] of
    the vector itself. *)
Inductive arg : Type :=
  | outside (e : U)
  | inside (j : Z).

(** [insert(pos, x)] for either kind of argument.  [x] is read by
    [alloc.construct], after [expand_if_full] and [memmove].  When the
    vector was full, [expand_to] has released the storage a slot
    reference points into.  Otherwise the slots from [pos] on have moved
    one place up while slot [pos] still holds what it held: slot [j]
    holds the former content of [j] if [j <= pos], and that of [j - 1]
    if [j > pos]. *)
Definition insert_ref (pos : Z) (x : arg) (v : t) : result t :=
  match x with
  | outside e => insert pos e v
  | inside j =>
      slot (buffer v) j;;
      if full v then Undefined
      else e ← slot (buffer v) (if j <=? pos then j else j - 1); insert pos e v
  end.

Definition erase (pos : Z) (v : t) : result t :=
  if (0 <=? pos) && (pos <? _size v) then
    Ok (shrink_if_small
          {| buffer := take (Z.to_nat pos) (buffer v) ++ drop (S (Z.to_nat pos)) (buffer v);
             _cap := _cap v |})
  else Undefined.

Definition clear (v : t) : t := {| buffer := []; _cap := _cap v |}.

(** [Vector(const Vector &that)]: fresh storage of [that._cap] slots,
    each live slot copy-constructed ([cp]) from the slot of [that]. *)
Definition copy (cp : U -> U) (that : t) : t :=
  {| buffer := map cp (buffer that); _cap := _cap that |}.

(** [operator=(const Vector &that)]: nothing when [this == &that]
    ([same]); otherwise the live slots are destroyed, the storage is
    released and [that] is copied as by the copy constructor. *)
Definition assign (cp : U -> U) (same : bool) (that self : t) : t :=
  if same then self else copy cp that.

(** [operator[]] as a read. *)
Definition get (pos : Z) (v : t) : result U := slot (buffer v) pos.

(** Assignment through the reference [v[pos]] obtained by a
    successful [get]. *)
Definition set (pos : Z) (e : U) (v : t) : t :=
  {| buffer := <[Z.to_nat pos := e]> (buffer v); _cap := _cap v |}.

(** [v[pos].m(...)]: a member call on the slot, in place. *)
Definition update (pos : Z) (m : U -> result U) (v : t) : result t :=
  c ← get pos v; c' ← m c; Ok (set pos c' v).

End Vector.
Arguments t : clear implicits.
End Vector.

(** ** The container *)

Section Deque.
Context {T : Type}.

Definition INSERT_GC_THRESHOLD : Z := 10000.
Definition REMOVE_GC_THRESHOLD : Z := 10000.

Record deque : Type := mk_deque { _size : Z; x : Vector.t (Vector.t T) }.

Definition size (d : deque) : Z := _size d.

Definition empty (d : deque) : bool := _size d =? 0.

(** [x[i]] as a read. *)
Definition chunk_at (i : Z) (d : deque) : result (Vector.t T) := Vector.get i (x d).

Definition with_x (v : Vector.t (Vector.t T)) (d : deque) : deque :=
  {| _size := _size d; x := v |}.

Definition init (d : deque) : result deque :=
  x' ← Vector.insert 0 (Vector.make Vector.min_chunk_size) (x d);
  Ok {| _size := 0; x := x' |}.

(** [deque()] *)
Definition construct : result deque :=
  init {| _size := 0; x := Vector.make Vector.min_chunk_size |}.

Definition throw_if_out_of_bound (pos : Z) (include_end : bool) (d : deque)
  : result unit :=
  if include_end && (pos =? size d) then Ok tt
  else if (pos <? 0) || (pos >=? size d) then Throw index_out_of_bound
  else Ok tt.

(** *** Locator *)

Fixpoint find_at_fwd (budget : nat) (i _pos : Z) (d : deque) : result (Z * Z) :=
  match budget with
  | O => Undefined
  | S budget' =>
      c ← chunk_at i d;
      let tmp := Vector._size c in
      if _pos >=? tmp then
        if tmp =? 0 then find_at_fwd budget' (i + 1) _pos d
        else find_at_fwd budget' (i + 1) (_pos - tmp) d
      else Ok (i, _pos)
  end.

Fixpoint find_at_bwd (budget : nat) (i _pos : Z) (d : deque) : result (Z * Z) :=
  match budget with
  | O => Undefined
  | S budget' =>
      c ← chunk_at i d;
      let tmp := Vector._size c in
      if _pos >? tmp then
        if tmp =? 0 then find_at_bwd budget' (i - 1) _pos d
        else find_at_bwd budget' (i - 1) (_pos - tmp) d
      else Ok (i, tmp - _pos)
  end.

(** Returns the chunk index and the new value of the reference
    parameter [pos].  Each loop moves [i] by one per iteration and reads
    [x[i]], so it leaves the table after at most [x._size] iterations. *)
Definition find_at (pos : Z) (d : deque) : result (Z * Z) :=
  let budget := S (length (Vector.buffer (x d))) in
  if pos <=? Z.shiftr (_size d) 1 then find_at_fwd budget 0 pos d
  else find_at_bwd budget (Vector._size (x d) - 1) (_size d - pos) d.

Fixpoint find_at_allow_end_fwd (budget : nat) (i _pos : Z) (d : deque)
  : result (Z * Z) :=
  match budget with
  | O => Undefined
  | S budget' =>
      c ← chunk_at i d;
      let tmp := Vector.size c in
      if _pos >? tmp then find_at_allow_end_fwd budget' (i + 1) (_pos - tmp) d
      else Ok (i, _pos)
  end.

Fixpoint find_at_allow_end_bwd (budget : nat) (i _pos : Z) (d : deque)
  : result (Z * Z) :=
  match budget with
  | O => Undefined
  | S budget' =>
      if negb (i =? 0) then
        c ← chunk_at i d;
        let tmp := Vector.size c in
        if _pos >=? tmp then find_at_allow_end_bwd budget' (i - 1) (_pos - tmp) d
        else Ok (i, tmp - _pos)
      else
        c ← chunk_at i d; Ok (i, Vector.size c - _pos)
  end.

Definition find_at_allow_end (pos : Z) (d : deque) : result (Z * Z) :=
  let budget := S (length (Vector.buffer (x d))) in
  if pos <=? Z.shiftr (_size d) 1 then find_at_allow_end_fwd budget 0 pos d
  else find_at_allow_end_bwd budget (Vector.size (x d) - 1) (_size d - pos) d.

(** [&access(pos)]: the slot the returned reference designates, as
    (chunk_at index, offset). *)
Definition access_ref (pos : Z) (d : deque) : result (Z * Z) :=
  throw_if_out_of_bound pos false d;; find_at pos d.

(** [access(pos)] read as a value: the content of [x[i][pos]]. *)
Definition access (pos : Z) (d : deque) : result T :=
  '(i, pos') ← access_ref pos d;
  c ← chunk_at i d;
  Vector.get pos' c.

(** *** Rebalancer *)

Definition should_split (total_size : Z) (d : deque) : bool :=
  (total_size >=? 16) && (wrap (total_size * total_size) >? wrap (_size d * 8)).

Definition should_merge (total_size : Z) (d : deque) : bool :=
  wrap (wrap (total_size * total_size) * 64) <=? _size d.

Definition split_chunk (chunk : Z) (d : deque) : result deque :=
  c ← chunk_at chunk d;
  let split_size := Z.shiftr (Vector.size c) 1 in
  x1 ← Vector.insert chunk (Vector.make (Vector.fit (Vector._size c))) (x d);
  chk_a ← Vector.get chunk x1;
  chk_b ← Vector.get (chunk + 1) x1;
  let chk_a' := {| Vector.buffer := take (Z.to_nat split_size) (Vector.buffer chk_b);
                   Vector._cap := Vector._cap chk_a |} in
  let chk_b' := {| Vector.buffer := drop (Z.to_nat split_size) (Vector.buffer chk_b);
                   Vector._cap := Vector._cap chk_b |} in
  Ok (with_x (Vector.set (chunk + 1) chk_b' (Vector.set chunk chk_a' x1)) d).

Definition merge_chunk (chunk : Z) (d : deque) : result deque :=
  chk_a ← chunk_at chunk d;
  chk_b ← chunk_at (chunk + 1) d;
  let chk_a1 := Vector.expand_to (Vector.fit (Vector._size chk_a + Vector._size chk_b)) chk_a in
  let chk_a' := {| Vector.buffer := Vector.buffer chk_a1 ++ Vector.buffer chk_b;
                   Vector._cap := Vector._cap chk_a1 |} in
  let chk_b' := {| Vector.buffer := []; Vector._cap := Vector._cap chk_b |} in
  x2 ← Vector.erase (chunk + 1)
         (Vector.set (chunk + 1) chk_b' (Vector.set chunk chk_a' (x d)));
  Ok (with_x x2 d).

Fixpoint clear_zero_loop (budget : nat) (i : Z) (d : deque) : result deque :=
  match budget with
  | O => Undefined
  | S budget' =>
      if i <? Vector.size (x d) - 1 then
        c ← chunk_at i d;
        if Vector.size c =? 0 then
          x' ← Vector.erase i (x d);
          clear_zero_loop budget' (i + 1) (with_x x' d)
        else clear_zero_loop budget' (i + 1) d
      else Ok d
  end.

Definition clear_zero (d : deque) : result deque :=
  if Vector.size (x d) <=? 1 then Ok d
  else clear_zero_loop (length (Vector.buffer (x d))) 0 d.

Fixpoint gc_split_loop (budget : nat) (i : Z) (d : deque) : result deque :=
  match budget with
  | O => Undefined
  | S budget' =>
      if i <? Vector.size (x d) then
        c ← chunk_at i d;
        if should_split (Vector.size c) d then
          d' ← split_chunk i d;
          gc_split_loop budget' (i + 1 + 1) d'
        else gc_split_loop budget' (i + 1) d
      else Ok d
  end.

Fixpoint gc_merge_loop (budget : nat) (i : Z) (d : deque) : result deque :=
  match budget with
  | O => Undefined
  | S budget' =>
      if i <? Vector.size (x d) - 1 then
        a ← chunk_at i d;
        b ← chunk_at (i + 1) d;
        if should_merge (Vector.size a + Vector.size b) d then
          d' ← merge_chunk i d;
          gc_merge_loop budget' (i - 1 + 1) d'
        else gc_merge_loop budget' (i + 1) d
      else Ok d
  end.

(** In the second loop [x.size() - i] drops by one per iteration, in
    the third [x.size() - 1 - i] does; the budgets are these bounds plus
    the final test. *)
Definition gc (d : deque) : result deque :=
  d1 ← clear_zero d;
  d2 ← gc_split_loop (S (length (Vector.buffer (x d1)))) 0 d1;
  gc_merge_loop (S (length (Vector.buffer (x d2)))) 0 d2.

(** *** Mutators *)

(** [insert_at(pos, value)] for an argument that designates an object
    outside the container; [value] is that object.  [insert_at_ref]
    below is the general case. *)
Definition insert_at (r : Z) (pos : Z) (value : T) (d : deque) : result (Z * deque) :=
  throw_if_out_of_bound pos true d;;
  let __pos := pos in
  '(i, pos) ← find_at_allow_end pos d;
  x' ← Vector.update i (Vector.insert pos value) (x d);
  let d := {| _size := _size d + 1; x := x' |} in
  c ← chunk_at i d;
  d ← (if should_split (Vector.size c) d then split_chunk i d else Ok d);
  d ← (if r <? INSERT_GC_THRESHOLD then gc d else Ok d);
  Ok (__pos, d).

(** What a parameter [const T &value] designates: an object outside the
    container, or a live slot [x[c][j]] of the container itself, as
    [access], [front()], [back()] and [*it] return it. *)
Inductive cref : Type :=
  | outer (v : T)
  | held (c j : Z).

(** The argument as [x[i].insert] receives it: a slot of another chunk
    is an object outside chunk [i], which nothing touches before it is
    read. *)
Definition arg_in (i : Z) (value : cref) (d : deque) : result (@Vector.arg T) :=
  match value with
  | outer v => Ok (Vector.outside v)
  | held c j =>
      if c =? i then Ok (Vector.inside j)
      else ck ← chunk_at c d; e ← Vector.get j ck; Ok (Vector.outside e)
  end.

(** [insert_at(pos, value)] for either kind of argument: the reference
    is passed on to [x[i].insert]. *)
Definition insert_at_ref (r : Z) (pos : Z) (value : cref) (d : deque)
  : result (Z * deque) :=
  throw_if_out_of_bound pos true d;;
  let __pos := pos in
  '(i, pos) ← find_at_allow_end pos d;
  a ← arg_in i value d;
  x' ← Vector.update i (Vector.insert_ref pos a) (x d);
  let d := {| _size := _size d + 1; x := x' |} in
  c ← chunk_at i d;
  d ← (if should_split (Vector.size c) d then split_chunk i d else Ok d);
  d ← (if r <? INSERT_GC_THRESHOLD then gc d else Ok d);
  Ok (__pos, d).

Definition remove_at (r : Z) (pos : Z) (d : deque) : result (Z * deque) :=
  throw_if_out_of_bound pos false d;;
  let __pos := pos in
  '(i, pos) ← find_at pos d;
  x' ← Vector.update i (Vector.erase pos) (x d);
  let d := {| _size := _size d - 1; x := x' |} in
  d ← (if negb (i =? Vector.size (x d) - 1) then
         a ← chunk_at i d;
         b ← chunk_at (i + 1) d;
         if should_merge (Vector.size a + Vector.size b) d then merge_chunk i d
         else Ok d
       else if Vector.size (x d) >? 1 then
         c ← chunk_at i d;
         if Vector.size c =? 0 then
           x' ← Vector.erase i (x d); Ok (with_x x' d)
         else Ok d
       else Ok d);
  d ← (if r <? REMOVE_GC_THRESHOLD then gc d else Ok d);
  Ok (__pos, d).

End Deque.
Arguments deque : clear implicits.

(** ** Iterators *)

(** Address of a container object. *)
Definition ptr : Type := positive.

Module base_iterator.
Section base_iterator.
Context {T : Type}.

(** [q] is the owning container ([None] for [nullptr]), [elem] the
    cached element reference ([None] for [nullptr]), held as the slot
    (chunk index, offset) it was taken from. *)
Record t : Type := mk { q : option ptr; elem : option (Z * Z); pos : Z }.

(** [base_iterator(Tq *q, const int &pos)] *)
Definition make (q : option ptr) (pos : Z) : t :=
  {| q := q; elem := None; pos := pos |}.

(** [base_iterator()] *)
Definition default : t := make None 0.

Definition owns (q' : option ptr) (it : t) : bool := bool_decide (q' = q it).

Definition check_owns (q' : option ptr) (it : t) : result unit :=
  if negb (owns q' it) then Throw invalid_iterator else Ok tt.

(** [q->m(...)]: a member call through the pointer [q]. *)
Definition through {A : Type} (heap : gmap ptr (deque T)) (q : option ptr)
    (m : deque T -> result A) : result A :=
  match q with
  | None => Undefined
  | Some p =>
      match heap !! p with
      | Some d => m d
      | None => Undefined
      end
  end.

Definition valid (heap : gmap ptr (deque T)) (self : t) : result t :=
  match q self with
  | None => Throw invalid_iterator
  | Some _ =>
      through heap (q self) (throw_if_out_of_bound (pos self) true);;
      Ok self
  end.

Definition construct (heap : gmap ptr (deque T)) (self : t) : result t :=
  valid heap {| q := q self; elem := None; pos := pos self |}.

(** [operator+(n)], [operator-(n)] *)
Definition plus (heap : gmap ptr (deque T)) (n : Z) (self : t) : result t :=
  construct heap (make (q self) (pos self + n)).

Definition minus (heap : gmap ptr (deque T)) (n : Z) (self : t) : result t :=
  construct heap (make (q self) (pos self - n)).

(** [operator-(rhs)]; the second component is [*this] afterwards. *)
Definition distance (heap : gmap ptr (deque T)) (rhs self : t) : result (Z * t) :=
  self' ← construct heap self;
  check_owns (q rhs) self';;
  Ok (pos self' - pos rhs, self').

(** [operator++()], [operator--()] *)
Definition incr (heap : gmap ptr (deque T)) (self : t) : result t :=
  construct heap {| q := q self; elem := elem self; pos := pos self + 1 |}.

Definition decr (heap : gmap ptr (deque T)) (self : t) : result t :=
  construct heap {| q := q self; elem := elem self; pos := pos self - 1 |}.

(** [operator*()]: the reference returned and [*this] afterwards
    ([elem] is [mutable]). *)
Definition deref (heap : gmap ptr (deque T)) (self : t) : result (Z * Z * t) :=
  match elem self with
  | Some r => Ok (r, self)
  | None =>
      r ← through heap (q self) (access_ref (pos self));
      Ok (r, {| q := q self; elem := Some r; pos := pos self |})
  end.

(** [operator->() noexcept]: the same body, returning the pointer
    instead of the reference; the exception that [access] throws for an
    index outside [[0, size())] cannot leave it. *)
Definition arrow (heap : gmap ptr (deque T)) (self : t) : noexcept_result (Z * Z * t) :=
  match deref heap self with
  | Ok a => Returns a
  | Throw _ => Terminates
  | Undefined => NoOutcome
  end.

(** [operator==] *)
Definition eqb (rhs self : t) : bool :=
  bool_decide (q rhs = q self) && (pos rhs =? pos self).

(** [operator!=] *)
Definition neqb (rhs self : t) : bool := negb (eqb rhs self).

(** The members that assign to [*this], with the iterator they leave
    behind: the first component is [*this] after the call, also when the
    call throws. *)

(** [operator+=(n)], [operator-=(n)]: the temporary is validated before
    it is assigned. *)
Definition plus_assign (heap : gmap ptr (deque T)) (n : Z) (self : t) : t * result unit :=
  match construct heap (make (q self) (pos self + n)) with
  | Ok it => (it, Ok tt)
  | Throw e => (self, Throw e)
  | Undefined => (self, Undefined)
  end.

Definition minus_assign (heap : gmap ptr (deque T)) (n : Z) (self : t) : t * result unit :=
  match construct heap (make (q self) (pos self - n)) with
  | Ok it => (it, Ok tt)
  | Throw e => (self, Throw e)
  | Undefined => (self, Undefined)
  end.

(** [operator++()], [operator--()]: [pos] is moved, [elem] reset, and
    only then is the position validated. *)
Definition pre_incr (heap : gmap ptr (deque T)) (self : t) : t * result unit :=
  let self' := {| q := q self; elem := None; pos := pos self + 1 |} in
  (self', valid heap self';; Ok tt).

Definition pre_decr (heap : gmap ptr (deque T)) (self : t) : t * result unit :=
  let self' := {| q := q self; elem := None; pos := pos self - 1 |} in
  (self', valid heap self';; Ok tt).

(** [operator++(int)], [operator--(int)]: the copy taken before the
    motion is returned. *)
Definition post_incr (heap : gmap ptr (deque T)) (self : t) : t * result t :=
  let '(self', o) := pre_incr heap self in (self', o;; Ok self).

Definition post_decr (heap : gmap ptr (deque T)) (self : t) : t * result t :=
  let '(self', o) := pre_decr heap self in (self', o;; Ok self).

End base_iterator.
Arguments t : clear implicits.
End base_iterator.

Abbreviation iterator := base_iterator.t.

(** ** Public surface *)

Section Public.
Context {T : Type}.
Implicit Types (d : deque T) (this : ptr).

(** [at(const size_t &pos)]: [pos] is a [size_t] value, and the call
    [access(pos)] narrows it to the [int] parameter of [access], which
    keeps its low 32 bits as a two's-complement value. *)
Definition at_ (pos : Z) d : result T := access (wrap pos) d.

(** [operator[](const size_t &pos)], narrowed in the same way. *)
Definition subscript (pos : Z) d : result T := access (wrap pos) d.

Definition front d : result T := access 0 d.

(** [size()] is unsigned: on an empty container [size() - 1] wraps and
    narrows to the [int] -1, the value of the subtraction in [Z]. *)
Definition back d : result T := access (size d - 1) d.

Definition begin this d : iterator := base_iterator.make (Some this) 0.

Definition end_ this d : iterator := base_iterator.make (Some this) (size d).

Definition cbegin this d : iterator := base_iterator.make (Some this) 0.

Definition cend this d : iterator := base_iterator.make (Some this) (size d).

Definition clear d : result (deque T) := init (with_x (Vector.clear (x d)) d).

(** An assignment through a reference to the live slot [x[c][j]], as
    [d[i] = v], [d.at(i) = v] and [*it = v] make it. *)
Definition store (c j : Z) (v : T) d : result (deque T) :=
  ck ← chunk_at c d;
  Vector.get j ck;;
  Ok (with_x (Vector.set c (Vector.set j v ck) (x d)) d).

(** The class declares neither a copy constructor nor an assignment
    operator, so both are the member-wise ones: [_size] is copied and
    the table by the members of [Vector<Vector<T>>], which copy each
    chunk by the copy constructor of [Vector<T>] and each element by that
    of [T]. *)
Definition copy_element (e : T) : T := e.

(** [deque(const deque &that)] *)
Definition copy_construct (that : deque T) : deque T :=
  {| _size := _size that;
     x := Vector.copy (Vector.copy copy_element) (x that) |}.

(** [operator=(const deque &that)]; [same] tells whether [this == &that]. *)
Definition assign (same : bool) (that : deque T) d : deque T :=
  {| _size := _size that;
     x := Vector.assign (Vector.copy copy_element) same (x that) (x d) |}.

Definition insert this (r : Z) (it : iterator) (value : T) d
  : result (iterator * deque T) :=
  base_iterator.check_owns (Some this) it;;
  '(p, d') ← insert_at r (base_iterator.pos it) value d;
  Ok (base_iterator.make (Some this) p, d').

Definition erase this (r : Z) (it : iterator) d : result (iterator * deque T) :=
  base_iterator.check_owns (Some this) it;;
  '(p, d') ← remove_at r (base_iterator.pos it) d;
  Ok (base_iterator.make (Some this) p, d').

Definition push_back (r : Z) (value : T) d : result (deque T) :=
  '(_, d') ← insert_at r (size d) value d; Ok d'.

Definition pop_back (r : Z) d : result (deque T) :=
  '(_, d') ← remove_at r (size d - 1) d; Ok d'.

Definition push_front (r : Z) (value : T) d : result (deque T) :=
  '(_, d') ← insert_at r 0 value d; Ok d'.

Definition pop_front (r : Z) d : result (deque T) :=
  '(_, d') ← remove_at r 0 d; Ok d'.

(** [insert], [push_back] and [push_front] for an argument of either
    kind; the members above are these for an object outside the
    container. *)
Definition insert_ref this (r : Z) (it : iterator) (value : cref) d
  : result (iterator * deque T) :=
  base_iterator.check_owns (Some this) it;;
  '(p, d') ← insert_at_ref r (base_iterator.pos it) value d;
  Ok (base_iterator.make (Some this) p, d').

Definition push_back_ref (r : Z) (value : cref) d : result (deque T) :=
  '(_, d') ← insert_at_ref r (size d) value d; Ok d'.

Definition push_front_ref (r : Z) (value : cref) d : result (deque T) :=
  '(_, d') ← insert_at_ref r 0 value d; Ok d'.

(** *** Abstract views *)

Definition chunks d : list (Vector.t T) := Vector.buffer (x d).

(** The chunks in table order, each in slot order. *)
Definition to_list d : list T := concat (map Vector.buffer (chunks d)).

Definition chunk_sizes d : list Z := map Vector._size (chunks d).

Definition total_len (cs : list (Vector.t T)) : Z :=
  foldr (fun c acc => Vector._size c + acc) 0 cs.

End Public.

(** ** Histories of public calls *)

Section History.
Context {T : Type}.
Implicit Types (d : deque T) (this : ptr).

(** The mutating public members; [r] is the value of [rand()] seen by
  the call, and [value] the object that the call reads through its
  reference parameter: a call that returns has done what the call with
  that object does, wherever the object lives
  ([insert_at_ref_by_value]). *)
Inductive op : Type :=
| op_push_back (r : Z) (value : T)
| op_push_front (r : Z) (value : T)
| op_pop_back (r : Z)
| op_pop_front (r : Z)
| op_insert (r : Z) (it : iterator) (value : T)
| op_erase (r : Z) (it : iterator)
| op_clear
| op_gc.

Definition step this (o : op) d : result (deque T) :=
match o with
| op_push_back r v => push_back r v d
| op_push_front r v => push_front r v d
| op_pop_back r => pop_back r d
| op_pop_front r => pop_front r d
| op_insert r it v => '(_, d') ← insert this r it v d; Ok d'
| op_erase r it => '(_, d') ← erase this r it d; Ok d'
| op_clear => clear d
| op_gc => gc d
end.

(** [history this h d]: the container at address [this] was constructed
  and the calls of [h] (most recent first) returned normally, leaving
  it in state [d]. *)
Inductive history this : list op -> deque T -> Prop :=
| history_construct d :
    construct = Ok d -> history this [] d
| history_step h o d d' :
    history this h d -> step this o d = Ok d' -> history this (o :: h) d'.

Definition reachable this d : Prop := exists h, history this h d.

Definition is_push (o : op) : bool :=
match o with
| op_push_back _ _ | op_push_front _ _ | op_insert _ _ _ => true
| _ => false
end.

Definition is_pop (o : op) : bool :=
match o with
| op_pop_back _ | op_pop_front _ | op_erase _ _ => true
| _ => false
end.

Definition count (f : op -> bool) (h : list op) : Z :=
Z.of_nat (length (filter (fun o => f o = true) h)).

(** The calls made after the most recent [clear()]. *)
Fixpoint since_clear (h : list op) : list op :=
match h with
| [] => []
| op_clear :: _ => []
| o :: h' => o :: since_clear h'
end.

(** Everything a client can do that creates a container or changes one:
  the calls of [op], the copy constructor and the assignment operator
  (with the state [that] of their source), and an assignment to an
  element through a reference that [at], [operator[]] or [*it] returned
  (with the slot and the value). *)
Inductive event : Type :=
| ev_call (o : op)
| ev_copy (that : deque T)
| ev_assign (that : deque T)
| ev_assign_self
| ev_store (c j : Z) (v : T).

(** [lineage this h d]: the container at address [this] was constructed,
  by [deque()] or as a copy of a container that has a lineage of its
  own, and the events of [h] (most recent first) happened to it,
  leaving it in state [d]; every container it was assigned from has a
  lineage of its own. *)
Inductive lineage : ptr -> list event -> deque T -> Prop :=
| lineage_construct this d :
    construct = Ok d -> lineage this [] d
| lineage_copy this other hs that :
    lineage other hs that -> lineage this [ev_copy that] (copy_construct that)
| lineage_call this h o d d' :
    lineage this h d -> step this o d = Ok d' -> lineage this (ev_call o :: h) d'
| lineage_assign this other h hs d that :
    lineage this h d -> lineage other hs that ->
    lineage this (ev_assign that :: h) (assign false that d)
| lineage_assign_self this h d :
    lineage this h d -> lineage this (ev_assign_self :: h) (assign true d d)
| lineage_store this h c j v d d' :
    lineage this h d -> store c j v d = Ok d' -> lineage this (ev_store c j v :: h) d'.

(** The calls of [op] among the events. *)
Fixpoint calls (h : list event) : list op :=
match h with
| [] => []
| ev_call o :: h' => o :: calls h'
| _ :: h' => calls h'
end.

(** The calls made after the most recent [clear()], copy construction
  or assignment from another container. *)
Fixpoint since_reset (h : list event) : list op :=
match h with
| [] => []
| ev_call op_clear :: _ => []
| ev_call o :: h' => o :: since_reset h'
| ev_copy _ :: _ => []
| ev_assign _ :: _ => []
| ev_assign_self :: h' => since_reset h'
| ev_store _ _ _ :: h' => since_reset h'
end.

(** The size the most recent of these gave the container: 0 for
  [deque()] and [clear()], the size of the source for a copy or an
  assignment. *)
Fixpoint carried (h : list event) : Z :=
match h with
| [] => 0
| ev_call op_clear :: _ => 0
| ev_call _ :: h' => carried h'
| ev_copy that :: _ => size that
| ev_assign that :: _ => size that
| ev_assign_self :: h' => carried h'
| ev_store _ _ _ :: h' => carried h'
end.

(** Representation invariant: the table is never empty and [_size]
  counts the live slots of all chunks. *)
Definition wf d : Prop :=
chunks d <> [] /\ _size d = total_len (chunks d).

(** The split and merge predicates of the rebalancing policy, on
  mathematical integers. *)
Definition split_pred (n len : Z) : Prop := 16 <= len /\ len * len > 8 * n.

Definition merge_pred (n len_a len_b : Z) : Prop :=
(len_a + len_b) * (len_a + len_b) * 64 <= n.

Definition no_split_due d : Prop :=
Forall (fun c => ~ split_pred (size d) (Vector.size c)) (chunks d).

Definition no_merge_due d : Prop :=
forall (i : nat) a b,
  chunks d !! i = Some a -> chunks d !! S i = Some b ->
  ~ merge_pred (size d) (Vector.size a) (Vector.size b).

End History.

(** ** Views used by the statements *)

Section Views.
Context {T : Type}.
Implicit Types (d : deque T) (this : ptr) (c : Vector.t T).

(** [x.size()] *)
Definition table_len d : Z := Z.of_nat (length (chunks d)).

(** [d] holds the same elements in the same order as [d0], with the
    same [_size], and has a chunk if [d0] has one. *)
Definition same d0 d : Prop :=
  _size d = _size d0 /\ to_list d = to_list d0 /\ (chunks d0 <> [] -> chunks d <> []).

(** A chunk short enough that neither half of it is due for a split. *)
Definition halves_fit (n : Z) c : Prop :=
  (Vector.size c + 1) * (Vector.size c + 1) <= 32 * n.

(** Change of [size()] made by a successful call other than [clear()]. *)
Definition delta (o : @op T) : Z :=
  (if is_push o then 1 else 0) - (if is_pop o then 1 else 0).

(** What a client can see of a state: [size()] and every [access(i)];
    [to_list] is kept alongside. *)
Definition obs_eq d d' : Prop :=
  size d' = size d /\ to_list d' = to_list d /\ forall i, access i d' = access i d.


Fixpoint exec this (ops : list op) d : result (deque T) :=
  match ops with
  | [] => Ok d
  | o :: ops' => d' ← step this o d; exec this ops' d'
  end.

(** Construct a container at [this] and make the calls [ops] in order. *)
Definition run this (ops : list op) : result (deque T) :=
  d ← construct; exec this ops d.

Definition empty_chunks d : list (Vector.t T) :=
  filter (fun c => Vector.size c = 0) (chunks d).

(** Invariant I4 of the spec, as written there. *)
Definition at_most_one_empty d : Prop :=
  (length (empty_chunks d) <= 1)%nat /\
  (empty_chunks d <> [] -> (length (chunks d) <= 1)%nat).

(** A vector whose capacity is a power of two, at least
    [min_chunk_size], and holds its live prefix. *)
Definition vec_ok {U : Type} (v : Vector.t U) : Prop :=
  (exists k, 9 <= k /\ Vector._cap v = 2 ^ k) /\ Vector._size v <= Vector._cap v.

(** The same for the chunk table and for every chunk. *)
Definition caps_ok d : Prop := vec_ok (x d) /\ Forall vec_ok (chunks d).

(** Capacities fit and the table holds at most [2^30] elements. *)
Definition roomy d : Prop := caps_ok d /\ total_len (chunks d) <= 2 ^ 30.

(** The content of the slot a reference designates. *)
Definition load (r : Z * Z) d : result T :=
  c ← chunk_at (fst r) d; Vector.get (snd r) c.

End Views.

(** Concrete containers of integers, used to exercise the statements. *)

Definition no_deque : deque Z := mk_deque 0 (Vector.make 0).

Definition unwrap (o : result (deque Z)) : deque Z :=
  match o with Ok d => d | _ => no_deque end.

(** S2 of the spec, with [rand()] below the threshold in every call. *)
Definition alternation_ops : list (@op Z) :=
  [op_push_front 0 10; op_push_back 0 20; op_push_front 0 30; op_push_back 0 40].

Definition alternation : deque Z := Eval vm_compute in unwrap (run 1%positive alternation_ops).

(** 24 [push_back] then 16 [pop_front]; [rand()] never triggers [gc]. *)
Definition drain_ops : list (@op Z) :=
  replicate 24 (op_push_back 20000 1) ++ replicate 16 (op_pop_front 20000).

Definition drained : deque Z := Eval vm_compute in unwrap (run 1%positive drain_ops).

(** 200 [push_back] then 166 [pop_front]; [rand()] never triggers [gc]. *)
Definition shrink_ops : list (@op Z) :=
  replicate 200 (op_push_back 20000 1) ++ replicate 166 (op_pop_front 20000).

Definition shrunk : deque Z := Eval vm_compute in unwrap (run 1%positive shrink_ops).

Definition cleared_ops : list (@op Z) :=
  [op_push_back 0 7; op_clear; op_push_back 0 8; op_push_back 0 9; op_pop_front 0].

Definition cleared : deque Z := Eval vm_compute in unwrap (run 1%positive cleared_ops).

Definition shrunk_gc : deque Z := Eval vm_compute in unwrap (gc shrunk).

(** A container at address 2: [push_back(7)], assignment from the
    container [alternation], [pop_front()], [d[1] = 5]. *)
Definition reassigned_events : list (@event Z) :=
  [ev_store 0 1 5; ev_call (op_pop_front 0); ev_assign alternation;
   ev_call (op_push_back 0 7)].

Definition reassigned : deque Z :=
  Eval vm_compute in
    unwrap (d ← pop_front 0 (assign false alternation
                               (unwrap (run 2%positive [op_push_back 0 7])));
            store 0 1 5 d).

(** 300 [push_back] then 22 [pop_front]; [rand()] never triggers [gc]:
    two empty chunks, a chunk of 2 and, last, a chunk of 48 that is due
    for a split. *)
Definition lopsided_ops : list (@op Z) :=
  replicate 300 (op_push_back 20000 1) ++ replicate 22 (op_pop_front 20000).

Definition lopsided : deque Z := Eval vm_compute in unwrap (run 1%positive lopsided_ops).

Definition lopsided_gc : deque Z := Eval vm_compute in unwrap (gc lopsided).

(** A full vector of 512 integers. *)
Definition full_vec : Vector.t Z := {| Vector.buffer := replicate 512 7; Vector._cap := 512 |}.

(** 16 [push_back]: two chunks of 8. *)
Definition balanced_ops : list (@op Z) := replicate 16 (op_push_back 20000 1).

Definition balanced : deque Z := Eval vm_compute in unwrap (run 1%positive balanced_ops).

(** The container [alternation] at address 1. *)
Definition one_heap : gmap ptr (deque Z) := {[ 1%positive := alternation ]}.

(** Three integers in 512 slots. *)
Definition small_vec : Vector.t Z := {| Vector.buffer := [1; 2; 3]; Vector._cap := 512 |}.

Definition full_vec_grown : Vector.t Z :=
  Eval vm_compute in match Vector.insert 0 7 full_vec with Ok v => v | _ => full_vec end.

(** 2048 slots and five elements, one of which is about to go. *)
Definition sparse_vec : Vector.t Z := {| Vector.buffer := [1; 2; 3; 4; 5]; Vector._cap := 2048 |}.

Definition sparse_vec_shrunk : Vector.t Z :=
  Eval vm_compute in match Vector.erase 0 sparse_vec with Ok v => v | _ => sparse_vec end.

(** 2048 chunks of 8 integers. *)
Definition packed : deque Z :=
  {| _size := 16384;
     x := {| Vector.buffer := replicate 2048 {| Vector.buffer := replicate 8 1; Vector._cap := 512 |};
             Vector._cap := 2048 |} |}.

Definition balanced_first : Vector.t Z :=
  Eval vm_compute in match chunk_at 0 balanced with Ok c => c | _ => Vector.make 0 end.

(** * Verification *)

(** Continue with the rest of a sequence once its first call is known. *)
Ltac run_bind := cbn [mbind result_bind].

(** ** Lists, slots and totals *)

Section Basics.
Context {T : Type}.
Implicit Types (d : deque T) (c : Vector.t T) (cs pre post : list (Vector.t T)).

Lemma slot_Ok_inv {A} (l : list A) i a :
  slot l i = Ok a -> 0 <= i /\ l !! Z.to_nat i = Some a.
Proof.
  unfold slot. destruct (Z.leb_spec 0 i); [|discriminate].
  destruct (l !! Z.to_nat i) eqn:E; [|discriminate].
  intros [= ->]. auto.
Qed.

Lemma slot_lookup {A} (l : list A) (n : nat) a :
  l !! n = Some a -> slot l (Z.of_nat n) = Ok a.
Proof.
  intros H. unfold slot. destruct (Z.leb_spec 0 (Z.of_nat n)); [|lia].
  rewrite Nat2Z.id, H. reflexivity.
Qed.

Lemma slot_middle {A} (pre post : list A) a :
  slot (pre ++ a :: post) (Z.of_nat (length pre)) = Ok a.
Proof. apply slot_lookup, list_lookup_middle. reflexivity. Qed.

Lemma slot_in_range {A} (l : list A) i :
  0 <= i < Z.of_nat (length l) -> exists a, slot l i = Ok a /\ l !! Z.to_nat i = Some a.
Proof.
  intros H. destruct (lookup_lt_is_Some_2 l (Z.to_nat i)) as [a Ha]; [lia|].
  exists a. split; [|exact Ha].
  rewrite <- (Z2Nat.id i) by lia. apply slot_lookup, Ha.
Qed.

Lemma total_len_app cs1 cs2 :
  total_len (cs1 ++ cs2) = total_len cs1 + total_len cs2.
Proof. induction cs1 as [|c cs1 IH]; simpl; [|rewrite IH]; lia. Qed.

Lemma total_len_cons c cs : total_len (c :: cs) = Vector._size c + total_len cs.
Proof. reflexivity. Qed.

Lemma size_nonneg {U} (v : Vector.t U) : 0 <= Vector._size v.
Proof. unfold Vector._size. lia. Qed.

Lemma total_len_nonneg cs : 0 <= total_len cs.
Proof.
  induction cs as [|c cs IH]; simpl; [lia|].
  pose proof (size_nonneg c). lia.
Qed.

Lemma total_len_concat cs :
  total_len cs = Z.of_nat (length (concat (map Vector.buffer cs))).
Proof.
  induction cs as [|c cs IH]; simpl; [reflexivity|].
  rewrite length_app, IH. unfold Vector._size. lia.
Qed.

Lemma to_list_middle d pre c post :
  chunks d = pre ++ c :: post ->
  to_list d = concat (map Vector.buffer pre) ++ Vector.buffer c
                ++ concat (map Vector.buffer post).
Proof.
  intros E. unfold to_list. rewrite E, map_app, concat_app. reflexivity.
Qed.

Lemma wf_size d : wf d -> size d = Z.of_nat (length (to_list d)).
Proof. intros [_ H]. unfold size, to_list. rewrite H. apply total_len_concat. Qed.

Lemma chunk_middle d pre c post :
  chunks d = pre ++ c :: post -> chunk_at (Z.of_nat (length pre)) d = Ok c.
Proof. intros E. unfold chunk_at, Vector.get. fold (chunks d). rewrite E. apply slot_middle. Qed.

Lemma chunk_in_range d i :
  0 <= i < Z.of_nat (length (chunks d)) ->
  exists c, chunk_at i d = Ok c /\ chunks d !! Z.to_nat i = Some c.
Proof. intros H. apply slot_in_range, H. Qed.

Lemma chunk_split_at d i c :
  chunk_at i d = Ok c ->
  0 <= i /\ chunks d = take (Z.to_nat i) (chunks d) ++ c :: drop (S (Z.to_nat i)) (chunks d)
  /\ Z.of_nat (length (take (Z.to_nat i) (chunks d))) = i.
Proof.
  intros H. apply slot_Ok_inv in H as [Hi H]. fold (chunks d) in H.
  split; [exact Hi|]. split.
  - symmetry. apply take_drop_middle, H.
  - apply lookup_lt_Some in H. rewrite length_take. lia.
Qed.

End Basics.

(** ** The locator *)

Section Locator.
Context {T : Type}.
Implicit Types (d : deque T) (c : Vector.t T) (cs pre mid post : list (Vector.t T)).

Lemma length_snoc_Z {A} (l : list A) a :
  Z.of_nat (length (l ++ [a])) = Z.of_nat (length l) + 1.
Proof. rewrite length_app. simpl. lia. Qed.

(** The four scans.  [pre] is the part of the table already passed by a
    left-to-right scan (resp. still ahead of a right-to-left one); the
    result names the chunk reached by its position in the table. *)
Lemma find_at_fwd_ok d post : forall pre budget _pos,
  chunks d = pre ++ post ->
  (length post < budget)%nat ->
  0 <= _pos < total_len post ->
  exists mid c post' off,
    post = mid ++ c :: post' /\
    find_at_fwd budget (Z.of_nat (length pre)) _pos d
      = Ok (Z.of_nat (length (pre ++ mid)), off) /\
    0 <= off < Vector._size c /\
    _pos = total_len mid + off.
Proof.
  induction post as [|c post IH]; intros pre budget _pos E Hb Hp.
  - simpl in Hp. lia.
  - destruct budget as [|b]; [simpl in Hb; lia|].
    simpl find_at_fwd. rewrite (chunk_middle d pre c post E). simpl.
    rewrite total_len_cons in Hp. pose proof (size_nonneg c) as Hc.
    destruct (Z.geb_spec _pos (Vector._size c)) as [Hge|Hlt].
    + assert (find_at_fwd b (Z.of_nat (length (pre ++ [c]))) (_pos - Vector._size c) d
              = (if Vector._size c =? 0
                 then find_at_fwd b (Z.of_nat (length pre) + 1) _pos d
                 else find_at_fwd b (Z.of_nat (length pre) + 1) (_pos - Vector._size c) d))
        as <-.
      { rewrite length_snoc_Z. destruct (Z.eqb_spec (Vector._size c) 0) as [->|]; [|reflexivity].
        rewrite Z.sub_0_r. reflexivity. }
      destruct (IH (pre ++ [c]) b (_pos - Vector._size c)) as (mid & c' & post' & off & -> & Hf & Ho & Hs).
      { rewrite <- app_assoc. exact E. }
      { simpl in Hb. lia. }
      { lia. }
      exists (c :: mid), c', post', off. split; [reflexivity|].
      rewrite Hf. rewrite <- app_assoc. simpl. rewrite ?total_len_cons. repeat split; lia.
    + exists [], c, post, _pos. rewrite app_nil_r. simpl. repeat split; lia.
Qed.

Lemma find_at_bwd_ok d pre : forall post budget _pos,
  chunks d = pre ++ post ->
  (length pre < budget)%nat ->
  1 <= _pos <= total_len pre ->
  exists pre' c mid off,
    pre = pre' ++ c :: mid /\
    find_at_bwd budget (Z.of_nat (length pre) - 1) _pos d
      = Ok (Z.of_nat (length pre'), off) /\
    0 <= off < Vector._size c /\
    total_len pre' + off = total_len pre - _pos.
Proof.
  induction pre as [|c pre IH] using rev_ind; intros post budget _pos E Hb Hp.
  - simpl in Hp. lia.
  - destruct budget as [|b]; [simpl in Hb; lia|].
    rewrite <- app_assoc in E. simpl in E.
    simpl find_at_bwd. rewrite length_snoc_Z.
    replace (Z.of_nat (length pre) + 1 - 1) with (Z.of_nat (length pre)) by lia.
    rewrite (chunk_middle d pre c post E). simpl.
    rewrite total_len_app, total_len_cons in Hp. simpl in Hp.
    pose proof (size_nonneg c) as Hc.
    destruct (Z.gtb_spec _pos (Vector._size c)) as [Hgt|Hle].
    + assert (find_at_bwd b (Z.of_nat (length pre) - 1) (_pos - Vector._size c) d
              = (if Vector._size c =? 0
                 then find_at_bwd b (Z.of_nat (length pre) - 1) _pos d
                 else find_at_bwd b (Z.of_nat (length pre) - 1) (_pos - Vector._size c) d))
        as <-.
      { destruct (Z.eqb_spec (Vector._size c) 0) as [->|]; [|reflexivity].
        rewrite Z.sub_0_r. reflexivity. }
      destruct (IH (c :: post) b (_pos - Vector._size c)) as (pre' & c' & mid & off & -> & Hf & Ho & Hs).
      { exact E. }
      { rewrite length_app in Hb. simpl in Hb. lia. }
      { lia. }
      exists pre', c', (mid ++ [c]), off. split.
      { rewrite <- app_assoc. reflexivity. }
      rewrite Hf. repeat split; try lia.
      rewrite total_len_app, total_len_cons. simpl. lia.
    + exists pre, c, [], (Vector._size c - _pos). repeat split; try lia.
      rewrite total_len_app, total_len_cons. simpl. lia.
Qed.

Lemma find_at_allow_end_fwd_ok d post : forall pre budget _pos,
  chunks d = pre ++ post ->
  post <> [] ->
  (length post < budget)%nat ->
  0 <= _pos <= total_len post ->
  exists mid c post' off,
    post = mid ++ c :: post' /\
    find_at_allow_end_fwd budget (Z.of_nat (length pre)) _pos d
      = Ok (Z.of_nat (length (pre ++ mid)), off) /\
    0 <= off <= Vector._size c /\
    _pos = total_len mid + off.
Proof.
  induction post as [|c post IH]; intros pre budget _pos E Hne Hb Hp; [done|].
  destruct budget as [|b]; [simpl in Hb; lia|].
  simpl find_at_allow_end_fwd. rewrite (chunk_middle d pre c post E). simpl.
  rewrite total_len_cons in Hp. pose proof (size_nonneg c) as Hc.
  unfold Vector.size.
  destruct (Z.gtb_spec _pos (Vector._size c)) as [Hgt|Hle].
  - rewrite <- (length_snoc_Z pre c).
    destruct (IH (pre ++ [c]) b (_pos - Vector._size c)) as (mid & c' & post' & off & -> & Hf & Ho & Hs).
    { rewrite <- app_assoc. exact E. }
    { intros ->. simpl in Hp. lia. }
    { simpl in Hb. lia. }
    { lia. }
    exists (c :: mid), c', post', off. split; [reflexivity|].
    rewrite Hf. rewrite <- app_assoc. simpl. rewrite ?total_len_cons. repeat split; lia.
  - exists [], c, post, _pos. rewrite app_nil_r. simpl. repeat split; lia.
Qed.

Lemma find_at_allow_end_bwd_ok d pre : forall post budget _pos,
  chunks d = pre ++ post ->
  pre <> [] ->
  (length pre < budget)%nat ->
  0 <= _pos <= total_len pre ->
  exists pre' c mid off,
    pre = pre' ++ c :: mid /\
    find_at_allow_end_bwd budget (Z.of_nat (length pre) - 1) _pos d
      = Ok (Z.of_nat (length pre'), off) /\
    0 <= off <= Vector._size c /\
    total_len pre' + off = total_len pre - _pos.
Proof.
  induction pre as [|c pre IH] using rev_ind; intros post budget _pos E Hne Hb Hp; [done|].
  destruct budget as [|b]; [simpl in Hb; lia|].
  rewrite <- app_assoc in E. simpl in E.
  simpl find_at_allow_end_bwd. rewrite length_snoc_Z.
  replace (Z.of_nat (length pre) + 1 - 1) with (Z.of_nat (length pre)) by lia.
  rewrite (chunk_middle d pre c post E). simpl.
  rewrite total_len_app, total_len_cons in Hp. simpl in Hp.
  pose proof (size_nonneg c) as Hc. pose proof (total_len_nonneg pre) as Hpre.
  unfold Vector.size.
  destruct (Z.eqb_spec (Z.of_nat (length pre)) 0) as [H0|H0]; simpl.
  - destruct pre; [|simpl in H0; lia]. simpl in *.
    exists [], c, [], (Vector._size c - _pos). repeat split; simpl; lia.
  - destruct (Z.geb_spec _pos (Vector._size c)) as [Hge|Hlt].
    + destruct (IH (c :: post) b (_pos - Vector._size c)) as (pre' & c' & mid & off & -> & Hf & Ho & Hs).
      { exact E. }
      { intros ->. simpl in H0. lia. }
      { rewrite length_app in Hb. simpl in Hb. lia. }
      { lia. }
      exists pre', c', (mid ++ [c]), off. split.
      { rewrite <- app_assoc. reflexivity. }
      rewrite Hf. repeat split; try lia.
      rewrite total_len_app, total_len_cons. simpl. lia.
    + exists pre, c, [], (Vector._size c - _pos). repeat split; try lia.
      rewrite total_len_app, total_len_cons. simpl. lia.
Qed.

(** [find_at] on a valid index: the chunk that holds it and the offset
    inside that chunk. *)
Lemma find_at_spec d pos :
  wf d -> 0 <= pos < size d ->
  exists pre c post off,
    chunks d = pre ++ c :: post /\
    find_at pos d = Ok (Z.of_nat (length pre), off) /\
    0 <= off < Vector._size c /\
    pos = total_len pre + off.
Proof.
  intros [Hne Hsz] Hp. unfold size in Hp. unfold find_at. fold (chunks d).
  destruct (Z.leb_spec pos (Z.shiftr (_size d) 1)) as [Hlo|Hhi].
  - destruct (find_at_fwd_ok d (chunks d) [] (S (length (chunks d))) pos)
      as (mid & c & post & off & E & Hf & Ho & Hs).
    { done. }
    { lia. }
    { lia. }
    exists mid, c, post, off. simpl in Hf. auto.
  - change (Vector._size (x d)) with (Z.of_nat (length (chunks d))).
    destruct (find_at_bwd_ok d (chunks d) [] (S (length (chunks d))) (_size d - pos))
      as (pre & c & mid & off & E & Hf & Ho & Hs);
      [by rewrite app_nil_r|lia|lia|].
    exists pre, c, mid, off. repeat split; try done; lia.
Qed.

(** [find_at_allow_end] on an index of [[0, N]]: the offset may be the end
    of the chunk. *)
Lemma find_at_allow_end_spec d pos :
  wf d -> 0 <= pos <= size d ->
  exists pre c post off,
    chunks d = pre ++ c :: post /\
    find_at_allow_end pos d = Ok (Z.of_nat (length pre), off) /\
    0 <= off <= Vector._size c /\
    pos = total_len pre + off.
Proof.
  intros [Hne Hsz] Hp. unfold size in Hp. unfold find_at_allow_end. fold (chunks d).
  destruct (Z.leb_spec pos (Z.shiftr (_size d) 1)) as [Hlo|Hhi].
  - destruct (find_at_allow_end_fwd_ok d (chunks d) [] (S (length (chunks d))) pos)
      as (mid & c & post & off & E & Hf & Ho & Hs); [done|done|lia| |].
    { pose proof (Z.shiftr_nonneg (_size d) 1). lia. }
    exists mid, c, post, off. simpl in Hf. auto.
  - change (Vector.size (x d)) with (Z.of_nat (length (chunks d))).
    destruct (find_at_allow_end_bwd_ok d (chunks d) [] (S (length (chunks d))) (_size d - pos))
      as (pre & c & mid & off & E & Hf & Ho & Hs);
      [by rewrite app_nil_r|done|lia|lia|].
    exists pre, c, mid, off. repeat split; try done; lia.
Qed.

End Locator.

(** ** Vector operations on a decomposed live prefix *)

Section VectorFacts.
Context {U : Type}.
Implicit Types (v : Vector.t U) (pre post : list U).

Lemma expand_if_full_buffer v : Vector.buffer (Vector.expand_if_full v) = Vector.buffer v.
Proof. unfold Vector.expand_if_full. destruct (negb _); reflexivity. Qed.

Lemma shrink_if_small_buffer v : Vector.buffer (Vector.shrink_if_small v) = Vector.buffer v.
Proof. unfold Vector.shrink_if_small. destruct (_ && _); reflexivity. Qed.

Lemma vec_insert_ok v pos e :
  0 <= pos <= Vector._size v ->
  exists v', Vector.insert pos e v = Ok v' /\
    Vector.buffer v' = take (Z.to_nat pos) (Vector.buffer v) ++ e :: drop (Z.to_nat pos) (Vector.buffer v).
Proof.
  intros H. unfold Vector.insert.
  assert (Vector._size (Vector.expand_if_full v) = Vector._size v) as Hs.
  { unfold Vector._size. rewrite expand_if_full_buffer. reflexivity. }
  rewrite Hs.
  destruct (Z.leb_spec 0 pos); [|lia]. destruct (Z.leb_spec pos (Vector._size v)); [|lia].
  simpl. eexists. split; [reflexivity|]. simpl. rewrite expand_if_full_buffer. reflexivity.
Qed.

Lemma vec_erase_ok v pos :
  0 <= pos < Vector._size v ->
  exists v', Vector.erase pos v = Ok v' /\
    Vector.buffer v' = take (Z.to_nat pos) (Vector.buffer v) ++ drop (S (Z.to_nat pos)) (Vector.buffer v).
Proof.
  intros H. unfold Vector.erase.
  destruct (Z.leb_spec 0 pos); [|lia]. destruct (Z.ltb_spec pos (Vector._size v)); [|lia].
  simpl. eexists. split; [reflexivity|]. rewrite shrink_if_small_buffer. reflexivity.
Qed.

Lemma vec_insert_middle v pre post e :
  Vector.buffer v = pre ++ post ->
  exists v', Vector.insert (Z.of_nat (length pre)) e v = Ok v' /\
    Vector.buffer v' = pre ++ e :: post.
Proof.
  intros E. destruct (vec_insert_ok v (Z.of_nat (length pre)) e) as (v' & Hv & Hb).
  { unfold Vector._size. rewrite E, length_app. lia. }
  exists v'. split; [exact Hv|]. rewrite Hb, E, Nat2Z.id.
  rewrite take_app_length, drop_app_length. reflexivity.
Qed.

Lemma vec_erase_middle v pre post e :
  Vector.buffer v = pre ++ e :: post ->
  exists v', Vector.erase (Z.of_nat (length pre)) v = Ok v' /\
    Vector.buffer v' = pre ++ post.
Proof.
  intros E. destruct (vec_erase_ok v (Z.of_nat (length pre))) as (v' & Hv & Hb).
  { unfold Vector._size. rewrite E, length_app. simpl. lia. }
  exists v'. split; [exact Hv|]. rewrite Hb, E, Nat2Z.id.
  rewrite take_app_length, drop_app_ge by lia.
  replace (S (length pre) - length pre)%nat with 1%nat by lia. reflexivity.
Qed.

Lemma vec_get_middle v pre post e :
  Vector.buffer v = pre ++ e :: post -> Vector.get (Z.of_nat (length pre)) v = Ok e.
Proof. intros E. unfold Vector.get. rewrite E. apply slot_middle. Qed.

Lemma vec_set_middle v pre post e e' :
  Vector.buffer v = pre ++ e :: post ->
  Vector.buffer (Vector.set (Z.of_nat (length pre)) e' v) = pre ++ e' :: post.
Proof.
  intros E. unfold Vector.set. simpl. rewrite E, Nat2Z.id.
  rewrite insert_app_r_alt by lia. rewrite Nat.sub_diag. reflexivity.
Qed.

Lemma vec_update_middle v pre post e e' (m : U -> result U) :
  Vector.buffer v = pre ++ e :: post -> m e = Ok e' ->
  exists v', Vector.update (Z.of_nat (length pre)) m v = Ok v' /\
    Vector.buffer v' = pre ++ e' :: post.
Proof.
  intros E Hm. unfold Vector.update. rewrite (vec_get_middle v pre post e E). simpl.
  rewrite Hm. simpl. eexists. split; [reflexivity|]. eapply vec_set_middle, E.
Qed.

End VectorFacts.

(** ** Splitting and merging chunks *)

Section Rebalance.
Context {T : Type}.
Implicit Types (d : deque T) (c : Vector.t T) (cs pre mid post : list (Vector.t T)).

(** [split_chunk] replaces a chunk by its two halves, [merge_chunk] two
    neighbours by their concatenation. *)
Lemma split_chunk_middle d pre c post :
  chunks d = pre ++ c :: post ->
  exists d' a b,
    split_chunk (Z.of_nat (length pre)) d = Ok d' /\
    _size d' = _size d /\
    chunks d' = pre ++ a :: b :: post /\
    Vector.buffer a = take (Z.to_nat (Z.shiftr (Vector.size c) 1)) (Vector.buffer c) /\
    Vector.buffer b = drop (Z.to_nat (Z.shiftr (Vector.size c) 1)) (Vector.buffer c).
Proof.
  intros E. unfold split_chunk. rewrite (chunk_middle d pre c post E). simpl.
  destruct (vec_insert_middle (x d) pre (c :: post)
              (Vector.make (Vector.fit (Vector._size c)))) as (x1 & -> & E1); [exact E|].
  simpl. rewrite (vec_get_middle x1 pre (c :: post) _ E1). simpl.
  assert (Vector.get (Z.of_nat (length pre) + 1) x1 = Ok c) as ->.
  { rewrite <- (length_snoc_Z pre (Vector.make (Vector.fit (Vector._size c)))).
    eapply vec_get_middle. rewrite <- app_assoc. exact E1. }
  run_bind.
  set (a := {| Vector.buffer := take _ _ |}). set (b := {| Vector.buffer := drop _ _ |}).
  exists (with_x (Vector.set (Z.of_nat (length pre) + 1) b
                    (Vector.set (Z.of_nat (length pre)) a x1)) d), a, b.
  split; [reflexivity|]. split; [reflexivity|]. split; [|split; reflexivity].
  unfold chunks, with_x. cbn [x].
  pose proof (vec_set_middle x1 pre (c :: post) _ a E1) as E2.
  rewrite <- (length_snoc_Z pre a).
  erewrite vec_set_middle; [|rewrite <- app_assoc; exact E2].
  rewrite <- app_assoc. reflexivity.
Qed.

Lemma merge_chunk_middle d pre a b post :
  chunks d = pre ++ a :: b :: post ->
  exists d' ab,
    merge_chunk (Z.of_nat (length pre)) d = Ok d' /\
    _size d' = _size d /\
    chunks d' = pre ++ ab :: post /\
    Vector.buffer ab = Vector.buffer a ++ Vector.buffer b.
Proof.
  intros E. unfold merge_chunk. rewrite (chunk_middle d pre a (b :: post) E). simpl.
  assert (chunk_at (Z.of_nat (length pre) + 1) d = Ok b) as ->.
  { rewrite <- (length_snoc_Z pre a). eapply chunk_middle. rewrite <- app_assoc. exact E. }
  simpl.
  set (a' := {| Vector.buffer := _ ++ _ |}). set (b' := {| Vector.buffer := [] |}).
  pose proof (vec_set_middle (x d) pre (b :: post) a a' E) as E2.
  rewrite <- (length_snoc_Z pre a').
  assert (Vector.buffer (Vector.set (Z.of_nat (length (pre ++ [a']))) b'
            (Vector.set (Z.of_nat (length pre)) a' (x d))) = (pre ++ [a']) ++ b' :: post) as E3.
  { eapply vec_set_middle. rewrite <- app_assoc. exact E2. }
  destruct (vec_erase_middle _ _ _ _ E3) as (x2 & -> & E4). simpl.
  exists (with_x x2 d), a'. split; [reflexivity|]. split; [reflexivity|].
  split; [|reflexivity].
  unfold chunks, with_x. simpl. rewrite E4, <- app_assoc. reflexivity.
Qed.

Lemma erase_chunk_middle d pre c post :
  chunks d = pre ++ c :: post ->
  exists x', Vector.erase (Z.of_nat (length pre)) (x d) = Ok x' /\
    chunks (with_x x' d) = pre ++ post.
Proof.
  intros E. destruct (vec_erase_middle (x d) pre post c E) as (x' & Hx & Hb).
  exists x'. split; [exact Hx|]. exact Hb.
Qed.

End Rebalance.

(** ** The three loops of [gc] *)

Section GcLoops.
Context {T : Type}.
Implicit Types (d : deque T) (c : Vector.t T) (cs pre mid post : list (Vector.t T)).


Lemma chunk_decompose d i :
  0 <= i < table_len d ->
  exists pre c post,
    chunks d = pre ++ c :: post /\ i = Z.of_nat (length pre) /\ chunk_at i d = Ok c.
Proof.
  intros H. destruct (chunk_in_range d i H) as (c & Hc & _).
  destruct (chunk_split_at d i c Hc) as (_ & E & Hl).
  eexists _, c, _. split; [exact E|]. split; [symmetry; exact Hl|exact Hc].
Qed.

Lemma chunk_decompose2 d i :
  0 <= i < table_len d - 1 ->
  exists pre a b post,
    chunks d = pre ++ a :: b :: post /\ i = Z.of_nat (length pre) /\
    chunk_at i d = Ok a /\ chunk_at (i + 1) d = Ok b.
Proof.
  intros H. destruct (chunk_decompose d i) as (pre & a & post & E & Hi & Ha); [lia|].
  destruct post as [|b post].
  { unfold table_len in H. rewrite E, length_app in H. simpl in H. lia. }
  exists pre, a, b, post. repeat split; try done.
  subst i. rewrite <- (length_snoc_Z pre a). eapply chunk_middle.
  rewrite <- app_assoc. exact E.
Qed.

(** One rule per loop: an invariant [I i d] on the loop counter and the
    state, kept by each kind of iteration, holds when the loop exits, and
    the loop exits within its budget. *)
Section clear_zero_rule.
Variable I : Z -> deque T -> Prop.
Hypothesis I_erase : forall i d x' pre c post,
  I i d -> chunks d = pre ++ c :: post -> i = Z.of_nat (length pre) ->
  post <> [] ->
  Vector.buffer c = [] -> chunks (with_x x' d) = pre ++ post ->
  I (i + 1) (with_x x' d).
Hypothesis I_skip : forall i d, I i d -> I (i + 1) d.

Lemma clear_zero_loop_rule : forall budget i d,
  0 <= i -> (0 < budget)%nat -> table_len d - 1 - i < Z.of_nat budget -> I i d ->
  exists d' i', clear_zero_loop budget i d = Ok d' /\ I i' d'.
Proof.
  induction budget as [|b IH]; intros i d Hi Hpos Hb HI.
  - lia.
  - simpl. change (Vector.size (x d)) with (table_len d).
    destruct (Z.ltb_spec i (table_len d - 1)) as [Hlt|Hge]; [|eauto].
    destruct (chunk_decompose d i) as (pre & c & post & E & Hip & ->); [lia|].
    run_bind.
    destruct (Z.eqb_spec (Vector.size c) 0) as [Hz|Hnz].
    + subst i. destruct (erase_chunk_middle d pre c post E) as (x' & -> & E').
      run_bind.
      assert (table_len (with_x x' d) = table_len d - 1) as Hl'.
      { unfold table_len. rewrite E', E, !length_app. simpl. lia. }
      apply IH; [lia|lia|lia|].
      eapply I_erase; eauto.
      { intros ->. unfold table_len in Hlt. rewrite E, length_app in Hlt. simpl in Hlt. lia. }
        unfold Vector.size, Vector._size in Hz. destruct (Vector.buffer c); [done|simpl in Hz; lia].
    + apply IH; [lia|lia|lia|]. apply I_skip, HI.
Qed.
End clear_zero_rule.

Section gc_split_rule.
Variable I : Z -> deque T -> Prop.
Hypothesis I_split : forall i d d' pre c a b post,
  I i d -> chunks d = pre ++ c :: post -> i = Z.of_nat (length pre) ->
  should_split (Vector.size c) d = true ->
  chunks d' = pre ++ a :: b :: post -> _size d' = _size d ->
  Vector.buffer a = take (Z.to_nat (Z.shiftr (Vector.size c) 1)) (Vector.buffer c) ->
  Vector.buffer b = drop (Z.to_nat (Z.shiftr (Vector.size c) 1)) (Vector.buffer c) ->
  I (i + 2) d'.
Hypothesis I_keep : forall i d pre c post,
  I i d -> chunks d = pre ++ c :: post -> i = Z.of_nat (length pre) ->
  should_split (Vector.size c) d = false ->
  I (i + 1) d.

Lemma gc_split_loop_rule : forall budget i d,
  0 <= i -> (0 < budget)%nat -> table_len d - i < Z.of_nat budget -> I i d ->
  exists d' i', gc_split_loop budget i d = Ok d' /\ I i' d' /\ table_len d' <= i'.
Proof.
  induction budget as [|b IH]; intros i d Hi Hpos Hb HI.
  - lia.
  - simpl. change (Vector.size (x d)) with (table_len d).
    destruct (Z.ltb_spec i (table_len d)) as [Hlt|Hge]; [|eauto].
    destruct (chunk_decompose d i) as (pre & c & post & E & Hip & ->); [lia|].
    run_bind.
    destruct (should_split (Vector.size c) d) eqn:Hs.
    + destruct (split_chunk_middle d pre c post E) as (d' & a' & b' & Hsp & Hsz & E' & Ha & Hb').
      rewrite <- Hip in Hsp. rewrite Hsp. run_bind.
      replace (i + 1 + 1) with (i + 2) by lia.
      assert (table_len d' = table_len d + 1) as Hl'.
      { unfold table_len. rewrite E', E, !length_app. simpl. lia. }
      apply IH; [lia|lia|lia|].
      eapply I_split; eauto.
    + apply IH; [lia|lia|lia|]. eapply I_keep; eauto.
Qed.
End gc_split_rule.

Section gc_merge_rule.
Variable I : Z -> deque T -> Prop.
Hypothesis I_merge : forall i d d' pre a b ab post,
  I i d -> chunks d = pre ++ a :: b :: post -> i = Z.of_nat (length pre) ->
  should_merge (Vector.size a + Vector.size b) d = true ->
  chunks d' = pre ++ ab :: post -> _size d' = _size d ->
  Vector.buffer ab = Vector.buffer a ++ Vector.buffer b ->
  I i d'.
Hypothesis I_keep : forall i d pre a b post,
  I i d -> chunks d = pre ++ a :: b :: post -> i = Z.of_nat (length pre) ->
  should_merge (Vector.size a + Vector.size b) d = false ->
  I (i + 1) d.

Lemma gc_merge_loop_rule : forall budget i d,
  0 <= i -> (0 < budget)%nat -> table_len d - 1 - i < Z.of_nat budget -> I i d ->
  exists d' i', gc_merge_loop budget i d = Ok d' /\ I i' d' /\ table_len d' - 1 <= i'.
Proof.
  induction budget as [|b IH]; intros i d Hi Hpos Hb HI.
  - lia.
  - simpl. change (Vector.size (x d)) with (table_len d).
    destruct (Z.ltb_spec i (table_len d - 1)) as [Hlt|Hge]; [|eauto].
    destruct (chunk_decompose2 d i) as (pre & a & b' & post & E & Hip & -> & ->); [lia|].
    run_bind.
    destruct (should_merge (Vector.size a + Vector.size b') d) eqn:Hs.
    + destruct (merge_chunk_middle d pre a b' post E) as (d' & ab & Hm & Hsz & E' & Hab).
      rewrite <- Hip in Hm. rewrite Hm. run_bind.
      replace (i - 1 + 1) with i by lia.
      assert (table_len d' = table_len d - 1) as Hl'.
      { unfold table_len. rewrite E', E, !length_app. simpl. lia. }
      apply IH; [lia|lia|lia|].
      eapply I_merge; eauto.
    + apply IH; [lia|lia|lia|]. eapply I_keep; eauto.
Qed.
End gc_merge_rule.

End GcLoops.

(** ** [gc] keeps the content *)

Section GcContent.
Context {T : Type}.
Implicit Types (d : deque T) (c : Vector.t T) (cs pre mid post : list (Vector.t T)).


Lemma same_refl d : same d d.
Proof. repeat split; auto. Qed.

Lemma same_trans d0 d1 d2 : same d0 d1 -> same d1 d2 -> same d0 d2.
Proof.
  intros (H1 & H2 & H3) (H4 & H5 & H6). repeat split; [congruence|congruence|auto].
Qed.

Lemma same_wf d0 d : same d0 d -> wf d0 -> wf d.
Proof.
  intros (Hs & Hl & Hne) [Hne0 Hsz]. split; [auto|].
  rewrite total_len_concat. fold (to_list d). rewrite Hl, Hs, Hsz.
  apply total_len_concat.
Qed.

Lemma same_drop_empty d d' pre c post :
  chunks d = pre ++ c :: post -> post <> [] -> Vector.buffer c = [] ->
  chunks d' = pre ++ post -> _size d' = _size d -> same d d'.
Proof.
  intros E Hp Hc E' Hs. split; [exact Hs|]. split.
  - unfold to_list. rewrite E, E', !map_app, !concat_app. simpl. rewrite Hc. reflexivity.
  - intros _. rewrite E'. destruct pre, post; done.
Qed.

Lemma same_split d d' pre c a b post (h : nat) :
  chunks d = pre ++ c :: post -> chunks d' = pre ++ a :: b :: post ->
  _size d' = _size d ->
  Vector.buffer a = take h (Vector.buffer c) ->
  Vector.buffer b = drop h (Vector.buffer c) ->
  same d d'.
Proof.
  intros E E' Hs Ha Hb. split; [exact Hs|]. split.
  - unfold to_list. rewrite E, E', !map_app, !concat_app. simpl.
    rewrite Ha, Hb, (app_assoc (take h _) (drop h _)), take_drop. reflexivity.
  - intros _. rewrite E'. destruct pre; done.
Qed.

Lemma same_merge d d' pre a b ab post :
  chunks d = pre ++ a :: b :: post -> chunks d' = pre ++ ab :: post ->
  _size d' = _size d ->
  Vector.buffer ab = Vector.buffer a ++ Vector.buffer b ->
  same d d'.
Proof.
  intros E E' Hs Hab. split; [exact Hs|]. split.
  - unfold to_list. rewrite E, E', !map_app, !concat_app. simpl.
    rewrite Hab, <- (app_assoc (Vector.buffer a)). reflexivity.
  - intros _. rewrite E'. destruct pre; done.
Qed.

Lemma split_chunk_same d pre c post :
  chunks d = pre ++ c :: post ->
  exists d', split_chunk (Z.of_nat (length pre)) d = Ok d' /\ same d d'.
Proof.
  intros E. destruct (split_chunk_middle d pre c post E) as (d' & a & b & H & Hs & E' & Ha & Hb).
  exists d'. split; [exact H|]. eapply same_split; eauto.
Qed.

Lemma merge_chunk_same d pre a b post :
  chunks d = pre ++ a :: b :: post ->
  exists d', merge_chunk (Z.of_nat (length pre)) d = Ok d' /\ same d d'.
Proof.
  intros E. destruct (merge_chunk_middle d pre a b post E) as (d' & ab & H & Hs & E' & Hab).
  exists d'. split; [exact H|]. eapply same_merge; eauto.
Qed.

Lemma clear_zero_same d : exists d', clear_zero d = Ok d' /\ same d d'.
Proof.
  unfold clear_zero. change (Vector.size (x d)) with (table_len d).
  destruct (Z.leb_spec (table_len d) 1) as [Hle|Hgt].
  { exists d. split; [reflexivity|apply same_refl]. }
  destruct (clear_zero_loop_rule (fun _ d' => same d d')) with
    (budget := length (chunks d)) (i := 0) (d := d) as (d' & i' & H & HI).
  - intros i d1 x' pre c post HI E Hi Hp Hc E'.
    eapply same_trans; [exact HI|]. eapply same_drop_empty; eauto.
  - auto.
  - lia.
  - unfold table_len in Hgt. lia.
  - unfold table_len. lia.
  - apply same_refl.
  - exists d'. auto.
Qed.

Lemma gc_split_loop_same d :
  exists d', gc_split_loop (S (length (chunks d))) 0 d = Ok d' /\ same d d'.
Proof.
  destruct (gc_split_loop_rule (fun _ d' => same d d')) with
    (budget := S (length (chunks d))) (i := 0) (d := d) as (d' & i' & H & HI & _).
  - intros i d1 d2 pre c a b post HI E Hi Hsp E' Hs Ha Hb.
    eapply same_trans; [exact HI|]. eapply same_split; eauto.
  - auto.
  - lia.
  - lia.
  - unfold table_len. lia.
  - apply same_refl.
  - exists d'. auto.
Qed.

Lemma gc_merge_loop_same d :
  exists d', gc_merge_loop (S (length (chunks d))) 0 d = Ok d' /\ same d d'.
Proof.
  destruct (gc_merge_loop_rule (fun _ d' => same d d')) with
    (budget := S (length (chunks d))) (i := 0) (d := d) as (d' & i' & H & HI & _).
  - intros i d1 d2 pre a b ab post HI E Hi Hm E' Hs Hab.
    eapply same_trans; [exact HI|]. eapply same_merge; eauto.
  - auto.
  - lia.
  - lia.
  - unfold table_len. lia.
  - apply same_refl.
  - exists d'. auto.
Qed.

(** [gc] returns on every state and keeps size and content. *)
Lemma gc_same d : exists d', gc d = Ok d' /\ same d d'.
Proof.
  unfold gc.
  destruct (clear_zero_same d) as (d1 & -> & H1). run_bind.
  destruct (gc_split_loop_same d1) as (d2 & H & H2). fold (chunks d1). rewrite H.
  run_bind.
  destruct (gc_merge_loop_same d2) as (d3 & H' & H3). fold (chunks d2). rewrite H'.
  exists d3. split; [reflexivity|]. eauto using same_trans.
Qed.

End GcContent.

(** ** Access and the two mutators *)

Section Mutators.
Context {T : Type}.
Implicit Types (d : deque T) (c : Vector.t T) (cs pre mid post : list (Vector.t T)).

Lemma throw_if_out_of_bound_in d pos b :
  0 <= pos < size d -> throw_if_out_of_bound pos b d = Ok tt.
Proof.
  intros H. unfold throw_if_out_of_bound.
  destruct (Z.eqb_spec pos (size d)); [lia|]. rewrite andb_false_r.
  destruct (Z.ltb_spec pos 0); [lia|]. destruct (Z.geb_spec pos (size d)); [lia|].
  reflexivity.
Qed.

Lemma throw_if_out_of_bound_end d pos :
  0 <= pos <= size d -> throw_if_out_of_bound pos true d = Ok tt.
Proof.
  intros H. unfold throw_if_out_of_bound.
  destruct (Z.eqb_spec pos (size d)); [reflexivity|]. simpl.
  destruct (Z.ltb_spec pos 0); [lia|]. destruct (Z.geb_spec pos (size d)); [lia|].
  reflexivity.
Qed.

Lemma throw_if_out_of_bound_out d pos :
  ~ (0 <= pos < size d) -> throw_if_out_of_bound pos false d = Throw index_out_of_bound.
Proof.
  intros H. unfold throw_if_out_of_bound. simpl.
  destruct (Z.ltb_spec pos 0); [reflexivity|]. destruct (Z.geb_spec pos (size d)); [reflexivity|lia].
Qed.

Lemma access_ok d pos :
  wf d -> 0 <= pos < size d ->
  exists v, to_list d !! Z.to_nat pos = Some v /\ access pos d = Ok v.
Proof.
  intros Hwf Hp.
  destruct (find_at_spec d pos Hwf Hp) as (pre & c & post & off & E & Hf & Ho & Hs).
  destruct (slot_in_range (Vector.buffer c) off) as (v & Hv & Hl); [exact Ho|].
  exists v. split.
  - rewrite (to_list_middle d pre c post E).
    rewrite total_len_concat in Hs.
    rewrite lookup_app_r by lia. rewrite lookup_app_l.
    + rewrite <- Hl. f_equal. lia.
    + unfold Vector._size in Ho. lia.
  - unfold access, access_ref. rewrite (throw_if_out_of_bound_in d pos false Hp).
    run_bind. rewrite Hf. run_bind.
    rewrite (chunk_middle d pre c post E). run_bind. exact Hv.
Qed.

Lemma access_out d pos :
  ~ (0 <= pos < size d) -> access pos d = Throw index_out_of_bound.
Proof.
  intros H. unfold access, access_ref. rewrite (throw_if_out_of_bound_out d pos H).
  reflexivity.
Qed.

Lemma insert_middle_list {A} (l1 b l2 : list A) (k : nat) (v : A) :
  (k <= length b)%nat ->
  take (length l1 + k) (l1 ++ b ++ l2) ++ v :: drop (length l1 + k) (l1 ++ b ++ l2)
  = l1 ++ (take k b ++ v :: drop k b) ++ l2.
Proof.
  intros Hk. rewrite take_app_add, drop_app_add.
  rewrite take_app_le, drop_app_le by lia.
  rewrite <- !app_assoc. reflexivity.
Qed.

Lemma delete_middle_list {A} (l1 b l2 : list A) (k : nat) :
  (k < length b)%nat ->
  take (length l1 + k) (l1 ++ b ++ l2) ++ drop (S (length l1 + k)) (l1 ++ b ++ l2)
  = l1 ++ (take k b ++ drop (S k) b) ++ l2.
Proof.
  intros Hk. rewrite take_app_add.
  replace (S (length l1 + k)) with (length l1 + S k)%nat by lia.
  rewrite drop_app_add.
  rewrite take_app_le, drop_app_le by lia.
  rewrite <- !app_assoc. reflexivity.
Qed.

(** [insert_at] on an index of [[0, N]] returns normally with the element
    inserted at that index, whatever [rand()] returns. *)
Lemma insert_at_spec d r pos v :
  wf d -> 0 <= pos <= size d ->
  exists d', insert_at r pos v d = Ok (pos, d') /\
    _size d' = _size d + 1 /\
    to_list d' = take (Z.to_nat pos) (to_list d) ++ v :: drop (Z.to_nat pos) (to_list d) /\
    chunks d' <> [].
Proof.
  intros Hwf Hp.
  destruct (find_at_allow_end_spec d pos Hwf Hp) as (pre & c & post & off & E & Hf & Ho & Hs).
  unfold insert_at. rewrite (throw_if_out_of_bound_end d pos Hp). run_bind.
  rewrite Hf. run_bind.
  destruct (vec_insert_ok c off v Ho) as (c' & Hc' & Hb').
  destruct (vec_update_middle (x d) pre post c c' (Vector.insert off v) E Hc') as (x' & -> & E1).
  run_bind.
  set (d1 := {| _size := _size d + 1; x := x' |}).
  assert (chunks d1 = pre ++ c' :: post) as Ed1 by exact E1.
  assert (to_list d1 = take (Z.to_nat pos) (to_list d) ++ v :: drop (Z.to_nat pos) (to_list d)) as Hl1.
  { rewrite (to_list_middle d pre c post E), (to_list_middle d1 pre c' post Ed1), Hb'.
    rewrite total_len_concat in Hs.
    replace (Z.to_nat pos) with (length (concat (map Vector.buffer pre)) + Z.to_nat off)%nat by lia.
    rewrite insert_middle_list; [reflexivity|]. unfold Vector._size in Ho. lia. }
  rewrite (chunk_middle d1 pre c' post Ed1). run_bind.
  assert (exists d2, (if should_split (Vector.size c') d1
                      then split_chunk (Z.of_nat (length pre)) d1 else Ok d1) = Ok d2
                     /\ same d1 d2) as (d2 & -> & H2).
  { destruct (should_split _ _).
    - apply (split_chunk_same d1 pre c' post Ed1).
    - exists d1. split; [reflexivity|apply same_refl]. }
  run_bind.
  assert (exists d3, (if r <? INSERT_GC_THRESHOLD then gc d2 else Ok d2) = Ok d3
                     /\ same d2 d3) as (d3 & -> & H3).
  { destruct (_ <? _).
    - apply gc_same.
    - exists d2. split; [reflexivity|apply same_refl]. }
  run_bind. exists d3. split; [reflexivity|].
  destruct (same_trans _ _ _ H2 H3) as (Hs3 & Hl3 & Hne3).
  split; [rewrite Hs3; reflexivity|]. split; [rewrite Hl3; exact Hl1|].
  apply Hne3. rewrite Ed1. destruct pre; done.
Qed.

(** [remove_at] on an index of [[0, N)] returns normally with the element
    at that index removed, whatever [rand()] returns. *)
Lemma remove_at_spec d r pos :
  wf d -> 0 <= pos < size d ->
  exists d', remove_at r pos d = Ok (pos, d') /\
    _size d' = _size d - 1 /\
    to_list d' = take (Z.to_nat pos) (to_list d) ++ drop (S (Z.to_nat pos)) (to_list d) /\
    chunks d' <> [].
Proof.
  intros Hwf Hp.
  destruct (find_at_spec d pos Hwf Hp) as (pre & c & post & off & E & Hf & Ho & Hs).
  unfold remove_at. rewrite (throw_if_out_of_bound_in d pos false Hp). run_bind.
  rewrite Hf. run_bind.
  destruct (vec_erase_ok c off Ho) as (c' & Hc' & Hb').
  destruct (vec_update_middle (x d) pre post c c' (Vector.erase off) E Hc') as (x' & -> & E1).
  run_bind.
  set (d1 := {| _size := _size d - 1; x := x' |}).
  assert (chunks d1 = pre ++ c' :: post) as Ed1 by exact E1.
  assert (to_list d1 = take (Z.to_nat pos) (to_list d) ++ drop (S (Z.to_nat pos)) (to_list d)) as Hl1.
  { rewrite (to_list_middle d pre c post E), (to_list_middle d1 pre c' post Ed1), Hb'.
    rewrite total_len_concat in Hs.
    replace (Z.to_nat pos) with (length (concat (map Vector.buffer pre)) + Z.to_nat off)%nat by lia.
    rewrite delete_middle_list; [reflexivity|]. unfold Vector._size in Ho. lia. }
  change (Vector.size (x d1)) with (table_len d1).
  assert (table_len d1 = Z.of_nat (length pre) + 1 + Z.of_nat (length post)) as Hlen.
  { unfold table_len. rewrite Ed1, length_app. simpl. lia. }
  match goal with |- context [mbind _ ?m] =>
    assert (exists d2, m = Ok d2 /\ same d1 d2) as (d2 & -> & H2) end.
  { destruct (Z.eqb_spec (Z.of_nat (length pre)) (table_len d1 - 1)) as [Hlast|Hmid]; simpl.
    - assert (post = []) as -> by (destruct post; [done|simpl in Hlen; lia]).
      destruct (Z.gtb_spec (table_len d1) 1) as [Hgt|Hle]; [|eexists; split; [reflexivity|apply same_refl]].
      rewrite (chunk_middle d1 pre c' [] Ed1). run_bind.
      destruct (Z.eqb_spec (Vector.size c') 0) as [Hz|Hnz]; [|eexists; split; [reflexivity|apply same_refl]].
      destruct (erase_chunk_middle d1 pre c' [] Ed1) as (x2 & Hx2 & E2).
      change (x d1) with x' in Hx2. change (x d1) with x'. rewrite Hx2.
      run_bind. eexists. split; [reflexivity|].
      split; [reflexivity|]. split.
      + unfold to_list. rewrite E2, Ed1, !map_app, !concat_app. simpl.
        unfold Vector.size, Vector._size in Hz.
        destruct (Vector.buffer c'); [reflexivity|simpl in Hz; lia].
      + intros _. rewrite E2, app_nil_r. intros ->. simpl in *. lia.
    - destruct post as [|b post]; [simpl in Hlen; lia|].
      rewrite (chunk_middle d1 pre c' (b :: post) Ed1). run_bind.
      assert (chunk_at (Z.of_nat (length pre) + 1) d1 = Ok b) as ->.
      { rewrite <- (length_snoc_Z pre c'). eapply chunk_middle. rewrite <- app_assoc. exact Ed1. }
      run_bind.
      destruct (should_merge _ _).
      + apply (merge_chunk_same d1 pre c' b post Ed1).
      + eexists; split; [reflexivity|apply same_refl]. }
  run_bind.
  assert (exists d3, (if r <? REMOVE_GC_THRESHOLD then gc d2 else Ok d2) = Ok d3
                     /\ same d2 d3) as (d3 & -> & H3).
  { destruct (_ <? _).
    - apply gc_same.
    - exists d2. split; [reflexivity|apply same_refl]. }
  run_bind. exists d3. split; [reflexivity|].
  destruct (same_trans _ _ _ H2 H3) as (Hs3 & Hl3 & Hne3).
  split; [rewrite Hs3; reflexivity|]. split; [rewrite Hl3; exact Hl1|].
  apply Hne3. rewrite Ed1. destruct pre; done.
Qed.

End Mutators.

(** ** What a [gc] pass establishes *)

Section GcBalance.
Context {T : Type}.
Implicit Types (d : deque T) (a b ab c : Vector.t T) (cs pre mid post : list (Vector.t T)).

Lemma wrap_small z : - 2 ^ 31 <= z < 2 ^ 31 -> wrap z = z.
Proof. intros H. unfold wrap. rewrite Z.mod_small; lia. Qed.

(** [should_split] is the split predicate as long as its two products
    stay inside [int]. *)
Lemma should_split_exact d total :
  0 <= total < 46341 -> 0 <= size d < 2 ^ 28 ->
  should_split total d = true <-> split_pred (size d) total.
Proof.
  intros Ht Hn. unfold should_split, split_pred. fold (size d).
  rewrite !wrap_small by nia.
  rewrite andb_true_iff, Z.geb_le, Z.gtb_gt. lia.
Qed.

(** [should_merge] is the merge predicate as long as its product stays
    inside [int], that is for a total below 5793. *)
Lemma should_merge_exact d total :
  0 <= total < 5793 ->
  should_merge total d = true <-> total * total * 64 <= size d.
Proof.
  intros Ht. unfold should_merge. fold (size d).
  rewrite (wrap_small (total * total)) by nia.
  rewrite wrap_small by nia.
  apply Z.leb_le.
Qed.

(** From 5793 on the true product is [2^31] or more and no [int] size
    reaches it: a pair that [should_merge] declines does not satisfy the
    merge predicate, whatever the product wrapped to. *)
Lemma should_merge_declined d total :
  0 <= total -> size d < 2 ^ 31 ->
  should_merge total d = false -> ~ total * total * 64 <= size d.
Proof.
  intros Ht Hn Hm Hp.
  assert (total < 5793) as Hs by nia.
  assert (should_merge total d = true) as Hm'; [|congruence].
  apply should_merge_exact; [lia|exact Hp].
Qed.

(** Below [2^20] elements a chunk that is not due for a split has fewer
    than 2897 elements. *)
Lemma not_due_short n s :
  0 <= s -> n < 2 ^ 20 -> ~ split_pred n s -> s < 2897.
Proof.
  intros Hs Hn Hd. unfold split_pred in Hd. change (2 ^ 20) with 1048576 in Hn.
  destruct (Z.lt_ge_cases s 2897); [lia|]. exfalso. apply Hd.
  assert (2897 * 2897 <= s * s) by (apply Z.mul_le_mono_nonneg; lia). lia.
Qed.

Lemma chunk_size_le_total pre c post :
  Vector.size c <= total_len (pre ++ c :: post).
Proof.
  rewrite total_len_app, total_len_cons.
  pose proof (total_len_nonneg pre). pose proof (total_len_nonneg post).
  unfold Vector.size. lia.
Qed.

Lemma pair_size_le_total pre a b post :
  Vector.size a + Vector.size b <= total_len (pre ++ a :: b :: post).
Proof.
  rewrite total_len_app, !total_len_cons.
  pose proof (total_len_nonneg pre). pose proof (total_len_nonneg post).
  unfold Vector.size. lia.
Qed.

Lemma size_take_half c a :
  Vector.buffer a = take (Z.to_nat (Z.shiftr (Vector.size c) 1)) (Vector.buffer c) ->
  Vector.size a = Vector.size c / 2.
Proof.
  intros E. unfold Vector.size, Vector._size. rewrite E, length_take.
  rewrite Z.shiftr_div_pow2 by lia. change (2 ^ 1) with 2. unfold Vector.size, Vector._size.
  pose proof (Z.div_mod (Z.of_nat (length (Vector.buffer c))) 2).
  pose proof (Z.mod_pos_bound (Z.of_nat (length (Vector.buffer c))) 2).
  lia.
Qed.

Lemma size_drop_half c b :
  Vector.buffer b = drop (Z.to_nat (Z.shiftr (Vector.size c) 1)) (Vector.buffer c) ->
  Vector.size b = Vector.size c - Vector.size c / 2.
Proof.
  intros E. unfold Vector.size, Vector._size. rewrite E, length_drop.
  rewrite Z.shiftr_div_pow2 by lia. change (2 ^ 1) with 2. unfold Vector.size, Vector._size.
  pose proof (Z.div_mod (Z.of_nat (length (Vector.buffer c))) 2).
  pose proof (Z.mod_pos_bound (Z.of_nat (length (Vector.buffer c))) 2).
  lia.
Qed.

Lemma size_app a b ab :
  Vector.buffer ab = Vector.buffer a ++ Vector.buffer b ->
  Vector.size ab = Vector.size a + Vector.size b.
Proof. intros E. unfold Vector.size, Vector._size. rewrite E, length_app. lia. Qed.


Lemma halves_not_due n s :
  0 <= s -> (s + 1) * (s + 1) <= 32 * n ->
  ~ split_pred n (s / 2) /\ ~ split_pred n (s - s / 2).
Proof.
  intros Hs Hq. unfold split_pred.
  assert (2 * (s / 2) <= s <= 2 * (s / 2) + 1) as Hh
    by (pose proof (Z.div_mod s 2); pose proof (Z.mod_pos_bound s 2); lia).
  split; intros [_ Hgt]; nia.
Qed.

Section pass.
Variable d0 : deque T.
Hypothesis Hwf : wf d0.
Hypothesis Hint : size d0 < 2 ^ 31.
Variable fits : Prop.
Hypothesis Hroom : fits -> size d0 < 2 ^ 20.

Lemma same_total d : same d0 d -> total_len (chunks d) = size d0 /\ size d = size d0.
Proof.
  intros Hs. destruct (same_wf d0 d Hs Hwf) as [_ H]. destruct Hs as (Hs & _).
  unfold size. split; congruence.
Qed.

Lemma clear_zero_fits :
  (fits -> Forall (halves_fit (size d0)) (chunks d0)) ->
  exists d1, clear_zero d0 = Ok d1 /\ same d0 d1 /\
    (fits -> Forall (halves_fit (size d0)) (chunks d1)).
Proof.
  intros HQ. unfold clear_zero. change (Vector.size (x d0)) with (table_len d0).
  destruct (Z.leb_spec (table_len d0) 1) as [Hle|Hgt].
  { exists d0. split; [reflexivity|]. split; [apply same_refl|exact HQ]. }
  destruct (clear_zero_loop_rule
              (fun _ d => same d0 d /\ (fits -> Forall (halves_fit (size d0)) (chunks d))))
    with (budget := length (chunks d0)) (i := 0) (d := d0) as (d' & i' & H & HI).
  - intros i d1 x' pre c post [HI HF] E Hi Hp Hc E'. split.
    + eapply same_trans; [exact HI|]. eapply same_drop_empty; eauto.
    + intros Hf. specialize (HF Hf). rewrite E in HF. rewrite E'.
      apply Forall_app in HF as [H1 H2]. apply Forall_cons in H2 as [_ H2].
      apply Forall_app. auto.
  - auto.
  - lia.
  - unfold table_len in Hgt. lia.
  - unfold table_len. lia.
  - split; [apply same_refl|exact HQ].
  - exists d'. destruct HI. auto.
Qed.

Lemma gc_split_loop_fits d1 :
  same d0 d1 -> (fits -> Forall (halves_fit (size d0)) (chunks d1)) ->
  exists d2, gc_split_loop (S (length (chunks d1))) 0 d1 = Ok d2 /\ same d0 d2 /\
    (fits -> Forall (fun c => ~ split_pred (size d0) (Vector.size c)) (chunks d2)).
Proof.
  intros Hs1 HQ.
  destruct (gc_split_loop_rule
              (fun i d => same d0 d /\
                 (fits -> Forall (fun c => ~ split_pred (size d0) (Vector.size c))
                            (take (Z.to_nat i) (chunks d)) /\
                          Forall (halves_fit (size d0)) (drop (Z.to_nat i) (chunks d)))))
    with (budget := S (length (chunks d1))) (i := 0) (d := d1) as (d' & i' & H & [HI HF] & Hex).
  - intros i d d' pre c a b post [HI HF] E Hi Hsp E' Hsz Ha Hb. split.
    + eapply same_trans; [exact HI|]. eapply same_split; eauto.
    + intros Hf. destruct (HF Hf) as [H1 H2].
      rewrite E in H1, H2. rewrite E'.
      replace (Z.to_nat i) with (length pre) in H1, H2 by lia.
      rewrite take_app_length in H1. rewrite drop_app_length in H2.
      apply Forall_cons in H2 as [Hc H2].
      replace (Z.to_nat (i + 2)) with (length (pre ++ [a; b])) by (rewrite length_app; simpl; lia).
      change (pre ++ a :: b :: post) with (pre ++ [a; b] ++ post).
      rewrite app_assoc, take_app_length, drop_app_length. split; [|exact H2].
      apply Forall_app. split; [exact H1|].
      destruct (halves_not_due (size d0) (Vector.size c)) as [Hh1 Hh2];
        [apply size_nonneg|exact Hc|].
      rewrite <- (size_take_half c a Ha) in Hh1. rewrite <- (size_drop_half c b Hb) in Hh2.
      repeat constructor; assumption.
  - intros i d pre c post [HI HF] E Hi Hsp. split; [exact HI|].
    intros Hf. destruct (HF Hf) as [H1 H2].
    rewrite E in H1, H2 |- *.
    replace (Z.to_nat i) with (length pre) in H1, H2 by lia.
    rewrite take_app_length in H1. rewrite drop_app_length in H2.
    apply Forall_cons in H2 as [Hc H2].
    replace (Z.to_nat (i + 1)) with (length (pre ++ [c])) by (rewrite length_app; simpl; lia).
    rewrite (cons_middle c pre post), app_assoc, take_app_length, drop_app_length.
    split; [|exact H2]. apply Forall_app. split; [exact H1|].
    constructor; [|constructor].
    destruct (same_total d HI) as [Ht Hn]. pose proof (Hroom Hf) as Hr.
    pose proof (wf_size d0 Hwf) as Hn0. pose proof (size_nonneg c) as Hc0.
    intros Hsplit. rewrite <- Hn in Hsplit.
    apply (should_split_exact d) in Hsplit; [congruence| |lia].
    unfold halves_fit in Hc. change (2 ^ 20) with 1048576 in Hr.
    unfold Vector.size in *. split; [lia|]. destruct (Z.lt_ge_cases (Vector._size c) 5793); [lia|].
    assert (5794 * 5794 <= (Vector._size c + 1) * (Vector._size c + 1))
      by (apply Z.mul_le_mono_nonneg; lia).
    lia.
  - lia.
  - lia.
  - unfold table_len. lia.
  - split; [exact Hs1|]. intros Hf. simpl. rewrite drop_0. split; [constructor|auto].
  - exists d'. split; [exact H|]. split; [exact HI|].
    intros Hf. destruct (HF Hf) as [H1 _].
    rewrite take_ge in H1; [exact H1|]. unfold table_len in Hex. lia.
Qed.

Lemma gc_merge_loop_fits d2 :
  same d0 d2 ->
  (fits -> Forall (fun c => ~ split_pred (size d0) (Vector.size c)) (chunks d2)) ->
  exists d3, gc_merge_loop (S (length (chunks d2))) 0 d2 = Ok d3 /\ same d0 d3 /\
    (fits -> Forall (fun c => ~ split_pred (size d0) (Vector.size c)) (chunks d3)) /\
    (forall (j : nat) a b, chunks d3 !! j = Some a -> chunks d3 !! S j = Some b ->
       ~ merge_pred (size d0) (Vector.size a) (Vector.size b)).
Proof.
  intros Hs2 HQ.
  destruct (gc_merge_loop_rule
              (fun i d => same d0 d /\
                 (fits -> Forall (fun c => ~ split_pred (size d0) (Vector.size c)) (chunks d)) /\
                 (forall (j : nat) a b, Z.of_nat j < i ->
                    chunks d !! j = Some a -> chunks d !! S j = Some b ->
                    ~ merge_pred (size d0) (Vector.size a) (Vector.size b))))
    with (budget := S (length (chunks d2))) (i := 0) (d := d2)
    as (d' & i' & H & (HI & HF & HP) & Hex).
  - intros i d d' pre a b ab post (HI & HF & HP) E Hi Hm E' Hsz Hab.
    destruct (same_total d HI) as [Ht Hn].
    pose proof (size_nonneg a) as Ha0. pose proof (size_nonneg b) as Hb0.
    pose proof (size_app a b ab Hab) as Hsab.
    split; [|split].
    + eapply same_trans; [exact HI|]. eapply same_merge; eauto.
    + intros Hf. specialize (HF Hf). pose proof (Hroom Hf) as Hr.
      rewrite E in HF. rewrite E'.
      apply Forall_app in HF as [H1 H2]. apply Forall_cons in H2 as [Hda H2].
      apply Forall_cons in H2 as [Hdb H2].
      apply Forall_app. split; [exact H1|]. constructor; [|exact H2].
      pose proof (not_due_short _ _ Ha0 Hr Hda). pose proof (not_due_short _ _ Hb0 Hr Hdb).
      unfold Vector.size in *.
      apply (should_merge_exact d) in Hm; [|lia]. rewrite Hn in Hm.
      unfold split_pred. rewrite Hsab. intros [_ Hgt]. nia.
    + intros j a' b'' Hj Ha' Hb''. rewrite E' in Ha', Hb''.
      assert (j < length pre)%nat as Hjl by lia.
      rewrite lookup_app_l in Ha' by lia.
      destruct (decide (S j < length pre)%nat) as [Hin|Hout].
      * rewrite lookup_app_l in Hb'' by lia.
        apply (HP j a' b''); [lia| |].
        -- rewrite E, lookup_app_l by lia. exact Ha'.
        -- rewrite E, lookup_app_l by lia. exact Hb''.
      * assert (S j = length pre) as Hj' by lia.
        rewrite Hj', list_lookup_middle in Hb'' by reflexivity.
        injection Hb'' as <-.
        assert (~ merge_pred (size d0) (Vector.size a') (Vector.size a)) as Hold.
        { apply (HP j a' a); [lia| |].
          - rewrite E, lookup_app_l by lia. exact Ha'.
          - rewrite E, Hj', list_lookup_middle by reflexivity. reflexivity. }
        unfold merge_pred in *. rewrite Hsab.
        pose proof (size_nonneg a'). pose proof (size_nonneg a). pose proof (size_nonneg b).
        unfold Vector.size in *. nia.
  - intros i d pre a b post (HI & HF & HP) E Hi Hm.
    destruct (same_total d HI) as [Ht Hn].
    split; [exact HI|]. split; [exact HF|].
    intros j a' b' Hj Ha' Hb'.
    destruct (decide (Z.of_nat j < i)) as [Hlt|Hge]; [eauto|].
    assert (j = length pre) as -> by lia.
    rewrite E, list_lookup_middle in Ha' by reflexivity. injection Ha' as <-.
    rewrite E in Hb'. rewrite (cons_middle a pre), app_assoc in Hb'.
    rewrite (list_lookup_middle _ _ b (S (length pre))) in Hb'
      by (rewrite length_app; simpl; lia).
    injection Hb' as <-.
    unfold merge_pred. rewrite <- Hn.
    pose proof (size_nonneg a). pose proof (size_nonneg b).
    apply should_merge_declined; [unfold Vector.size; lia|lia|exact Hm].
  - lia.
  - lia.
  - unfold table_len. lia.
  - split; [exact Hs2|]. split; [exact HQ|]. intros j a b Hj. lia.
  - exists d'. split; [exact H|]. split; [exact HI|]. split; [exact HF|].
    intros j a b Ha Hb. apply (HP j a b); [|exact Ha|exact Hb].
    apply lookup_lt_Some in Hb. unfold table_len in Hex. lia.
Qed.

(** A whole pass, from a well-formed state whose size is an [int]. *)
Lemma gc_pass :
  (fits -> Forall (halves_fit (size d0)) (chunks d0)) ->
  exists d', gc d0 = Ok d' /\ same d0 d' /\ no_merge_due d' /\ (fits -> no_split_due d').
Proof.
  intros HQ. unfold gc.
  destruct (clear_zero_fits HQ) as (d1 & -> & Hs1 & HQ1). run_bind.
  destruct (gc_split_loop_fits d1 Hs1 HQ1) as (d2 & H2 & Hs2 & HQ2).
  fold (chunks d1). rewrite H2. run_bind.
  destruct (gc_merge_loop_fits d2 Hs2 HQ2) as (d3 & H3 & Hs3 & HQ3 & HP3).
  fold (chunks d2). rewrite H3.
  exists d3. split; [reflexivity|]. split; [exact Hs3|].
  destruct (same_total d3 Hs3) as [_ Hn3].
  unfold no_merge_due, no_split_due. rewrite Hn3. auto.
Qed.

End pass.
End GcBalance.


Section Invariant.
Context {T : Type}.
Implicit Types (d : deque T) (this : ptr) (c : Vector.t T).

Lemma wf_intro d :
  chunks d <> [] -> _size d = Z.of_nat (length (to_list d)) -> wf d.
Proof.
  intros Hne Hs. split; [exact Hne|]. rewrite Hs. symmetry. apply total_len_concat.
Qed.

Lemma wf_size_nonneg d : wf d -> 0 <= size d.
Proof. intros H. rewrite (wf_size d H). lia. Qed.

Lemma construct_wf d : construct = Ok d -> wf d /\ size d = 0 /\ to_list d = [] /\ chunk_sizes d = [0].
Proof. intros [= <-]. repeat split; done. Qed.

Lemma throw_if_out_of_bound_past d pos :
  0 <= size d -> ~ (0 <= pos <= size d) ->
  throw_if_out_of_bound pos true d = Throw index_out_of_bound.
Proof.
  intros Hn H. unfold throw_if_out_of_bound.
  destruct (Z.eqb_spec pos (size d)); [lia|]. simpl.
  destruct (Z.ltb_spec pos 0); [reflexivity|].
  destruct (Z.geb_spec pos (size d)); [reflexivity|lia].
Qed.

Lemma insert_at_out d r pos v :
  0 <= size d -> ~ (0 <= pos <= size d) ->
  insert_at r pos v d = Throw index_out_of_bound.
Proof.
  intros Hn H. unfold insert_at. rewrite (throw_if_out_of_bound_past d pos Hn H). reflexivity.
Qed.

Lemma remove_at_out d r pos :
  ~ (0 <= pos < size d) -> remove_at r pos d = Throw index_out_of_bound.
Proof.
  intros H. unfold remove_at. rewrite (throw_if_out_of_bound_out d pos H). reflexivity.
Qed.

Lemma length_inserted {A} (l : list A) (p : nat) v :
  (p <= length l)%nat -> length (take p l ++ v :: drop p l) = S (length l).
Proof. intros H. rewrite length_app, length_take. simpl. rewrite length_drop. lia. Qed.

Lemma length_deleted {A} (l : list A) (p : nat) :
  (p < length l)%nat -> S (length (take p l ++ drop (S p) l)) = length l.
Proof. intros H. rewrite length_app, length_take, length_drop. lia. Qed.

(** A successful [insert_at]: the index was in [0, N] and the element
    sits at that index afterwards. *)
Lemma insert_at_Ok d r pos v p d' :
  wf d -> insert_at r pos v d = Ok (p, d') ->
  0 <= pos <= size d /\ p = pos /\ wf d' /\ size d' = size d + 1 /\
  to_list d' = take (Z.to_nat pos) (to_list d) ++ v :: drop (Z.to_nat pos) (to_list d).
Proof.
  intros Hwf H. pose proof (wf_size_nonneg d Hwf) as Hn.
  destruct (decide (0 <= pos <= size d)) as [Hp|Hp].
  - destruct (insert_at_spec d r pos v Hwf Hp) as (d1 & H1 & Hs & Hl & Hne).
    rewrite H1 in H. injection H as <- <-.
    repeat split; try lia; try done.
    + pose proof (wf_size d Hwf) as Hz.
      apply wf_intro; [exact Hne|]. rewrite Hs, Hl, length_inserted; unfold size in *; lia.
  - rewrite (insert_at_out d r pos v Hn Hp) in H. discriminate.
Qed.

Lemma remove_at_Ok d r pos p d' :
  wf d -> remove_at r pos d = Ok (p, d') ->
  0 <= pos < size d /\ p = pos /\ wf d' /\ size d' = size d - 1 /\
  to_list d' = take (Z.to_nat pos) (to_list d) ++ drop (S (Z.to_nat pos)) (to_list d).
Proof.
  intros Hwf H.
  destruct (decide (0 <= pos < size d)) as [Hp|Hp].
  - destruct (remove_at_spec d r pos Hwf Hp) as (d1 & H1 & Hs & Hl & Hne).
    rewrite H1 in H. injection H as <- <-.
    repeat split; try lia; try done.
    + pose proof (wf_size d Hwf) as Hz.
      apply wf_intro; [exact Hne|]. rewrite Hs, Hl.
      pose proof (length_deleted (to_list d) (Z.to_nat pos)) as Hd.
      unfold size in *. lia.
  - rewrite (remove_at_out d r pos Hp) in H. discriminate.
Qed.

Lemma clear_fresh d : exists d', clear d = Ok d' /\ wf d' /\ size d' = 0 /\ chunk_sizes d' = [0].
Proof.
  unfold clear, init.
  destruct (vec_insert_middle (x (with_x (Vector.clear (x d)) d)) [] []
              (Vector.make (U:=T) Vector.min_chunk_size)) as (x' & Hx & Hb); [reflexivity|].
  change (Z.of_nat (length [])) with 0 in Hx. rewrite Hx. run_bind.
  eexists. split; [reflexivity|].
  unfold wf, chunk_sizes, chunks, size. cbn [x _size]. rewrite Hb. repeat split; done.
Qed.


(** Every successful public call keeps the representation invariant and
    moves [size()] by its [delta]. *)
Lemma step_wf this o d d' :
  wf d -> step this o d = Ok d' ->
  wf d' /\ size d' = match o with op_clear => 0 | _ => size d + delta o end.
Proof.
  intros Hwf H. destruct o as [r v|r v|r|r|r it v|r it| |]; simpl in H; unfold delta; simpl.
  - unfold push_back in H. destruct (insert_at r (size d) v d) as [[p d1]| |] eqn:E; try discriminate.
    injection H as ->. apply insert_at_Ok in E as (_ & _ & ? & ? & _); [|exact Hwf]. split; [done|lia].
  - unfold push_front in H. destruct (insert_at r 0 v d) as [[p d1]| |] eqn:E; try discriminate.
    injection H as ->. apply insert_at_Ok in E as (_ & _ & ? & ? & _); [|exact Hwf]. split; [done|lia].
  - unfold pop_back in H. destruct (remove_at r (size d - 1) d) as [[p d1]| |] eqn:E; try discriminate.
    injection H as ->. apply remove_at_Ok in E as (_ & _ & ? & ? & _); [|exact Hwf]. split; [done|lia].
  - unfold pop_front in H. destruct (remove_at r 0 d) as [[p d1]| |] eqn:E; try discriminate.
    injection H as ->. apply remove_at_Ok in E as (_ & _ & ? & ? & _); [|exact Hwf]. split; [done|lia].
  - unfold insert in H. destruct (base_iterator.check_owns _ _); try discriminate.
    cbn [mbind result_bind] in H.
    destruct (insert_at r (base_iterator.pos it) v d) as [[p d1]| |] eqn:E; try discriminate.
    injection H as ->. apply insert_at_Ok in E as (_ & _ & ? & ? & _); [|exact Hwf]. split; [done|lia].
  - unfold erase in H. destruct (base_iterator.check_owns _ _); try discriminate.
    cbn [mbind result_bind] in H.
    destruct (remove_at r (base_iterator.pos it) d) as [[p d1]| |] eqn:E; try discriminate.
    injection H as ->. apply remove_at_Ok in E as (_ & _ & ? & ? & _); [|exact Hwf]. split; [done|lia].
  - destruct (clear_fresh d) as (d1 & H1 & Hw & Hs & _). rewrite H1 in H. injection H as <-. done.
  - destruct (gc_same d) as (d1 & H1 & Hsame). rewrite H1 in H. injection H as <-.
    split; [eapply same_wf; eauto|]. destruct Hsame as (Hs & _). unfold size. lia.
Qed.

Lemma count_cons (f : @op T -> bool) o h :
  count f (o :: h) = (if f o then 1 else 0) + count f h.
Proof.
  unfold count. rewrite filter_cons. destruct (f o); simpl.
  - destruct (decide (true = true)); [|done]. simpl. lia.
  - destruct (decide (false = true)); [done|]. lia.
Qed.

Lemma history_wf_count this h d :
  history this h d ->
  wf d /\ size d = count is_push (since_clear h) - count is_pop (since_clear h).
Proof.
  induction 1 as [d Hc|h o d d' Hh [IHw IHs] Hstep].
  - apply construct_wf in Hc as (? & ? & _). split; [done|]. simpl. unfold count. simpl. lia.
  - destruct (step_wf this o d d' IHw Hstep) as [Hw Hs]. split; [exact Hw|].
    rewrite Hs. destruct o; simpl since_clear; rewrite ?count_cons; unfold delta; simpl;
      try lia. unfold count. simpl. lia.
Qed.

Lemma reachable_wf this d : reachable this d -> wf d.
Proof. intros [h Hh]. apply (history_wf_count this h d Hh). Qed.

Lemma exec_history this ops : forall h d d',
  history this h d -> exec this ops d = Ok d' -> history this (rev ops ++ h) d'.
Proof.
  induction ops as [|o ops IH]; intros h d d' Hh He; simpl in *.
  - injection He as <-. exact Hh.
  - destruct (step this o d) as [d1| |] eqn:Hs; try discriminate.
    cbn [mbind result_bind] in He. rewrite <- app_assoc. simpl.
    apply (IH (o :: h) d1 d'); [|exact He]. econstructor; eauto.
Qed.

Lemma run_history this ops d : run this ops = Ok d -> history this (rev ops) d.
Proof.
  unfold run. intros H. destruct construct as [d0| |] eqn:Hc; try discriminate.
  cbn [mbind result_bind] in H. rewrite <- (app_nil_r (rev ops)).
  eapply exec_history; [|exact H]. constructor. exact Hc.
Qed.

Lemma run_reachable this ops d : run this ops = Ok d -> reachable this d.
Proof. intros H. exists (rev ops). apply run_history, H. Qed.

Lemma vector_copy_same {U} (v : Vector.t U) : Vector.copy (fun e => e) v = v.
Proof. destruct v as [b c]. unfold Vector.copy. simpl. f_equal. apply map_id. Qed.

(** A copy is in the state of its source, and so is the target of an
    assignment. *)
Lemma copy_construct_same (that : deque T) : copy_construct that = that.
Proof.
  destruct that as [n [cs cap]]. unfold copy_construct, Vector.copy. simpl. do 2 f_equal.
  induction cs as [|c cs IH]; simpl; [reflexivity|].
  f_equal; [apply (vector_copy_same c)|exact IH].
Qed.

Lemma assign_same (same : bool) (that : deque T) d :
  (same = true -> that = d) -> assign same that d = that.
Proof.
  intros Hs. unfold assign, Vector.assign. destruct same.
  - rewrite (Hs eq_refl). destruct d. reflexivity.
  - apply copy_construct_same.
Qed.

(** A store changes neither the table nor any length. *)
Lemma store_wf d (ci cj : Z) v d' :
  wf d -> store ci cj v d = Ok d' ->
  wf d' /\ size d' = size d /\ chunk_sizes d' = chunk_sizes d.
Proof.
  intros [Hne Hs] H. unfold store in H.
  destruct (chunk_at ci d) as [ck| |] eqn:Hc; try discriminate. run_bind.
  cbn [mbind result_bind] in H.
  destruct (Vector.get cj ck) as [e| |] eqn:Hg; try discriminate.
  cbn [mbind result_bind] in H. injection H as <-.
  destruct (chunk_split_at d ci ck Hc) as (Hc0 & E & Hl).
  set (pre := take (Z.to_nat ci) (chunks d)) in *.
  set (post := drop (S (Z.to_nat ci)) (chunks d)) in *.
  assert (chunks (with_x (Vector.set ci (Vector.set cj v ck) (x d)) d)
          = pre ++ Vector.set cj v ck :: post) as E'.
  { rewrite <- Hl. apply (vec_set_middle (x d) pre post ck). exact E. }
  assert (Vector._size (Vector.set cj v ck) = Vector._size ck) as Hk.
  { unfold Vector._size, Vector.set. simpl. rewrite length_insert. reflexivity. }
  split; [split|split; [reflexivity|]].
  - rewrite E'. destruct pre; discriminate.
  - change (_size (with_x (Vector.set ci (Vector.set cj v ck) (x d)) d)) with (_size d).
    rewrite Hs, E', E, !total_len_app, !total_len_cons, Hk. reflexivity.
  - unfold chunk_sizes. rewrite E', E, !map_app. simpl. rewrite Hk. reflexivity.
Qed.

Lemma history_lineage this h d : history this h d -> lineage this (map ev_call h) d.
Proof.
  induction 1 as [d Hc|h o d d' Hh IH Hstep]; simpl.
  - constructor. exact Hc.
  - econstructor; eauto.
Qed.

Lemma lineage_wf_count this h d :
  lineage this h d ->
  wf d /\
  size d = carried h + count is_push (since_reset h) - count is_pop (since_reset h).
Proof.
  induction 1 as [this d Hc|this other hs that Hs [IHw IHs]
                 |this h o d d' Hh [IHw IHs] Hstep
                 |this other h hs d that Hh [IHw IHs] Hs [IHw' IHs']
                 |this h d Hh [IHw IHs]
                 |this h c j v d d' Hh [IHw IHs] Hst].
  - apply construct_wf in Hc as (? & ? & _). split; [done|]. simpl. unfold count. simpl. lia.
  - rewrite copy_construct_same. split; [exact IHw|]. simpl. unfold count. simpl. lia.
  - destruct (step_wf this o d d' IHw Hstep) as [Hw Hs]. split; [exact Hw|].
    rewrite Hs. destruct o; simpl since_reset; simpl carried; rewrite ?count_cons;
      unfold delta; simpl; try lia. unfold count. simpl. lia.
  - rewrite assign_same by discriminate. split; [exact IHw'|]. simpl. unfold count. simpl. lia.
  - rewrite assign_same by reflexivity. split; [exact IHw|]. exact IHs.
  - destruct (store_wf d c j v d' IHw Hst) as (Hw & Hs & _). split; [exact Hw|].
    rewrite Hs. exact IHs.
Qed.

Lemma obs_eq_intro d d' :
  wf d -> wf d' -> to_list d' = to_list d -> obs_eq d d'.
Proof.
  intros Hw Hw' Hl. assert (size d' = size d) as Hs.
  { rewrite (wf_size d Hw), (wf_size d' Hw'), Hl. reflexivity. }
  split; [exact Hs|]. split; [exact Hl|]. intros i.
  destruct (decide (0 <= i < size d)) as [Hi|Hi].
  - destruct (access_ok d i Hw Hi) as (v & Hv & ->).
    destruct (access_ok d' i Hw') as (v' & Hv' & ->); [lia|].
    rewrite Hl in Hv'. congruence.
  - rewrite (access_out d i Hi). apply access_out. lia.
Qed.

End Invariant.

(** ** Public calls *)

Section Calls.
Context {T : Type}.
Implicit Types (d : deque T) (this : ptr) (c : Vector.t T).

Lemma take_drop_inserted {A} (l : list A) (p : nat) v :
  (p <= length l)%nat ->
  take p (take p l ++ v :: drop p l) ++ drop (S p) (take p l ++ v :: drop p l) = l.
Proof.
  intros Hp. assert (length (take p l) = p) as Hlt by (rewrite length_take; lia).
  rewrite take_app_length' by (symmetry; exact Hlt).
  rewrite (cons_middle v), app_assoc.
  rewrite drop_app_length' by (rewrite length_app, Hlt; simpl; lia).
  apply take_drop.
Qed.


Lemma push_back_spec d r v :
  wf d ->
  exists d', push_back r v d = Ok d' /\ wf d' /\ size d' = size d + 1 /\
    to_list d' = to_list d ++ [v].
Proof.
  intros Hwf. pose proof (wf_size d Hwf) as Hz.
  destruct (insert_at_spec d r (size d) v Hwf) as (d' & H & _); [lia|].
  destruct (insert_at_Ok d r (size d) v _ d' Hwf H) as (_ & _ & Hw & Hs & Hl).
  exists d'. unfold push_back. rewrite H. split; [reflexivity|]. split; [exact Hw|].
  split; [exact Hs|]. rewrite Hl, take_ge, drop_ge by lia. reflexivity.
Qed.

Lemma push_front_spec d r v :
  wf d ->
  exists d', push_front r v d = Ok d' /\ wf d' /\ size d' = size d + 1 /\
    to_list d' = v :: to_list d.
Proof.
  intros Hwf. pose proof (wf_size d Hwf) as Hz.
  destruct (insert_at_spec d r 0 v Hwf) as (d' & H & _); [lia|].
  destruct (insert_at_Ok d r 0 v _ d' Hwf H) as (_ & _ & Hw & Hs & Hl).
  exists d'. unfold push_front. rewrite H. split; [reflexivity|]. split; [exact Hw|].
  split; [exact Hs|]. rewrite Hl. reflexivity.
Qed.

Lemma no_split_due_sizes d :
  no_split_due d <-> Forall (fun s => ~ split_pred (size d) s) (chunk_sizes d).
Proof. unfold no_split_due, chunk_sizes. rewrite Forall_fmap. reflexivity. Qed.

(** An empty container, whatever its chunk table: the four calls throw
    [index_out_of_bound]. *)
Lemma empty_errors d (r : Z) :
  size d = 0 ->
  pop_front r d = Throw index_out_of_bound /\
  pop_back r d = Throw index_out_of_bound /\
  front d = Throw index_out_of_bound /\
  back d = Throw index_out_of_bound.
Proof.
  intros H. unfold pop_front, pop_back, front, back.
  rewrite !remove_at_out, !access_out by lia. repeat split; reflexivity.
Qed.

(** Dereference with an empty cache on a live container: an index
    outside [[0, size())] throws [index_out_of_bound]. *)
Lemma deref_out_of_bound (heap : gmap ptr (deque T)) (it : iterator) p d :
  base_iterator.elem it = None -> base_iterator.q it = Some p ->
  heap !! p = Some d -> ~ (0 <= base_iterator.pos it < size d) ->
  base_iterator.deref heap it = Throw index_out_of_bound.
Proof.
  intros He Hq Hh Hp. unfold base_iterator.deref, base_iterator.through, access_ref.
  rewrite He, Hq, Hh, (throw_if_out_of_bound_out d _ Hp). reflexivity.
Qed.

(** Dereference with a cached reference returns it without looking at
    the container. *)
Lemma deref_cached (heap : gmap ptr (deque T)) (it : iterator) r :
  base_iterator.elem it = Some r -> base_iterator.deref heap it = Ok (r, it).
Proof. intros He. unfold base_iterator.deref. rewrite He. reflexivity. Qed.

(** [it->] returns what [*it] returns, but where [*it] throws
    [index_out_of_bound] the program is terminated. *)
Lemma arrow_out_of_bound (heap : gmap ptr (deque T)) (it : iterator) p d :
  base_iterator.elem it = None -> base_iterator.q it = Some p ->
  heap !! p = Some d -> ~ (0 <= base_iterator.pos it < size d) ->
  base_iterator.arrow heap it = Terminates.
Proof.
  intros He Hq Hh Hp. unfold base_iterator.arrow.
  rewrite (deref_out_of_bound heap it p d He Hq Hh Hp). reflexivity.
Qed.

Lemma arrow_returns (heap : gmap ptr (deque T)) (it : iterator) a :
  base_iterator.deref heap it = Ok a -> base_iterator.arrow heap it = Returns a.
Proof. intros H. unfold base_iterator.arrow. rewrite H. reflexivity. Qed.

End Calls.

(** ** The concrete containers *)

Lemma alternation_run : run 1%positive alternation_ops = Ok alternation.
Proof. vm_compute. reflexivity. Qed.

Lemma drained_run : run 1%positive drain_ops = Ok drained.
Proof. vm_compute. reflexivity. Qed.

Lemma shrunk_run : run 1%positive shrink_ops = Ok shrunk.
Proof. vm_compute. reflexivity. Qed.

Lemma alternation_reachable : reachable 1%positive alternation.
Proof. apply (run_reachable _ alternation_ops), alternation_run. Qed.

Lemma drained_reachable : reachable 1%positive drained.
Proof. apply (run_reachable _ drain_ops), drained_run. Qed.

Lemma shrunk_reachable : reachable 1%positive shrunk.
Proof. apply (run_reachable _ shrink_ops), shrunk_run. Qed.

Lemma cleared_run : run 1%positive cleared_ops = Ok cleared.
Proof. vm_compute. reflexivity. Qed.

Lemma reassigned_lineage : lineage 2%positive reassigned_events reassigned.
Proof.
  assert (exists d1 d2, run 2%positive [op_push_back 0 7] = Ok d1 /\
            pop_front 0 (assign false alternation d1) = Ok d2 /\
            store 0 1 5 d2 = Ok reassigned) as (d1 & d2 & H1 & H2 & H3).
  { eexists _, _. split; [|split]; vm_compute; reflexivity. }
  apply (lineage_store _ _ 0 1 5 d2); [|exact H3].
  apply (lineage_call _ _ (op_pop_front 0) (assign false alternation d1)); [|exact H2].
  apply (lineage_assign 2%positive 1%positive _ (map ev_call (rev alternation_ops))).
  - apply (history_lineage 2%positive (rev [op_push_back 0 7])), run_history, H1.
  - apply history_lineage, run_history, alternation_run.
Qed.

Lemma lopsided_run : run 1%positive lopsided_ops = Ok lopsided.
Proof. vm_compute. reflexivity. Qed.

Lemma lopsided_reachable : reachable 1%positive lopsided.
Proof. apply (run_reachable _ lopsided_ops), lopsided_run. Qed.

(** * Properties of the specification *)

Section Claims.
Context {T : Type}.
Implicit Types (d : deque T) (this : ptr) (c : Vector.t T).

(** C1.  On every reachable container (whose size is an [int]),
    [access(pos)] with [0 <= pos < size()] returns the element at index
    [pos] of the concatenation of the chunks in table order, each chunk
    in slot order ([to_list]), and so do [at(pos)] and [operator[](pos)];
    for every other [int] [pos], [access] throws [index_out_of_bound].
    But [at] and [operator[]] take a [size_t] and narrow it to [int]:
    they do what [access] does on the low 32 bits of [pos].  They throw
    [index_out_of_bound] when that value is outside [[0, size())], and
    for [pos + k * 2^32] with [pos] in [[0, size())] and any [k >= 0]
    they return the element at index [pos]: for [k >= 1] the index is
    outside [[0, size())] and nothing is thrown. *)
Theorem access_spec this d pos :
  reachable this d -> size d < 2 ^ 31 ->
  (0 <= pos < size d ->
     exists v, to_list d !! Z.to_nat pos = Some v /\
       access pos d = Ok v /\ at_ pos d = Ok v /\ subscript pos d = Ok v /\
       forall k, 0 <= k ->
         at_ (pos + k * 2 ^ 32) d = Ok v /\ subscript (pos + k * 2 ^ 32) d = Ok v) /\
  (~ (0 <= pos < size d) -> access pos d = Throw index_out_of_bound) /\
  (~ (0 <= wrap pos < size d) ->
     at_ pos d = Throw index_out_of_bound /\ subscript pos d = Throw index_out_of_bound).
Proof.
  intros Hr Hn. apply reachable_wf in Hr. split; [|split].
  - intros Hp. destruct (access_ok d pos Hr Hp) as (v & Hv & Ha).
    assert (forall k, wrap (pos + k * 2 ^ 32) = pos) as Hw.
    { intros k. unfold wrap.
      replace (pos + k * 2 ^ 32 + 2 ^ 31) with (pos + 2 ^ 31 + k * 2 ^ 32) by lia.
      rewrite Z.mod_add by lia. rewrite Z.mod_small; lia. }
    exists v. unfold at_, subscript.
    split; [exact Hv|]. split; [exact Ha|].
    pose proof (Hw 0) as Hw0. rewrite Z.mul_0_l, Z.add_0_r in Hw0. rewrite Hw0.
    split; [exact Ha|]. split; [exact Ha|].
    intros k _. rewrite Hw. split; exact Ha.
  - apply access_out.
  - intros Hp. unfold at_, subscript. rewrite (access_out d _ Hp). split; reflexivity.
Qed.

(** C2, amended.  In every state a container reaches through public
    members ([push_back], [push_front], [pop_back], [pop_front],
    [insert], [erase], [clear], [gc], the copy constructor and
    assignment, from containers that were reached in the same way, and
    assignments to elements through the references handed out),
    [size()] is the sum of the lengths of the chunks of the table; and it
    is the size the container had after the most recent of construction,
    [clear()], copy construction and assignment from another container
    (0 for the first two, the size of the source for the last two) plus
    the number of successful push/insert calls minus the number of
    successful pop/erase calls made since then. *)
Theorem size_counts_since_reset this h d :
  lineage this h d ->
  size d = total_len (chunks d) /\
  size d = carried h + count is_push (since_reset h) - count is_pop (since_reset h).
Proof.
  intros Hh. destruct (lineage_wf_count this h d Hh) as [[_ Hw] Hc]. auto.
Qed.


(** C4.  What the code does on the freshly constructed (empty) container:
    each of [pop_front()], [pop_back()], [front()] and [back()] throws
    [index_out_of_bound], the error of [throw_if_out_of_bound]; none
    throws [container_is_empty]. *)
Theorem empty_container_errors (r : Z) :
  (d ← construct (T:=T); pop_front r d) = Throw index_out_of_bound /\
  (d ← construct (T:=T); pop_back r d) = Throw index_out_of_bound /\
  (d ← construct (T:=T); front d) = Throw index_out_of_bound /\
  (d ← construct (T:=T); back d) = Throw index_out_of_bound.
Proof. repeat split; reflexivity. Qed.

(** C5, amended.  On every reachable container (whose size is an
    [int]) a [gc()] pass returns normally and no adjacent pair of chunks
    satisfies the merge predicate afterwards.  No chunk satisfies the
    split predicate afterwards provided no chunk had
    [(len + 1)^2 > 32 * N] before the pass (the pass splits a chunk once,
    at its midpoint, and does not look at the halves again) and
    [N < 2^20] (so that the product in [should_merge] stays inside [int]
    for every pair the pass examines, see [merge_by_overflow]). *)
Theorem gc_rebalances this d :
  reachable this d -> size d < 2 ^ 31 ->
  exists d', gc d = Ok d' /\ no_merge_due d' /\
    (size d < 2 ^ 20 -> Forall (halves_fit (size d)) (chunks d) -> no_split_due d').
Proof.
  intros Hr Hn. apply reachable_wf in Hr.
  destruct (gc_pass d Hr Hn (size d < 2 ^ 20 /\ Forall (halves_fit (size d)) (chunks d)))
    as (d' & H & _ & Hm & Hs); [tauto|tauto|].
  exists d'. auto.
Qed.

(** C6, amended.  In every reachable state the chunk table holds at least
    one chunk; after construction and after [clear()] it holds exactly
    one chunk, which is empty. *)
Theorem table_never_empty this d :
  reachable this d ->
  chunks d <> [] /\
  (d0 ← construct (T:=T); Ok (chunk_sizes d0)) = Ok [0] /\
  (d' ← clear d; Ok (chunk_sizes d')) = Ok [0].
Proof.
  intros Hr. apply reachable_wf in Hr. split; [apply Hr|]. split; [reflexivity|].
  destruct (clear_fresh d) as (d' & -> & _ & _ & Hc). run_bind.
  rewrite Hc. reflexivity.
Qed.

(** C7, amended.  [erase(it)] throws [invalid_iterator] when [it] is not
    owned by the container; when [it] is owned and its index is outside
    [[0, size())], in particular for the end iterator, it throws
    [index_out_of_bound]. *)
Theorem erase_errors this r (it : iterator) d :
  (base_iterator.q it <> Some this -> erase this r it d = Throw invalid_iterator) /\
  (base_iterator.q it = Some this -> ~ (0 <= base_iterator.pos it < size d) ->
     erase this r it d = Throw index_out_of_bound).
Proof.
  unfold erase, base_iterator.check_owns, base_iterator.owns. split.
  - intros Hq. rewrite bool_decide_eq_false_2 by congruence. reflexivity.
  - intros Hq Hp. rewrite bool_decide_eq_true_2 by congruence. cbn [negb mbind result_bind].
    rewrite (remove_at_out d r _ Hp). reflexivity.
Qed.

(** C8.  What the code does when an iterator whose container pointer is
    null, such as a default-constructed one, is dereferenced: the call
    [q->access(pos)] goes through the null pointer, which has no defined
    outcome; [invalid_iterator] is not thrown. *)
Theorem deref_null_undefined (heap : gmap ptr (deque T)) (pos : Z) :
  base_iterator.deref heap base_iterator.default = Undefined /\
  base_iterator.deref heap (base_iterator.make None pos) = Undefined.
Proof. split; reflexivity. Qed.


End Claims.

(** C9.  From a freshly constructed container, [push_front(10)],
    [push_back(20)], [push_front(30)], [push_back(40)] give [size() == 4]
    and the sequence 30, 10, 20, 40, whatever [rand()] returns. *)
Theorem alternation_scenario (r1 r2 r3 r4 : Z) :
  (d0 ← construct;
   d1 ← push_front r1 10 d0;
   d2 ← push_back r2 20 d1;
   d3 ← push_front r3 30 d2;
   d4 ← push_back r4 40 d3;
   Ok (size d4, to_list d4)) = Ok (4, [30; 10; 20; 40]).
Proof.
  destruct (construct (T:=Z)) as [d0| |] eqn:H0; try discriminate.
  destruct (construct_wf d0 H0) as (Hw0 & Hs0 & Hl0 & _).
  run_bind.
  destruct (push_front_spec d0 r1 10 Hw0) as (d1 & H1 & Hw1 & Hs1 & Hl1).
  rewrite H1. run_bind.
  destruct (push_back_spec d1 r2 20 Hw1) as (d2 & H2 & Hw2 & Hs2 & Hl2).
  rewrite H2. run_bind.
  destruct (push_front_spec d2 r3 30 Hw2) as (d3 & H3 & Hw3 & Hs3 & Hl3).
  rewrite H3. run_bind.
  destruct (push_back_spec d3 r4 40 Hw3) as (d4 & H4 & Hw4 & Hs4 & Hl4).
  rewrite H4. run_bind.
  rewrite Hl4, Hl3, Hl2, Hl1, Hl0. f_equal. f_equal. lia.
Qed.

(** ** Where the spec and the code part *)

(** C2 as stated fails: after [push_back(7); clear()] the container is
    empty while one push and no pop succeeded; and without any
    [clear()], after [push_back(7)] and an assignment from a freshly
    constructed container it is empty as well. *)
Lemma count_ignores_clear_and_assignment :
  ~ (forall (h : list event) (d : deque Z),
       lineage 1%positive h d ->
       size d = total_len (chunks d) /\
       size d = count is_push (calls h) - count is_pop (calls h)) /\
  ~ (forall (h : list event) (d : deque Z),
       lineage 1%positive h d -> ~ In op_clear (calls h) ->
       size d = count is_push (calls h) - count is_pop (calls h)).
Proof.
  split; intros H.
  - destruct (H (map ev_call [op_clear; op_push_back 0 7])
                (unwrap (run 1%positive [op_push_back 0 7; op_clear]))) as [_ Hc].
    + apply history_lineage.
      apply (run_history 1%positive [op_push_back 0 7; op_clear]). vm_compute. reflexivity.
    + vm_compute in Hc. discriminate.
  - assert (exists d0 d1, construct (T:=Z) = Ok d0 /\
              run 1%positive [op_push_back 0 7] = Ok d1) as (d0 & d1 & H0 & H1).
    { eexists _, _. split; vm_compute; reflexivity. }
    assert (size (assign false d0 d1) = 0) as Hz.
    { injection H0 as <-. reflexivity. }
    specialize (H [ev_assign d0; ev_call (op_push_back 0 7)] (assign false d0 d1)).
    rewrite Hz in H.
    assert (0 = count is_push (calls [ev_assign d0; ev_call (op_push_back 0 7)])
                - count is_pop (calls [ev_assign d0; ev_call (op_push_back 0 7)])) as Habs.
    { apply H.
      - apply (lineage_assign 1%positive 2%positive _ []).
        + apply (history_lineage 1%positive (rev [op_push_back 0 7])), run_history, H1.
        + constructor. exact H0.
      - intros [Hin|[]]. discriminate Hin. }
    vm_compute in Habs. discriminate Habs.
Qed.

(** C5 as stated fails: after 200 [push_back] and 166 [pop_front] the
    last call returns with one chunk of 34 elements and [N = 34], which
    satisfies the split predicate; the next [gc()] pass splits it into
    two chunks of 17, which still satisfy it ([17^2 = 289 > 8 * 34]). *)
Lemma split_due_after_gc :
  (d ← run 1%positive (replicate 200 (op_push_back 20000 1)); Ok (chunk_sizes d))
    = Ok [8; 8; 8; 9; 10; 11; 13; 14; 15; 16; 17; 18; 19; 34] /\
  run 1%positive shrink_ops = Ok shrunk /\
  size shrunk = 34 /\
  chunk_sizes shrunk = replicate 13 0 ++ [34] /\
  ~ no_split_due shrunk /\
  gc shrunk = Ok shrunk_gc /\
  chunk_sizes shrunk_gc = [0; 17; 17] /\
  ~ no_split_due shrunk_gc.
Proof.
  split; [vm_compute; reflexivity|].
  split; [vm_compute; reflexivity|]. split; [reflexivity|]. split; [reflexivity|].
  split; [|split; [vm_compute; reflexivity|split; [reflexivity|]]].
  - rewrite no_split_due_sizes. intros H.
    apply (Forall_lookup_1 _ _ 13%nat 34) in H; [|reflexivity].
    apply H. unfold split_pred. change (size shrunk) with 34. lia.
  - rewrite no_split_due_sizes. intros H.
    apply (Forall_lookup_1 _ _ 1%nat 17) in H; [|reflexivity].
    apply H. unfold split_pred. change (size shrunk_gc) with 34. lia.
Qed.

(** Why the split half of C5 stops at [2^20 = 1048576] elements: in a
    container of 1049077 elements two adjacent chunks of 2897 elements
    are not due for a split, fit the proviso and do not satisfy the merge
    predicate, but [5794 * 5794 * 64] is above [2^31] and wraps to a
    negative [int], so [should_merge] holds for them, and the chunk of
    5794 elements that [merge_chunk] makes of them satisfies the split
    predicate. *)
Lemma merge_by_overflow (d : deque Z) :
  _size d = 1049077 ->
  should_split 2897 d = false /\ (2897 + 1) * (2897 + 1) <= 32 * size d /\
  ~ merge_pred (size d) 2897 2897 /\ should_merge (2897 + 2897) d = true /\
  split_pred (size d) (2897 + 2897).
Proof.
  intros H. unfold should_split, should_merge, merge_pred, split_pred, size.
  rewrite H. split; [reflexivity|]. split; [vm_compute; discriminate|].
  split; [vm_compute; tauto|]. split; [reflexivity|]. split; [vm_compute; discriminate|reflexivity].
Qed.

(** C6 as stated fails: after 24 [push_back] and 16 [pop_front] the
    table has three chunks, two of them empty. *)
Lemma empty_chunks_stay_in_table :
  run 1%positive drain_ops = Ok drained /\
  chunk_sizes drained = [0; 0; 8] /\
  length (empty_chunks drained) = 2%nat /\
  length (chunks drained) = 3%nat /\
  ~ at_most_one_empty drained.
Proof.
  split; [vm_compute; reflexivity|]. split; [reflexivity|].
  split; [reflexivity|]. split; [reflexivity|].
  intros [H _]. vm_compute in H. lia.
Qed.

(** C7 as stated fails for the end iterator: [erase(end())] throws
    [index_out_of_bound], on the fresh container and on a container of
    four elements. *)
Lemma erase_end_is_index_out_of_bound :
  (d ← construct (T:=Z); erase 1%positive 0 (end_ 1%positive d) d)
    = Throw index_out_of_bound /\
  erase 1%positive 0 (end_ 1%positive alternation) alternation
    = Throw index_out_of_bound /\
  erase 1%positive 0 (end_ 1%positive alternation) alternation
    <> Throw invalid_iterator.
Proof. split; [reflexivity|]. split; [reflexivity|discriminate]. Qed.

(** ** The statements at concrete containers *)

Lemma access_spec_witness :
  (exists v, to_list alternation !! Z.to_nat 1 = Some v /\
     access 1 alternation = Ok v /\ at_ 1 alternation = Ok v /\
     subscript 1 alternation = Ok v /\
     forall k, 0 <= k ->
       at_ (1 + k * 2 ^ 32) alternation = Ok v /\
       subscript (1 + k * 2 ^ 32) alternation = Ok v) /\
  at_ 4294967297 alternation = Ok 10 /\
  access 4 alternation = Throw index_out_of_bound /\
  at_ 4 alternation = Throw index_out_of_bound /\
  subscript 4 alternation = Throw index_out_of_bound.
Proof.
  destruct (access_spec 1%positive alternation 1 alternation_reachable) as (H1 & _ & _);
    [reflexivity|].
  destruct (access_spec 1%positive alternation 4 alternation_reachable) as (_ & H2 & H3);
    [reflexivity|].
  split; [|split; [|split]].
  - apply H1. change (size alternation) with 4. lia.
  - destruct H1 as (v & _ & Ha & _ & _ & Hk); [change (size alternation) with 4; lia|].
    destruct (Hk 1) as [Hk1 _]; [lia|].
    change (1 + 1 * 2 ^ 32) with 4294967297 in Hk1. rewrite Hk1.
    rewrite <- Ha. reflexivity.
  - apply H2. change (size alternation) with 4. lia.
  - apply H3. change (size alternation) with 4. vm_compute. intros [_ H]. discriminate H.
Defined.

Lemma size_counts_since_reset_witness :
  (to_list reassigned = [10; 5; 40] /\
   size reassigned = total_len (chunks reassigned) /\
   size reassigned = carried reassigned_events
                     + count is_push (since_reset reassigned_events)
                     - count is_pop (since_reset reassigned_events)) /\
  (size cleared = total_len (chunks cleared) /\
   size cleared = carried (map ev_call (rev cleared_ops))
                  + count is_push (since_reset (map ev_call (rev cleared_ops)))
                  - count is_pop (since_reset (map ev_call (rev cleared_ops)))).
Proof.
  split; [split; [reflexivity|]|].
  - apply (size_counts_since_reset 2%positive reassigned_events reassigned).
    exact reassigned_lineage.
  - apply (size_counts_since_reset 1%positive (map ev_call (rev cleared_ops)) cleared).
    apply history_lineage, run_history, cleared_run.
Defined.


Lemma gc_rebalances_witness :
  chunk_sizes lopsided
    = [0; 0; 2; 9; 10; 11; 13; 14; 15; 16; 17; 18; 19; 20; 21; 22; 23; 48] /\
  gc lopsided = Ok lopsided_gc /\
  chunk_sizes lopsided_gc
    = [2; 9; 10; 11; 13; 14; 15; 16; 17; 18; 19; 20; 21; 22; 23; 24; 24] /\
  no_merge_due lopsided_gc /\ no_split_due lopsided_gc.
Proof.
  destruct (gc_rebalances 1%positive lopsided lopsided_reachable) as (d' & H & Hm & Hs);
    [reflexivity|].
  assert (gc lopsided = Ok lopsided_gc) as Hg by (vm_compute; reflexivity).
  rewrite Hg in H. injection H as <-.
  split; [reflexivity|]. split; [exact Hg|]. split; [reflexivity|]. split; [exact Hm|].
  apply Hs; [reflexivity|].
  change (size lopsided) with 278. unfold halves_fit.
  repeat constructor; vm_compute; discriminate.
Defined.

Lemma table_never_empty_witness :
  chunks drained <> [] /\
  (d0 ← construct (T:=Z); Ok (chunk_sizes d0)) = Ok [0] /\
  (d' ← clear drained; Ok (chunk_sizes d')) = Ok [0].
Proof. apply (table_never_empty 1%positive drained drained_reachable). Defined.

Lemma erase_errors_witness :
  erase 1%positive 0 (base_iterator.make (Some 2%positive) 0) alternation
    = Throw invalid_iterator /\
  erase 1%positive 0 (end_ 1%positive alternation) alternation
    = Throw index_out_of_bound.
Proof.
  split.
  - apply (erase_errors 1%positive 0 (base_iterator.make (Some 2%positive) 0) alternation).
    simpl. discriminate.
  - apply (erase_errors 1%positive 0 (end_ 1%positive alternation) alternation).
    + reflexivity.
    + change (size alternation) with 4. simpl. lia.
Defined.


(** * Further properties *)

(** ** The inner vector *)

Section VectorProps.
Context {U : Type}.
Implicit Types (v : Vector.t U).

Lemma fit_loop_pow2 (m : Z) : forall (budget : nat) (k : Z),
  0 <= k ->
  exists j, k <= j <= k + Z.of_nat budget /\
    Vector.fit_loop budget (2 ^ k) m = 2 ^ j /\
    (m <= 2 ^ (k + Z.of_nat budget) -> m <= 2 ^ j) /\
    (j = k \/ 2 ^ (j - 1) < m).
Proof.
  induction budget as [|b IH]; intros k Hk.
  - exists k. simpl. rewrite Z.add_0_r. repeat split; auto; lia.
  - simpl Vector.fit_loop. destruct (Z.ltb_spec (2 ^ k) m) as [Hlt|Hge].
    + rewrite Z.shiftl_mul_pow2 by lia. change (2 ^ 1) with 2.
      replace (2 ^ k * 2) with (2 ^ (k + 1)) by (rewrite Z.pow_add_r by lia; lia).
      destruct (IH (k + 1)) as (j & Hj & -> & Hup & Hmin); [lia|].
      exists j. split; [lia|]. split; [reflexivity|]. split.
      * intros Hm. apply Hup. replace (k + 1 + Z.of_nat b) with (k + Z.of_nat (S b)) by lia.
        exact Hm.
      * right. destruct Hmin as [->|Hmin]; [|exact Hmin].
        replace (k + 1 - 1) with k by lia. exact Hlt.
    + exists k. repeat split; auto; lia.
Qed.

Lemma fit_pow2 (m : Z) :
  exists k, 9 <= k <= 31 /\ Vector.fit m = 2 ^ k /\
    (m <= 2 ^ 31 -> m <= Vector.fit m) /\ (k = 9 \/ 2 ^ (k - 1) < m).
Proof.
  destruct (fit_loop_pow2 m 22 9) as (j & Hj & Hf & Hup & Hmin); [lia|].
  exists j. unfold Vector.fit. change Vector.min_chunk_size with (2 ^ 9).
  rewrite Hf. split; [lia|]. split; [reflexivity|]. split; [|exact Hmin].
  intros Hm. apply Hup. exact Hm.
Qed.

Lemma vec_ok_make (m : Z) : m <= 2 ^ 31 -> vec_ok (Vector.make (U:=U) (Vector.fit m)).
Proof.
  intros Hm. destruct (fit_pow2 m) as (k & Hk & Hf & _ & _).
  split; [exists k; split; [lia|exact Hf]|].
  unfold Vector._size. simpl. rewrite Hf. apply Z.lt_le_incl, Z.pow_pos_nonneg; lia.
Qed.

Lemma vec_ok_insert v pos e v' :
  vec_ok v -> Vector.insert pos e v = Ok v' ->
  vec_ok v' /\ Vector._size v' = Vector._size v + 1 /\
  (Vector._cap v' = Vector._cap v \/
   Vector._size v = Vector._cap v /\ Vector._cap v' = 2 * Vector._cap v).
Proof.
  intros [(k & Hk & Hcap) Hle] H. unfold Vector.insert in H.
  destruct (_ && _) eqn:Hin; [|discriminate]. injection H as <-.
  apply andb_true_iff in Hin as [H0 H1]. apply Z.leb_le in H0, H1.
  assert (Vector._size (Vector.expand_if_full v) = Vector._size v) as Hs.
  { unfold Vector.expand_if_full. destruct (negb _); reflexivity. }
  rewrite Hs in H1.
  assert (forall l : list U,
            Z.of_nat (length (take (Z.to_nat pos) l ++ e :: drop (Z.to_nat pos) l))
            = Z.of_nat (length l) + 1) as Hlen.
  { intros l. rewrite length_app, length_take. simpl. rewrite length_drop. lia. }
  unfold Vector.expand_if_full, Vector.full in *.
  destruct (Z.eqb_spec (Vector._size v) (Vector._cap v)) as [Hfull|Hnot]; simpl.
  - unfold vec_ok, Vector._size in *. simpl. rewrite Hlen.
    rewrite Z.shiftl_mul_pow2 by lia. change (2 ^ 1) with 2.
    split; [split|].
    + exists (k + 1). split; [lia|]. rewrite Hcap, Z.pow_add_r by lia. lia.
    + assert (0 < 2 ^ k) by (apply Z.pow_pos_nonneg; lia). lia.
    + split; [reflexivity|]. right. split; [exact Hfull|lia].
  - unfold vec_ok, Vector._size in *. simpl. rewrite Hlen.
    split; [split|].
    + exists k. auto.
    + lia.
    + split; [reflexivity|]. left. reflexivity.
Qed.

Lemma vec_ok_erase v pos v' :
  vec_ok v -> Vector.erase pos v = Ok v' ->
  vec_ok v' /\ Vector._size v' = Vector._size v - 1 /\
  (Vector._cap v' = Vector._cap v \/
   2048 <= Vector._cap v /\ 4 * Vector._size v' < Vector._cap v /\
   4 * Vector._cap v' = Vector._cap v).
Proof.
  intros [(k & Hk & Hcap) Hle] H. unfold Vector.erase in H.
  destruct (_ && _) eqn:Hin; [|discriminate]. injection H as <-.
  apply andb_true_iff in Hin as [H0 H1]. apply Z.leb_le in H0. apply Z.ltb_lt in H1.
  set (w := {| Vector.buffer := _; Vector._cap := Vector._cap v |}).
  assert (Vector._size w = Vector._size v - 1) as Hlen.
  { unfold Vector._size in *. simpl. rewrite length_app, length_take, length_drop. lia. }
  assert (Vector._cap w = Vector._cap v) as Hcw by reflexivity.
  clearbody w.
  unfold Vector.shrink_if_small.
  change (Z.shiftl Vector.min_chunk_size 2) with 2048.
  rewrite Z.shiftl_mul_pow2 by lia. change (2 ^ 2) with 4. rewrite Hcw.
  destruct (Z.geb_spec (Vector._cap v) 2048) as [Hbig|Hsmall];
    destruct (Z.ltb_spec (Vector._size w * 4) (Vector._cap v)) as [Hq|Hq];
    cbn [andb].
  2-4: (split; [split; [exists k; split; [lia|congruence]|lia]
               |split; [exact Hlen|left; exact Hcw]]).
  unfold vec_ok, Vector.expand_to, Vector._size in *. cbn [Vector._cap Vector.buffer].
  rewrite Z.shiftr_div_pow2 by lia. change (2 ^ 2) with 4.
  assert (11 <= k) as Hk11.
  { destruct (Z.le_gt_cases 11 k) as [|Hlt]; [done|].
    assert (2 ^ k <= 2 ^ 10) by (apply Z.pow_le_mono_r; lia).
    change (2 ^ 10) with 1024 in *. lia. }
  assert (Vector._cap v = 4 * 2 ^ (k - 2)) as Hc4.
  { rewrite Hcap. replace k with (2 + (k - 2)) at 1 by lia.
    rewrite Z.pow_add_r by lia. reflexivity. }
  rewrite Hc4, Z.mul_comm, Z.div_mul by lia.
  split; [split|].
  - exists (k - 2). split; [lia|reflexivity].
  - lia.
  - split; [exact Hlen|]. right. lia.
Qed.

End VectorProps.

(** ** Capacities across the container *)

Section Capacity.
Context {T : Type}.
Implicit Types (d : deque T) (a b c : Vector.t T) (pre post : list (Vector.t T)).

Lemma vec_ok_set {U} (v : Vector.t U) pos e : vec_ok v -> vec_ok (Vector.set pos e v).
Proof.
  intros [Hk Hle]. split; [exact Hk|].
  unfold Vector._size, Vector.set in *. simpl. rewrite length_insert. exact Hle.
Qed.

Lemma roomy_intro d' pre post (mid : list (Vector.t T)) :
  vec_ok (x d') -> chunks d' = pre ++ mid ++ post ->
  Forall vec_ok pre -> Forall vec_ok mid -> Forall vec_ok post ->
  total_len (pre ++ mid ++ post) <= 2 ^ 30 -> roomy d'.
Proof.
  intros Hx E Hp Hm Hq Ht. split; [split; [exact Hx|]|].
  - rewrite E. apply Forall_app. split; [exact Hp|]. apply Forall_app. auto.
  - rewrite E. exact Ht.
Qed.

Lemma roomy_split d pre c post :
  chunks d = pre ++ c :: post -> roomy d ->
  vec_ok (x d) /\ Forall vec_ok pre /\ vec_ok c /\ Forall vec_ok post /\
  total_len pre + Vector._size c + total_len post <= 2 ^ 30.
Proof.
  intros E [[Hx Hf] Ht]. rewrite E in Hf, Ht.
  apply Forall_app in Hf as [Hp Hf]. apply Forall_cons in Hf as [Hc Hq].
  rewrite total_len_app, total_len_cons in Ht.
  split; [exact Hx|]. split; [exact Hp|]. split; [exact Hc|]. split; [exact Hq|]. lia.
Qed.

Lemma split_chunk_roomy d pre c post :
  chunks d = pre ++ c :: post -> roomy d ->
  exists d', split_chunk (Z.of_nat (length pre)) d = Ok d' /\ roomy d'.
Proof.
  intros E Hr. destruct (roomy_split d pre c post E Hr) as (Hx & Hp & Hc & Hq & Ht).
  pose proof (total_len_nonneg pre). pose proof (total_len_nonneg post).
  pose proof (size_nonneg c) as Hc0.
  unfold split_chunk. rewrite (chunk_middle d pre c post E). run_bind.
  destruct (vec_insert_middle (x d) pre (c :: post)
              (Vector.make (Vector.fit (Vector._size c)))) as (x1 & Hx1 & E1); [exact E|].
  rewrite Hx1. run_bind.
  rewrite (vec_get_middle x1 pre (c :: post) _ E1). run_bind.
  assert (Vector.get (Z.of_nat (length pre) + 1) x1 = Ok c) as ->.
  { rewrite <- (length_snoc_Z pre (Vector.make (Vector.fit (Vector._size c)))).
    eapply vec_get_middle. rewrite <- app_assoc. exact E1. }
  run_bind.
  set (a := {| Vector.buffer := take _ _ |}). set (b := {| Vector.buffer := drop _ _ |}).
  eexists. split; [reflexivity|].
  assert (Vector._size a = Vector._size c / 2) as Ha by (apply (size_take_half c a); reflexivity).
  assert (Vector._size b = Vector._size c - Vector._size c / 2) as Hb
    by (apply (size_drop_half c b); reflexivity).
  assert (0 <= Vector._size c / 2 <= Vector._size c) as Hh.
  { pose proof (Z.div_mod (Vector._size c) 2). pose proof (Z.mod_pos_bound (Vector._size c) 2). lia. }
  apply (roomy_intro _ pre post [a; b]).
  - unfold with_x. cbn [x]. apply vec_ok_set, vec_ok_set.
    eapply (vec_ok_insert (x d)); [exact Hx|exact Hx1].
  - unfold chunks, with_x. cbn [x].
    pose proof (vec_set_middle x1 pre (c :: post) _ a E1) as E2.
    rewrite <- (length_snoc_Z pre a).
    erewrite vec_set_middle; [|rewrite <- app_assoc; exact E2].
    rewrite <- app_assoc. reflexivity.
  - exact Hp.
  - destruct (fit_pow2 (Vector._size c)) as (k & Hk & Hf & Hup & _).
    assert (Vector._size c <= Vector.fit (Vector._size c)) as Hfit by (apply Hup; lia).
    repeat constructor.
    + exists k. split; [lia|exact Hf].
    + change (Vector._cap a) with (Vector.fit (Vector._size c)). lia.
    + apply Hc.
    + change (Vector._cap b) with (Vector._cap c). destruct Hc as [_ Hc]. lia.
  - exact Hq.
  - rewrite !total_len_app, !total_len_cons. change (total_len []) with 0. lia.
Qed.

Lemma merge_chunk_roomy d pre a b post :
  chunks d = pre ++ a :: b :: post -> roomy d ->
  exists d', merge_chunk (Z.of_nat (length pre)) d = Ok d' /\ roomy d'.
Proof.
  intros E Hr. destruct (roomy_split d pre a (b :: post) E Hr) as (Hx & Hp & Ha & Hq & Ht).
  apply Forall_cons in Hq as [Hb Hq]. rewrite total_len_cons in Ht.
  pose proof (total_len_nonneg pre). pose proof (total_len_nonneg post).
  pose proof (size_nonneg a). pose proof (size_nonneg b).
  unfold merge_chunk. rewrite (chunk_middle d pre a (b :: post) E). run_bind.
  assert (chunk_at (Z.of_nat (length pre) + 1) d = Ok b) as ->.
  { rewrite <- (length_snoc_Z pre a). eapply chunk_middle. rewrite <- app_assoc. exact E. }
  run_bind.
  set (a' := {| Vector.buffer := _ ++ _ |}). set (b' := {| Vector.buffer := [] |}).
  pose proof (vec_set_middle (x d) pre (b :: post) a a' E) as E2.
  rewrite <- (length_snoc_Z pre a').
  assert (Vector.buffer (Vector.set (Z.of_nat (length (pre ++ [a']))) b'
            (Vector.set (Z.of_nat (length pre)) a' (x d))) = (pre ++ [a']) ++ b' :: post) as E3.
  { eapply vec_set_middle. rewrite <- app_assoc. exact E2. }
  destruct (vec_erase_middle _ _ _ _ E3) as (x2 & Hx2 & E4). rewrite Hx2. run_bind.
  eexists. split; [reflexivity|].
  assert (Vector._size a' = Vector._size a + Vector._size b) as Hsa'.
  { unfold Vector._size. cbn [Vector.buffer a' Vector.expand_to]. rewrite length_app. lia. }
  apply (roomy_intro _ pre post [a']).
  - unfold with_x. cbn [x].
    eapply vec_ok_erase; [|exact Hx2]. apply vec_ok_set, vec_ok_set, Hx.
  - unfold chunks, with_x. cbn [x]. rewrite E4, <- app_assoc. reflexivity.
  - exact Hp.
  - destruct (fit_pow2 (Vector._size a + Vector._size b)) as (k & Hk & Hf & Hup & _).
    repeat constructor.
    + exists k. split; [lia|exact Hf].
    + rewrite Hsa'. change (Vector._cap a') with (Vector.fit (Vector._size a + Vector._size b)).
      apply Hup. lia.
  - exact Hq.
  - rewrite !total_len_app, !total_len_cons, Hsa'. change (total_len []) with 0. lia.
Qed.

Lemma erase_chunk_roomy d pre c post :
  chunks d = pre ++ c :: post -> roomy d ->
  exists x', Vector.erase (Z.of_nat (length pre)) (x d) = Ok x' /\ roomy (with_x x' d).
Proof.
  intros E Hr. destruct (roomy_split d pre c post E Hr) as (Hx & Hp & Hc & Hq & Ht).
  pose proof (size_nonneg c).
  destruct (vec_erase_middle (x d) pre post c E) as (x' & Hx' & Hb).
  exists x'. split; [exact Hx'|].
  apply (roomy_intro _ pre post []); simpl; auto.
  - eapply vec_ok_erase; eauto.
  - rewrite total_len_app. lia.
Qed.

Lemma clear_zero_loop_roomy : forall budget i d d',
  0 <= i -> roomy d -> clear_zero_loop budget i d = Ok d' -> roomy d'.
Proof.
  induction budget as [|n IH]; intros i d d' Hi Hr H; [discriminate|].
  simpl in H. change (Vector.size (x d)) with (table_len d) in H.
  destruct (Z.ltb_spec i (table_len d - 1)) as [Hlt|Hge]; [|congruence].
  destruct (chunk_decompose d i) as (pre & c & post & E & Hip & Hc); [lia|].
  rewrite Hc in H. run_bind. cbn [mbind result_bind] in H.
  destruct (Vector.size c =? 0).
  - destruct (erase_chunk_roomy d pre c post E Hr) as (x' & Hx' & Hr').
    rewrite Hip, Hx' in H. cbn [mbind result_bind] in H.
    eapply IH; [|exact Hr'|exact H]. lia.
  - eapply IH; [|exact Hr|exact H]. lia.
Qed.

Lemma gc_split_loop_roomy : forall budget i d d',
  0 <= i -> roomy d -> gc_split_loop budget i d = Ok d' -> roomy d'.
Proof.
  induction budget as [|n IH]; intros i d d' Hi Hr H; [discriminate|].
  simpl in H. change (Vector.size (x d)) with (table_len d) in H.
  destruct (Z.ltb_spec i (table_len d)) as [Hlt|Hge]; [|congruence].
  destruct (chunk_decompose d i) as (pre & c & post & E & Hip & Hc); [lia|].
  rewrite Hc in H. cbn [mbind result_bind] in H.
  destruct (should_split (Vector.size c) d).
  - destruct (split_chunk_roomy d pre c post E Hr) as (d1 & Hs & Hr1).
    rewrite Hip, Hs in H. cbn [mbind result_bind] in H.
    eapply IH; [|exact Hr1|exact H]. lia.
  - eapply IH; [|exact Hr|exact H]. lia.
Qed.

Lemma gc_merge_loop_roomy : forall budget i d d',
  0 <= i -> roomy d -> gc_merge_loop budget i d = Ok d' -> roomy d'.
Proof.
  induction budget as [|n IH]; intros i d d' Hi Hr H; [discriminate|].
  simpl in H. change (Vector.size (x d)) with (table_len d) in H.
  destruct (Z.ltb_spec i (table_len d - 1)) as [Hlt|Hge]; [|congruence].
  destruct (chunk_decompose2 d i) as (pre & a & b & post & E & Hip & Ha & Hb); [lia|].
  rewrite Ha in H. cbn [mbind result_bind] in H. rewrite Hb in H. cbn [mbind result_bind] in H.
  destruct (should_merge (Vector.size a + Vector.size b) d).
  - destruct (merge_chunk_roomy d pre a b post E Hr) as (d1 & Hm & Hr1).
    rewrite Hip, Hm in H. cbn [mbind result_bind] in H.
    eapply IH; [|exact Hr1|exact H]. lia.
  - eapply IH; [|exact Hr|exact H]. lia.
Qed.

Lemma gc_roomy d d' : roomy d -> gc d = Ok d' -> roomy d'.
Proof.
  intros Hr H. unfold gc in H.
  destruct (clear_zero d) as [d1| |] eqn:H1; try discriminate. cbn [mbind result_bind] in H.
  assert (roomy d1) as Hr1.
  { unfold clear_zero in H1. destruct (_ <=? _); [congruence|].
    eapply clear_zero_loop_roomy; [|exact Hr|exact H1]. lia. }
  destruct (gc_split_loop _ 0 d1) as [d2| |] eqn:H2; try discriminate.
  cbn [mbind result_bind] in H.
  assert (roomy d2) as Hr2 by (eapply gc_split_loop_roomy; [|exact Hr1|exact H2]; lia).
  eapply gc_merge_loop_roomy; [|exact Hr2|exact H]. lia.
Qed.

End Capacity.

Section CapacitySteps.
Context {T : Type}.
Implicit Types (d : deque T) (a b c : Vector.t T) (pre post : list (Vector.t T)).

Lemma vec_update_middle_set {U} (v : Vector.t U) (pre post : list U) (e e' : U)
    (m : U -> result U) :
  Vector.buffer v = pre ++ e :: post -> m e = Ok e' ->
  Vector.update (Z.of_nat (length pre)) m v = Ok (Vector.set (Z.of_nat (length pre)) e' v).
Proof.
  intros E Hm. unfold Vector.update. rewrite (vec_get_middle v pre post e E). run_bind.
  rewrite Hm. reflexivity.
Qed.

Lemma wf_roomy d : wf d -> caps_ok d -> size d <= 2 ^ 30 -> roomy d.
Proof. intros [_ Hs] Hc Hn. split; [exact Hc|]. unfold size in Hn. lia. Qed.

Lemma insert_at_roomy d r pos v p d' :
  wf d -> caps_ok d -> size d < 2 ^ 30 ->
  insert_at r pos v d = Ok (p, d') -> caps_ok d'.
Proof.
  intros Hwf Hc Hn H. pose proof (wf_size_nonneg d Hwf) as Hn0.
  destruct (decide (0 <= pos <= size d)) as [Hp|Hp];
    [|rewrite (insert_at_out d r pos v Hn0 Hp) in H; discriminate].
  destruct (find_at_allow_end_spec d pos Hwf Hp) as (pre & c & post & off & E & Hf & Ho & Hs).
  destruct (roomy_split d pre c post E (wf_roomy d Hwf Hc ltac:(lia)))
    as (Hx & Hpre & Hvc & Hpost & Ht).
  unfold insert_at in H. rewrite (throw_if_out_of_bound_end d pos Hp) in H.
  cbn [mbind result_bind] in H. rewrite Hf in H. cbn [mbind result_bind] in H.
  destruct (vec_insert_ok c off v Ho) as (c' & Hc' & Hb').
  destruct (vec_ok_insert c off v c' Hvc Hc') as (Hvc' & Hsc' & _).
  rewrite (vec_update_middle_set (x d) pre post c c' _ E Hc') in H.
  cbn [mbind result_bind] in H.
  set (d1 := {| _size := _size d + 1; x := _ |}) in H.
  assert (chunks d1 = pre ++ c' :: post) as Ed1 by (eapply vec_set_middle, E).
  assert (roomy d1) as Hr1.
  { apply (roomy_intro d1 pre post [c']).
    - exact (vec_ok_set (x d) _ c' Hx).
    - exact Ed1.
    - exact Hpre.
    - constructor; [exact Hvc'|constructor].
    - exact Hpost.
    - rewrite !total_len_app, !total_len_cons. change (total_len []) with 0.
      destruct Hwf as [_ Hsz]. rewrite E, total_len_app, total_len_cons in Hsz.
      unfold size in Hn. lia. }
  rewrite (chunk_middle d1 pre c' post Ed1) in H. cbn [mbind result_bind] in H.
  assert (exists d2, (if should_split (Vector.size c') d1
                      then split_chunk (Z.of_nat (length pre)) d1 else Ok d1) = Ok d2
                     /\ roomy d2) as (d2 & H2 & Hr2).
  { destruct (should_split _ _).
    - apply (split_chunk_roomy d1 pre c' post Ed1 Hr1).
    - exists d1. auto. }
  rewrite H2 in H. cbn [mbind result_bind] in H.
  destruct (r <? INSERT_GC_THRESHOLD).
  - destruct (gc d2) as [d3| |] eqn:H3; try discriminate. injection H as _ <-.
    apply (gc_roomy d2 d3 Hr2 H3).
  - injection H as _ <-. apply Hr2.
Qed.

Lemma remove_at_roomy d r pos p d' :
  wf d -> caps_ok d -> size d <= 2 ^ 30 ->
  remove_at r pos d = Ok (p, d') -> caps_ok d'.
Proof.
  intros Hwf Hc Hn H.
  destruct (decide (0 <= pos < size d)) as [Hp|Hp];
    [|rewrite (remove_at_out d r pos Hp) in H; discriminate].
  destruct (find_at_spec d pos Hwf Hp) as (pre & c & post & off & E & Hf & Ho & Hs).
  destruct (roomy_split d pre c post E (wf_roomy d Hwf Hc Hn))
    as (Hx & Hpre & Hvc & Hpost & Ht).
  unfold remove_at in H. rewrite (throw_if_out_of_bound_in d pos false Hp) in H.
  cbn [mbind result_bind] in H. rewrite Hf in H. cbn [mbind result_bind] in H.
  destruct (vec_erase_ok c off Ho) as (c' & Hc' & Hb').
  destruct (vec_ok_erase c off c' Hvc Hc') as (Hvc' & Hsc' & _).
  rewrite (vec_update_middle_set (x d) pre post c c' _ E Hc') in H.
  cbn [mbind result_bind] in H.
  set (d1 := {| _size := _size d - 1; x := _ |}) in H.
  assert (chunks d1 = pre ++ c' :: post) as Ed1 by (eapply vec_set_middle, E).
  assert (roomy d1) as Hr1.
  { apply (roomy_intro d1 pre post [c']).
    - exact (vec_ok_set (x d) _ c' Hx).
    - exact Ed1.
    - exact Hpre.
    - constructor; [exact Hvc'|constructor].
    - exact Hpost.
    - rewrite !total_len_app, !total_len_cons. change (total_len []) with 0. lia. }
  change (Vector.size (x d1)) with (table_len d1) in H.
  assert (table_len d1 = Z.of_nat (length pre) + 1 + Z.of_nat (length post)) as Hlen.
  { unfold table_len. rewrite Ed1, length_app. simpl. lia. }
  match type of H with context [mbind _ ?m] =>
    assert (exists d2, m = Ok d2 /\ roomy d2) as (d2 & H2 & Hr2) end.
  { destruct (Z.eqb_spec (Z.of_nat (length pre)) (table_len d1 - 1)) as [Hlast|Hmid]; cbn [negb].
    - assert (post = []) as -> by (destruct post; [done|simpl in Hlen; lia]).
      destruct (Z.gtb_spec (table_len d1) 1) as [Hgt|Hle]; [|eauto].
      rewrite (chunk_middle d1 pre c' [] Ed1). run_bind.
      destruct (Z.eqb_spec (Vector.size c') 0) as [Hz|Hnz]; [|eauto].
      destruct (erase_chunk_roomy d1 pre c' [] Ed1 Hr1) as (x2 & Hx2 & Hr2).
      rewrite Hx2. run_bind. eauto.
    - destruct post as [|b post]; [simpl in Hlen; lia|].
      rewrite (chunk_middle d1 pre c' (b :: post) Ed1). run_bind.
      assert (chunk_at (Z.of_nat (length pre) + 1) d1 = Ok b) as ->.
      { rewrite <- (length_snoc_Z pre c'). eapply chunk_middle. rewrite <- app_assoc. exact Ed1. }
      run_bind.
      destruct (should_merge _ _).
      + apply (merge_chunk_roomy d1 pre c' b post Ed1 Hr1).
      + eauto. }
  rewrite H2 in H. cbn [mbind result_bind] in H.
  destruct (r <? REMOVE_GC_THRESHOLD).
  - destruct (gc d2) as [d3| |] eqn:H3; try discriminate. injection H as _ <-.
    apply (gc_roomy d2 d3 Hr2 H3).
  - injection H as _ <-. apply Hr2.
Qed.

Lemma vec_ok_min {U} : vec_ok (Vector.make (U:=U) Vector.min_chunk_size).
Proof. split; [exists 9; split; [lia|reflexivity]|]. vm_compute. discriminate. Qed.

Lemma clear_caps d d' : vec_ok (x d) -> clear d = Ok d' -> caps_ok d'.
Proof.
  intros Hx H. unfold clear, init in H.
  destruct (Vector.insert 0 _ _) as [x'| |] eqn:Hi; try discriminate.
  injection H as <-.
  assert (vec_ok (Vector.clear (x d))) as Hvc.
  { destruct Hx as [Hk Hle]. split; [exact Hk|].
    unfold Vector._size in *. simpl. lia. }
  destruct (vec_ok_insert _ _ _ _ Hvc Hi) as (Hx' & _ & _).
  split; [exact Hx'|]. unfold chunks. cbn [x].
  destruct (vec_insert_middle (Vector.clear (x d)) [] []
              (Vector.make (U:=T) Vector.min_chunk_size)) as (x'' & Hx'' & Hb); [reflexivity|].
  change (Z.of_nat (length [])) with 0 in Hx''. cbn [with_x x] in Hi.
  rewrite Hx'' in Hi. injection Hi as <-. rewrite Hb.
  constructor; [apply vec_ok_min|constructor].
Qed.

Lemma construct_caps d : construct = Ok d -> caps_ok d.
Proof.
  intros [= <-]. split.
  - split; [exists 9; split; [lia|reflexivity]|]. vm_compute. discriminate.
  - constructor; [apply vec_ok_min|constructor].
Qed.

Lemma step_caps this o d d' :
  wf d -> caps_ok d -> size d + (if is_push o then 1 else 0) <= 2 ^ 30 ->
  step this o d = Ok d' -> caps_ok d'.
Proof.
  intros Hwf Hc Hn H. destruct o as [r v|r v|r|r|r it v|r it| |]; simpl in H, Hn.
  - unfold push_back in H. destruct (insert_at r (size d) v d) as [[p d1]| |] eqn:E; try discriminate.
    injection H as ->. eapply insert_at_roomy; eauto. lia.
  - unfold push_front in H. destruct (insert_at r 0 v d) as [[p d1]| |] eqn:E; try discriminate.
    injection H as ->. eapply insert_at_roomy; eauto. lia.
  - unfold pop_back in H. destruct (remove_at r (size d - 1) d) as [[p d1]| |] eqn:E; try discriminate.
    injection H as ->. eapply remove_at_roomy; eauto. lia.
  - unfold pop_front in H. destruct (remove_at r 0 d) as [[p d1]| |] eqn:E; try discriminate.
    injection H as ->. eapply remove_at_roomy; eauto. lia.
  - unfold insert in H. destruct (base_iterator.check_owns _ _); try discriminate.
    cbn [mbind result_bind] in H.
    destruct (insert_at r (base_iterator.pos it) v d) as [[p d1]| |] eqn:E; try discriminate.
    injection H as ->. eapply insert_at_roomy; eauto. lia.
  - unfold erase in H. destruct (base_iterator.check_owns _ _); try discriminate.
    cbn [mbind result_bind] in H.
    destruct (remove_at r (base_iterator.pos it) d) as [[p d1]| |] eqn:E; try discriminate.
    injection H as ->. eapply remove_at_roomy; eauto. lia.
  - eapply clear_caps; [apply Hc|exact H].
  - eapply (gc_roomy d d'); [|exact H]. apply wf_roomy; auto. lia.
Qed.

Lemma count_nonneg (f : @op T -> bool) h : 0 <= count f h.
Proof. unfold count. lia. Qed.

Lemma count_since_clear_le (f : @op T -> bool) h : count f (since_clear h) <= count f h.
Proof.
  induction h as [|o h IH]; [reflexivity|].
  destruct o; simpl since_clear; rewrite ?count_cons; try lia.
  pose proof (count_nonneg f h). pose proof (count_nonneg f []).
  unfold count at 1. simpl. destruct (f op_clear); lia.
Qed.

Lemma history_caps this h d :
  history this h d -> count is_push h <= 2 ^ 30 -> caps_ok d.
Proof.
  induction 1 as [d Hc|h o d d' Hh IH Hstep]; intros Hn.
  - apply construct_caps, Hc.
  - rewrite count_cons in Hn. pose proof (count_nonneg is_push h).
    destruct (history_wf_count this h d Hh) as [Hwf Hs].
    pose proof (count_since_clear_le is_push h). pose proof (count_nonneg is_pop (since_clear h)).
    eapply step_caps; [exact Hwf| | |exact Hstep].
    + apply IH. destruct (is_push o); lia.
    + destruct (is_push o); lia.
Qed.

End CapacitySteps.

(** ** Element-level behaviour of the mutators *)

Section Elements.
Context {T : Type}.
Implicit Types (d : deque T) (this : ptr) (c : Vector.t T) (l : list T).

(** [access] reads the abstract sequence. *)
Lemma access_lookup d j :
  wf d -> 0 <= j ->
  access j d = match to_list d !! Z.to_nat j with
               | Some w => Ok w
               | None => Throw index_out_of_bound
               end.
Proof.
  intros Hwf Hj. destruct (decide (j < size d)) as [Hlt|Hge].
  - destruct (access_ok d j Hwf) as (w & -> & ->); [lia|]. reflexivity.
  - rewrite access_out by lia. rewrite lookup_ge_None_2; [reflexivity|].
    rewrite (wf_size d Hwf) in Hge. lia.
Qed.

Lemma access_same_lookup d d' j j' :
  wf d -> wf d' -> 0 <= j -> 0 <= j' ->
  to_list d' !! Z.to_nat j' = to_list d !! Z.to_nat j ->
  access j' d' = access j d.
Proof. intros Hw Hw' Hj Hj' E. rewrite !access_lookup, E by assumption. reflexivity. Qed.

Lemma lookup_inserted_lt l (p j : nat) (v : T) :
  (j < p)%nat -> (p <= length l)%nat -> (take p l ++ v :: drop p l) !! j = l !! j.
Proof. intros Hj Hp. rewrite lookup_app_l by (rewrite length_take; lia). apply lookup_take_lt, Hj. Qed.

Lemma lookup_inserted_eq l (p : nat) (v : T) :
  (p <= length l)%nat -> (take p l ++ v :: drop p l) !! p = Some v.
Proof. intros Hp. apply list_lookup_middle. rewrite length_take. lia. Qed.

Lemma lookup_inserted_gt l (p j : nat) (v : T) :
  (p <= j)%nat -> (p <= length l)%nat -> (take p l ++ v :: drop p l) !! S j = l !! j.
Proof.
  intros Hj Hp. rewrite lookup_app_r by (rewrite length_take; lia).
  rewrite length_take. replace (S j - p `min` length l)%nat with (S (j - p)) by lia.
  simpl. rewrite lookup_drop. f_equal. lia.
Qed.

Lemma lookup_deleted_lt l (p j : nat) :
  (j < p)%nat -> (p < length l)%nat -> (take p l ++ drop (S p) l) !! j = l !! j.
Proof. intros Hj Hp. rewrite lookup_app_l by (rewrite length_take; lia). apply lookup_take_lt, Hj. Qed.

Lemma lookup_deleted_ge l (p j : nat) :
  (p <= j)%nat -> (p < length l)%nat -> (take p l ++ drop (S p) l) !! j = l !! S j.
Proof.
  intros Hj Hp. rewrite lookup_app_r by (rewrite length_take; lia).
  rewrite length_take, lookup_drop. f_equal. lia.
Qed.

Lemma insert_at_elements d r pos v :
  wf d -> 0 <= pos <= size d ->
  exists d', insert_at r pos v d = Ok (pos, d') /\ wf d' /\
    size d' = size d + 1 /\
    to_list d' = take (Z.to_nat pos) (to_list d) ++ v :: drop (Z.to_nat pos) (to_list d) /\
    access pos d' = Ok v /\
    (forall j, 0 <= j < pos -> access j d' = access j d) /\
    (forall j, pos <= j -> access (j + 1) d' = access j d).
Proof.
  intros Hwf Hp. pose proof (wf_size d Hwf) as Hz.
  destruct (insert_at_spec d r pos v Hwf Hp) as (d' & H & _).
  destruct (insert_at_Ok d r pos v pos d' Hwf H) as (_ & _ & Hwf' & Hs' & Hl').
  exists d'. split; [exact H|]. split; [exact Hwf'|]. split; [exact Hs'|].
  split; [exact Hl'|]. split; [|split].
  - rewrite access_lookup, Hl', lookup_inserted_eq by (auto; lia). reflexivity.
  - intros j Hj. apply access_same_lookup; try assumption; try lia.
    rewrite Hl'. apply lookup_inserted_lt; lia.
  - intros j Hj. apply access_same_lookup; try assumption; try lia.
    rewrite Hl'. replace (Z.to_nat (j + 1)) with (S (Z.to_nat j)) by lia.
    apply lookup_inserted_gt; lia.
Qed.

Lemma remove_at_elements d r pos :
  wf d -> 0 <= pos < size d ->
  exists d', remove_at r pos d = Ok (pos, d') /\ wf d' /\
    size d' = size d - 1 /\
    to_list d' = take (Z.to_nat pos) (to_list d) ++ drop (S (Z.to_nat pos)) (to_list d) /\
    (forall j, 0 <= j < pos -> access j d' = access j d) /\
    (forall j, pos <= j -> access j d' = access (j + 1) d).
Proof.
  intros Hwf Hp. pose proof (wf_size d Hwf) as Hz.
  destruct (remove_at_spec d r pos Hwf Hp) as (d' & H & _).
  destruct (remove_at_Ok d r pos pos d' Hwf H) as (_ & _ & Hwf' & Hs' & Hl').
  exists d'. split; [exact H|]. split; [exact Hwf'|]. split; [exact Hs'|].
  split; [exact Hl'|]. split.
  - intros j Hj. apply access_same_lookup; try assumption; try lia.
    rewrite Hl'. apply lookup_deleted_lt; lia.
  - intros j Hj. apply access_same_lookup; try assumption; try lia.
    rewrite Hl'. replace (Z.to_nat (j + 1)) with (S (Z.to_nat j)) by lia.
    apply lookup_deleted_ge; lia.
Qed.

Lemma front_back_values d :
  wf d ->
  (forall e l, to_list d = e :: l -> front d = Ok e) /\
  (forall e l, to_list d = l ++ [e] -> back d = Ok e).
Proof.
  intros Hwf. pose proof (wf_size d Hwf) as Hz. split; intros e l E.
  - unfold front. rewrite access_lookup, E by (auto; lia). reflexivity.
  - unfold back. rewrite E, length_app in Hz. simpl in Hz.
    rewrite access_lookup by (auto; lia). rewrite E.
    replace (Z.to_nat (size d - 1)) with (length l) by lia.
    rewrite list_lookup_middle by reflexivity. reflexivity.
Qed.

Lemma pop_front_spec d r e l :
  wf d -> to_list d = e :: l ->
  exists d', pop_front r d = Ok d' /\ wf d' /\ to_list d' = l.
Proof.
  intros Hwf E. pose proof (wf_size d Hwf) as Hz. rewrite E in Hz. simpl in Hz.
  destruct (remove_at_elements d r 0 Hwf) as (d' & H & Hw & _ & Hl & _); [lia|].
  exists d'. unfold pop_front. rewrite H. split; [reflexivity|]. split; [exact Hw|].
  rewrite Hl, E. reflexivity.
Qed.

Lemma pop_back_spec d r e l :
  wf d -> to_list d = l ++ [e] ->
  exists d', pop_back r d = Ok d' /\ wf d' /\ to_list d' = l.
Proof.
  intros Hwf E. pose proof (wf_size d Hwf) as Hz. rewrite E, length_app in Hz. simpl in Hz.
  destruct (remove_at_elements d r (size d - 1) Hwf) as (d' & H & Hw & _ & Hl & _); [lia|].
  exists d'. unfold pop_back. rewrite H. split; [reflexivity|]. split; [exact Hw|].
  rewrite Hl, E. replace (Z.to_nat (size d - 1)) with (length l) by lia.
  rewrite take_app_length. rewrite drop_app_ge by lia.
  replace (S (length l) - length l)%nat with 1%nat by lia. simpl. apply app_nil_r.
Qed.

(** [access] is [load] of the slot [access_ref] designates. *)
Lemma access_load d pos : access pos d = r ← access_ref pos d; load r d.
Proof.
  unfold access, load. destruct (access_ref pos d) as [[i p]| |]; reflexivity.
Qed.

Lemma clear_as_fresh d :
  exists d', clear d = Ok d' /\ _size d' = 0 /\
    chunks d' = [Vector.make Vector.min_chunk_size].
Proof.
  unfold clear, init.
  destruct (vec_insert_middle (x (with_x (Vector.clear (x d)) d)) [] []
              (Vector.make (U:=T) Vector.min_chunk_size)) as (x' & Hx & Hb); [reflexivity|].
  change (Z.of_nat (length [])) with 0 in Hx. rewrite Hx. run_bind.
  eexists. split; [reflexivity|]. split; [reflexivity|]. exact Hb.
Qed.

End Elements.

Lemma one_heap_lookup : one_heap !! 1%positive = Some alternation.
Proof. apply lookup_singleton_eq. Qed.

(** ** Arguments that designate a slot of the container *)

Section References.
Context {T : Type}.
Implicit Types (d : deque T) (this : ptr) (c : Vector.t T) (it : iterator).

(** An argument outside the container: the general members are the
    by-value ones. *)
Lemma insert_at_outer d r pos v : insert_at_ref r pos (outer v) d = insert_at r pos v d.
Proof. reflexivity. Qed.

(** Whatever its argument designates, a call of [insert_at] that returns
    has done what the call with the object it has read does: the calls
    of [op] stand for the calls with arguments of either kind. *)
Lemma insert_at_ref_by_value d r pos value res :
  insert_at_ref r pos value d = Ok res -> exists w, insert_at r pos w d = Ok res.
Proof.
  unfold insert_at_ref, insert_at. intros H.
  destruct (throw_if_out_of_bound pos true d) as [[]| |]; try discriminate.
  cbn [mbind result_bind] in H |- *.
  destruct (find_at_allow_end pos d) as [[i off]| |]; try discriminate.
  cbn [mbind result_bind] in H |- *.
  destruct value as [v|ci cj]; [exists v; exact H|].
  unfold arg_in in H. destruct (ci =? i).
  - cbn [mbind result_bind] in H. unfold Vector.update in H |- *.
    destruct (Vector.get i (x d)) as [ck| |]; try discriminate.
    cbn [mbind result_bind] in H |- *. unfold Vector.insert_ref in H.
    destruct (slot (Vector.buffer ck) cj) as [e0| |]; try discriminate.
    cbn [mbind result_bind] in H.
    destruct (Vector.full ck); try discriminate.
    destruct (slot (Vector.buffer ck) _) as [e| |]; try discriminate.
    cbn [mbind result_bind] in H. exists e. exact H.
  - destruct (chunk_at ci d) as [ck| |]; try discriminate.
    cbn [mbind result_bind] in H.
    destruct (Vector.get cj ck) as [e| |]; try discriminate.
    cbn [mbind result_bind] in H. exists e. exact H.
Qed.
Lemma chunk_slot_lookup d pre c post o :
  chunks d = pre ++ c :: post -> 0 <= o < Vector._size c ->
  to_list d !! Z.to_nat (total_len pre + o) = Vector.buffer c !! Z.to_nat o.
Proof.
  intros E Ho. rewrite (to_list_middle d pre c post E), total_len_concat.
  unfold Vector._size in Ho.
  rewrite lookup_app_r by lia. rewrite lookup_app_l by lia.
  f_equal. lia.
Qed.

(** [insert_at(pos, value)] where [value] designates the element at
    index [k] of the container itself. *)
Lemma insert_at_ref_held d r pos k ci cj :
  wf d -> 0 <= pos <= size d -> 0 <= k < size d ->
  access_ref k d = Ok (ci, cj) ->
  exists i off c,
    find_at_allow_end pos d = Ok (i, off) /\ chunk_at i d = Ok c /\
    insert_at_ref r pos (held ci cj) d
      = if (ci =? i) && Vector.full c then Undefined
        else w ← access (if (ci =? i) && (pos <? k) then k - 1 else k) d;
             insert_at r pos w d.
Proof.
  intros Hwf Hp Hk Hacc.
  destruct (find_at_allow_end_spec d pos Hwf Hp) as (pre & c & post & off & E & Hf & Ho & Hs).
  exists (Z.of_nat (length pre)), off, c.
  split; [exact Hf|]. split; [apply (chunk_middle d pre c post E)|].
  destruct (find_at_spec d k Hwf Hk) as (pre' & c' & post' & off' & E' & Hf' & Ho' & Hs').
  unfold access_ref in Hacc. rewrite (throw_if_out_of_bound_in d k false Hk) in Hacc.
  run_bind. cbn [mbind result_bind] in Hacc. rewrite Hf' in Hacc. injection Hacc as <- <-.
  destruct (slot_in_range (Vector.buffer c') off') as (e0 & Hg0 & Hl0);
    [unfold Vector._size in Ho'; lia|].
  pose proof (chunk_middle d pre c post E) as Hc. pose proof Hc as Hcx. unfold chunk_at in Hcx.
  assert (forall w, insert_at r pos w d
            = (x' ← Vector.update (Z.of_nat (length pre)) (Vector.insert off w) (x d);
               let d1 := {| _size := _size d + 1; x := x' |} in
               c1 ← chunk_at (Z.of_nat (length pre)) d1;
               d2 ← (if should_split (Vector.size c1) d1
                     then split_chunk (Z.of_nat (length pre)) d1 else Ok d1);
               d3 ← (if r <? INSERT_GC_THRESHOLD then gc d2 else Ok d2);
               Ok (pos, d3))) as Hins.
  { intros w. unfold insert_at. rewrite (throw_if_out_of_bound_end d pos Hp). run_bind.
    rewrite Hf. reflexivity. }
  unfold insert_at_ref. rewrite (throw_if_out_of_bound_end d pos Hp). run_bind.
  rewrite Hf. run_bind. unfold arg_in.
  destruct (Z.eqb_spec (Z.of_nat (length pre')) (Z.of_nat (length pre))) as [Heq|Hne].
  - assert (pre' = pre /\ c' :: post' = c :: post) as [-> Hcp].
    { apply app_inj_1; [lia|]. rewrite <- E, <- E'. reflexivity. }
    injection Hcp as -> ->. rewrite !andb_true_l. run_bind.
    unfold Vector.update at 1. rewrite Hcx. run_bind.
    unfold Vector.insert_ref. rewrite Hg0. run_bind.
    destruct (Vector.full c); [reflexivity|].
    assert ((pos <? k) = negb (off' <=? off)) as Hlt.
    { destruct (Z.ltb_spec pos k), (Z.leb_spec off' off); simpl; lia. }
    rewrite Hlt. destruct (Z.leb_spec off' off) as [Hle|Hgt]; simpl negb; cbv iota.
    + rewrite Hg0. run_bind.
      assert (access k d = Ok e0) as ->.
      { rewrite (access_lookup d k Hwf) by lia. rewrite Hs'.
        rewrite (chunk_slot_lookup d pre c post off' E Ho'), Hl0. reflexivity. }
      run_bind. rewrite Hins. unfold Vector.update. rewrite Hcx. reflexivity.
    + destruct (slot_in_range (Vector.buffer c) (off' - 1)) as (e & Hg & Hl);
        [unfold Vector._size in Ho'; lia|].
      rewrite Hg. run_bind.
      assert (access (k - 1) d = Ok e) as ->.
      { rewrite (access_lookup d (k - 1) Hwf) by lia.
        replace (k - 1) with (total_len pre + (off' - 1)) by lia.
        rewrite (chunk_slot_lookup d pre c post (off' - 1) E), Hl by lia. reflexivity. }
      run_bind. rewrite Hins. unfold Vector.update. rewrite Hcx. reflexivity.
  - rewrite !andb_false_l. rewrite (chunk_middle d pre' c' post' E'). run_bind.
    unfold Vector.get. rewrite Hg0. run_bind.
    assert (access k d = Ok e0) as ->.
    { rewrite (access_lookup d k Hwf) by lia. rewrite Hs'.
      rewrite (chunk_slot_lookup d pre' c' post' off' E' Ho'), Hl0. reflexivity. }
    run_bind. rewrite Hins. reflexivity.
Qed.

Lemma insert_at_ref_elements d r pos k ci cj :
  wf d -> 0 <= pos <= size d -> 0 <= k < size d ->
  access_ref k d = Ok (ci, cj) ->
  exists i off c,
    find_at_allow_end pos d = Ok (i, off) /\ chunk_at i d = Ok c /\
    ((ci =? i) && Vector.full c = true ->
       insert_at_ref r pos (held ci cj) d = Undefined) /\
    ((ci =? i) && Vector.full c = false ->
       exists w d',
         access (if (ci =? i) && (pos <? k) then k - 1 else k) d = Ok w /\
         insert_at_ref r pos (held ci cj) d = Ok (pos, d') /\ wf d' /\
         size d' = size d + 1 /\
         to_list d' = take (Z.to_nat pos) (to_list d) ++ w :: drop (Z.to_nat pos) (to_list d) /\
         access pos d' = Ok w /\
         (forall j, 0 <= j < pos -> access j d' = access j d) /\
         (forall j, pos <= j -> access (j + 1) d' = access j d)).
Proof.
  intros Hwf Hp Hk Hacc.
  destruct (insert_at_ref_held d r pos k ci cj Hwf Hp Hk Hacc) as (i & off & c & Hf & Hc & H).
  exists i, off, c. split; [exact Hf|]. split; [exact Hc|].
  split; intros Hb; rewrite Hb in H; [exact H|].
  destruct (access_ok d (if (ci =? i) && (pos <? k) then k - 1 else k) Hwf) as (w & _ & Hw).
  { destruct ((ci =? i) && (pos <? k)) eqn:Hs; [|lia].
    apply andb_true_iff in Hs as [_ Hs]. apply Z.ltb_lt in Hs. lia. }
  rewrite Hw in H. cbn [mbind result_bind] in H.
  destruct (insert_at_elements d r pos w Hwf Hp) as (d' & Hi & Hrest).
  exists w, d'. split; [exact Hw|]. split; [rewrite H; exact Hi|exact Hrest].
Qed.

Lemma deref_designates (heap : gmap ptr (deque T)) this d' p w :
  access p d' = Ok w -> heap !! this = Some d' ->
  exists ref it',
    base_iterator.deref heap (base_iterator.make (Some this) p) = Ok (ref, it') /\
    load ref d' = Ok w.
Proof.
  intros Hv Hh. rewrite access_load in Hv.
  unfold base_iterator.deref, base_iterator.through.
  cbn [base_iterator.make base_iterator.elem base_iterator.q base_iterator.pos].
  rewrite Hh. destruct (access_ref p d') as [ref| |]; try discriminate.
  run_bind. eauto.
Qed.

End References.

(** ** Statements on the inner vector *)

Section VectorStatements.
Context {U : Type}.
Implicit Types (v : Vector.t U).

(** X1.  For a request of at most [2^30] slots, [fit] returns a power of
    two between [2^9] and [2^30] that covers the request, and the
    smallest such: it is 512 or its half is below the request. *)
Theorem fit_smallest_power (m : Z) :
  m <= 2 ^ 30 ->
  exists k, 9 <= k <= 30 /\ Vector.fit m = 2 ^ k /\ m <= Vector.fit m /\
    (k = 9 \/ 2 ^ (k - 1) < m).
Proof.
  intros Hm. destruct (fit_pow2 m) as (k & Hk & Hf & Hup & Hmin).
  exists k. split; [|split; [exact Hf|split; [apply Hup; lia|exact Hmin]]].
  split; [lia|]. destruct Hmin as [->|Hmin]; [lia|].
  destruct (Z.le_gt_cases k 30) as [|Hgt]; [assumption|].
  assert (2 ^ 30 <= 2 ^ (k - 1)) by (apply Z.pow_le_mono_r; lia). lia.
Qed.

Lemma vec_insert_erase_facts v pos e :
  0 <= pos <= Vector._size v ->
  exists v' v'',
    Vector.insert pos e v = Ok v' /\
    Vector._size v' = Vector._size v + 1 /\
    Vector.get pos v' = Ok e /\
    (forall i, 0 <= i < pos -> Vector.get i v' = Vector.get i v) /\
    (forall i, pos <= i -> Vector.get (i + 1) v' = Vector.get i v) /\
    Vector.erase pos v' = Ok v'' /\
    Vector.buffer v'' = Vector.buffer v.
Proof.
  intros Hp. destruct (vec_insert_ok v pos e Hp) as (v' & Hi & Hb).
  assert (Z.to_nat pos <= length (Vector.buffer v))%nat as Hpn
    by (unfold Vector._size in Hp; lia).
  assert (Vector._size v' = Vector._size v + 1) as Hs.
  { unfold Vector._size. rewrite Hb, length_inserted by exact Hpn. lia. }
  destruct (vec_erase_ok v' pos) as (v'' & He & Hb''); [lia|].
  exists v', v''. split; [exact Hi|]. split; [exact Hs|].
  assert (forall i j : Z, 0 <= i -> 0 <= j ->
            Vector.buffer v' !! Z.to_nat i = Vector.buffer v !! Z.to_nat j ->
            Vector.get i v' = Vector.get j v) as Hget.
  { intros i j Hi0 Hj0 E. unfold Vector.get, slot.
    destruct (Z.leb_spec 0 i); [|lia]. destruct (Z.leb_spec 0 j); [|lia].
    rewrite E. reflexivity. }
  split; [|split; [|split; [|split]]].
  - unfold Vector.get, slot. destruct (Z.leb_spec 0 pos); [|lia].
    rewrite Hb, lookup_inserted_eq by exact Hpn. reflexivity.
  - intros i Hi0. apply Hget; [lia|lia|]. rewrite Hb. apply lookup_inserted_lt; lia.
  - intros i Hi0. apply Hget; [lia|lia|]. rewrite Hb.
    replace (Z.to_nat (i + 1)) with (S (Z.to_nat i)) by lia.
    apply lookup_inserted_gt; lia.
  - exact He.
  - rewrite Hb'', Hb. apply take_drop_inserted, Hpn.
Qed.

(** X2.  On a vector with a valid capacity below [2^29] (no shift leaves
    the [int] range), [insert(pos, x)] with [0 <= pos <= _size] and an
    argument outside the storage of the vector puts that object at
    [pos], leaves the slots before it and moves the slots from [pos] on
    one place up; [erase(pos)] after it gives the live prefix back.  With
    an argument that designates the slot [j] of the vector itself, the
    call has no defined outcome on a full vector (the storage is released
    before the argument is read); otherwise what it puts at [pos] is the
    former content of slot [j] if [j <= pos], but that of slot [j - 1] if
    [j > pos] (the slot is read after the slots from [pos] on have
    moved). *)
Theorem vector_insert_then_erase v pos e :
  vec_ok v -> Vector._cap v < 2 ^ 29 ->
  0 <= pos <= Vector._size v ->
  (exists v' v'',
     Vector.insert_ref pos (Vector.outside e) v = Ok v' /\
     Vector._size v' = Vector._size v + 1 /\
     Vector.get pos v' = Ok e /\
     (forall i, 0 <= i < pos -> Vector.get i v' = Vector.get i v) /\
     (forall i, pos <= i -> Vector.get (i + 1) v' = Vector.get i v) /\
     Vector.erase pos v' = Ok v'' /\
     Vector.buffer v'' = Vector.buffer v) /\
  (forall j, 0 <= j < Vector._size v ->
     (Vector.full v = true -> Vector.insert_ref pos (Vector.inside j) v = Undefined) /\
     (Vector.full v = false ->
        exists w v',
          Vector.get (if j <=? pos then j else j - 1) v = Ok w /\
          Vector.insert_ref pos (Vector.inside j) v = Ok v' /\
          Vector._size v' = Vector._size v + 1 /\
          Vector.get pos v' = Ok w /\
          (forall i, 0 <= i < pos -> Vector.get i v' = Vector.get i v) /\
          (forall i, pos <= i -> Vector.get (i + 1) v' = Vector.get i v))).
Proof.
  intros _ _ Hp. split; [exact (vec_insert_erase_facts v pos e Hp)|].
  intros j Hj. unfold Vector.insert_ref.
  destruct (slot_in_range (Vector.buffer v) j) as (e0 & -> & _);
    [unfold Vector._size in Hj; lia|].
  run_bind. split; intros ->; [reflexivity|].
  destruct (slot_in_range (Vector.buffer v) (if j <=? pos then j else j - 1))
    as (w & Hw & _).
  { unfold Vector._size in Hj, Hp. destruct (Z.leb_spec j pos); lia. }
  rewrite Hw. run_bind.
  destruct (vec_insert_erase_facts v pos w Hp) as (v' & _ & Hi & Hs & Hg & Hlt & Hge & _).
  exists w, v'. unfold Vector.get at 1. auto 10.
Qed.

(** X3.  Below a capacity of [2^29] (no shift leaves the [int] range),
    [insert] and [erase] keep the capacity a power of two of at least
    512 that holds the live prefix.  [insert] changes it only when the
    vector is full, to twice its value; [erase] changes it only when it
    is at least 2048 and more than four times the new size, to a quarter
    of its value. *)
Theorem vector_capacity_policy v v' pos e :
  vec_ok v -> Vector._cap v < 2 ^ 29 ->
  (Vector.insert pos e v = Ok v' ->
     vec_ok v' /\
     (Vector._cap v' = Vector._cap v \/
      Vector._size v = Vector._cap v /\ Vector._cap v' = 2 * Vector._cap v)) /\
  (Vector.erase pos v = Ok v' ->
     vec_ok v' /\
     (Vector._cap v' = Vector._cap v \/
      2048 <= Vector._cap v /\ 4 * Vector._size v' < Vector._cap v /\
      4 * Vector._cap v' = Vector._cap v)).
Proof.
  intros Hv _. split; intros H.
  - destruct (vec_ok_insert v pos e v' Hv H) as (Hv' & _ & Hc). auto.
  - destruct (vec_ok_erase v pos v' Hv H) as (Hv' & _ & Hc). auto.
Qed.

End VectorStatements.

(** ** Statements on the container *)

Section ContainerStatements.
Context {T : Type}.
Implicit Types (d : deque T) (this : ptr) (c : Vector.t T) (it : iterator).

(** X4.  A container on which fewer than [2^29] insertions have
    succeeded since it was constructed (so that no shift of a size or a
    capacity leaves the [int] range) has, for its chunk table and for
    every chunk, a capacity that is a power of two of at least 512 and
    holds the live prefix. *)
Theorem capacities_fit this h d :
  history this h d -> count is_push h < 2 ^ 29 -> caps_ok d.
Proof. intros Hh Hn. apply (history_caps this h d Hh). lia. Qed.

(** X5.  On a reachable container [find_at] maps an index of [[0, N)]
    to a chunk of the table and an offset inside its live prefix, and
    [find_at_allow_end] maps an index of [[0, N]] to a chunk and an
    offset that may be the end of its live prefix; in both cases the
    lengths of the chunks before it plus the offset give the index. *)
Theorem locator_spec this d pos :
  reachable this d ->
  (0 <= pos < size d ->
     exists i off c, find_at pos d = Ok (i, off) /\ chunk_at i d = Ok c /\
       0 <= off < Vector.size c /\
       total_len (take (Z.to_nat i) (chunks d)) + off = pos) /\
  (0 <= pos <= size d ->
     exists i off c, find_at_allow_end pos d = Ok (i, off) /\ chunk_at i d = Ok c /\
       0 <= off <= Vector.size c /\
       total_len (take (Z.to_nat i) (chunks d)) + off = pos).
Proof.
  intros Hr. apply reachable_wf in Hr. split; intros Hp.
  - destruct (find_at_spec d pos Hr Hp) as (pre & c & post & off & E & Hf & Ho & Hs).
    exists (Z.of_nat (length pre)), off, c. split; [exact Hf|].
    split; [apply (chunk_middle d pre c post E)|]. split; [exact Ho|].
    rewrite Nat2Z.id, E, take_app_length. lia.
  - destruct (find_at_allow_end_spec d pos Hr Hp) as (pre & c & post & off & E & Hf & Ho & Hs).
    exists (Z.of_nat (length pre)), off, c. split; [exact Hf|].
    split; [apply (chunk_middle d pre c post E)|]. split; [exact Ho|].
    rewrite Nat2Z.id, E, take_app_length. lia.
Qed.

(** X6.  On a reachable container [insert_at(pos, value)] with [pos] in
    [[0, N]] and an argument outside the container returns [pos];
    afterwards the size is one more, that object is at [pos], the
    elements before [pos] are where they were and those from [pos] on are
    one place further.  With an argument that designates the element at
    index [k] of the container itself it does the same with the element
    it reads, which is the one of index [k], except when that element
    lives in the chunk that receives the new one: then the call has no
    defined outcome if the chunk is full, and reads the element of index
    [k - 1] if [k > pos].  For any other [pos] it throws
    [index_out_of_bound], whatever the argument. *)
Theorem insert_at_shifts this d r pos :
  reachable this d ->
  (forall v, 0 <= pos <= size d ->
     exists d', insert_at_ref r pos (outer v) d = Ok (pos, d') /\
       size d' = size d + 1 /\
       access pos d' = Ok v /\
       (forall j, 0 <= j < pos -> access j d' = access j d) /\
       (forall j, pos <= j -> access (j + 1) d' = access j d)) /\
  (forall k ci cj, 0 <= pos <= size d -> 0 <= k < size d ->
     access_ref k d = Ok (ci, cj) ->
     exists i off c,
       find_at_allow_end pos d = Ok (i, off) /\ chunk_at i d = Ok c /\
       ((ci =? i) && Vector.full c = true ->
          insert_at_ref r pos (held ci cj) d = Undefined) /\
       ((ci =? i) && Vector.full c = false ->
          exists w d',
            access (if (ci =? i) && (pos <? k) then k - 1 else k) d = Ok w /\
            insert_at_ref r pos (held ci cj) d = Ok (pos, d') /\
            size d' = size d + 1 /\
            access pos d' = Ok w /\
            (forall j, 0 <= j < pos -> access j d' = access j d) /\
            (forall j, pos <= j -> access (j + 1) d' = access j d))) /\
  (forall value, ~ (0 <= pos <= size d) ->
     insert_at_ref r pos value d = Throw index_out_of_bound).
Proof.
  intros Hr. apply reachable_wf in Hr. split; [|split].
  - intros v Hp. destruct (insert_at_elements d r pos v Hr Hp)
      as (d' & H & _ & Hs & _ & Hv & Hlt & Hge).
    exists d'. rewrite insert_at_outer. auto.
  - intros k ci cj Hp Hk Hacc.
    destruct (insert_at_ref_elements d r pos k ci cj Hr Hp Hk Hacc)
      as (i & off & c & Hf & Hc & Hfull & Hfree).
    exists i, off, c. split; [exact Hf|]. split; [exact Hc|]. split; [exact Hfull|].
    intros Hb. destruct (Hfree Hb) as (w & d' & Hw & H & _ & Hs & _ & Hv & Hlt & Hge).
    exists w, d'. auto 10.
  - intros value Hp. unfold insert_at_ref.
    rewrite (throw_if_out_of_bound_past d pos (wf_size_nonneg d Hr) Hp). reflexivity.
Qed.

(** X7.  On a reachable container [remove_at(pos)] with [pos] in
    [[0, N)] returns [pos]; afterwards the size is one less, the elements
    before [pos] are where they were and those after [pos] are one place
    nearer.  For any other [pos] it throws [index_out_of_bound]. *)
Theorem remove_at_shifts this d r pos :
  reachable this d ->
  (0 <= pos < size d ->
     exists d', remove_at r pos d = Ok (pos, d') /\
       size d' = size d - 1 /\
       (forall j, 0 <= j < pos -> access j d' = access j d) /\
       (forall j, pos <= j -> access j d' = access (j + 1) d)) /\
  (~ (0 <= pos < size d) -> remove_at r pos d = Throw index_out_of_bound).
Proof.
  intros Hr. apply reachable_wf in Hr. split.
  - intros Hp. destruct (remove_at_elements d r pos Hr Hp)
      as (d' & H & _ & Hs & _ & Hlt & Hge).
    exists d'. auto.
  - apply remove_at_out.
Qed.

(** X8.  On a reachable container [push_back(value)] with an argument
    outside the container appends that object and [back()] then returns
    it; [push_front(value)] prepends it and [front()] then returns it.
    With an argument that designates the element at index [k] of the
    container itself, either call has no defined outcome when that
    element lives in the chunk that receives the new one and the chunk is
    full; otherwise [push_back] appends the element of index [k], and
    [push_front] prepends it unless it lives in the receiving chunk at an
    index [k > 0]: then it prepends the element of index [k - 1].  On a
    non-empty container [front()] and [back()] return the first and the
    last element, [pop_front()] drops the first and [pop_back()] the
    last. *)
Theorem ends_spec this d r :
  reachable this d ->
  (forall v, exists d',
     push_back_ref r (outer v) d = Ok d' /\ to_list d' = to_list d ++ [v] /\ back d' = Ok v) /\
  (forall v, exists d',
     push_front_ref r (outer v) d = Ok d' /\ to_list d' = v :: to_list d /\ front d' = Ok v) /\
  (forall k ci cj, 0 <= k < size d -> access_ref k d = Ok (ci, cj) ->
     exists i off c,
       find_at_allow_end (size d) d = Ok (i, off) /\ chunk_at i d = Ok c /\
       ((ci =? i) && Vector.full c = true -> push_back_ref r (held ci cj) d = Undefined) /\
       ((ci =? i) && Vector.full c = false ->
          exists w d', access k d = Ok w /\
            push_back_ref r (held ci cj) d = Ok d' /\ to_list d' = to_list d ++ [w])) /\
  (forall k ci cj, 0 <= k < size d -> access_ref k d = Ok (ci, cj) ->
     exists i off c,
       find_at_allow_end 0 d = Ok (i, off) /\ chunk_at i d = Ok c /\
       ((ci =? i) && Vector.full c = true -> push_front_ref r (held ci cj) d = Undefined) /\
       ((ci =? i) && Vector.full c = false ->
          exists w d',
            access (if (ci =? i) && (0 <? k) then k - 1 else k) d = Ok w /\
            push_front_ref r (held ci cj) d = Ok d' /\ to_list d' = w :: to_list d)) /\
  (forall e l, to_list d = e :: l ->
     front d = Ok e /\ exists d', pop_front r d = Ok d' /\ to_list d' = l) /\
  (forall e l, to_list d = l ++ [e] ->
     back d = Ok e /\ exists d', pop_back r d = Ok d' /\ to_list d' = l).
Proof.
  intros Hr. apply reachable_wf in Hr. pose proof (wf_size_nonneg d Hr) as Hn.
  pose proof (wf_size d Hr) as Hz.
  split; [|split; [|split; [|split; [|split]]]].
  - intros v. destruct (push_back_spec d r v Hr) as (d' & H & Hw & _ & Hl).
    exists d'. split; [exact H|]. split; [exact Hl|].
    apply (front_back_values d' Hw) with (l := to_list d), Hl.
  - intros v. destruct (push_front_spec d r v Hr) as (d' & H & Hw & _ & Hl).
    exists d'. split; [exact H|]. split; [exact Hl|].
    apply (front_back_values d' Hw) with (l := to_list d), Hl.
  - intros k ci cj Hk Hacc.
    destruct (insert_at_ref_elements d r (size d) k ci cj Hr) as
      (i & off & c & Hf & Hc & Hfull & Hfree); [lia|exact Hk|exact Hacc|].
    exists i, off, c. split; [exact Hf|]. split; [exact Hc|]. unfold push_back_ref. split.
    + intros Hb. rewrite (Hfull Hb). reflexivity.
    + intros Hb. destruct (Hfree Hb) as (w & d' & Hw & H & _ & _ & Hl & _).
      replace (size d <? k) with false in Hw by (symmetry; apply Z.ltb_ge; lia).
      rewrite andb_false_r in Hw.
      exists w, d'. rewrite H. split; [exact Hw|]. split; [reflexivity|].
      rewrite Hl, take_ge, drop_ge by lia. reflexivity.
  - intros k ci cj Hk Hacc.
    destruct (insert_at_ref_elements d r 0 k ci cj Hr) as
      (i & off & c & Hf & Hc & Hfull & Hfree); [lia|exact Hk|exact Hacc|].
    exists i, off, c. split; [exact Hf|]. split; [exact Hc|]. unfold push_front_ref. split.
    + intros Hb. rewrite (Hfull Hb). reflexivity.
    + intros Hb. destruct (Hfree Hb) as (w & d' & Hw & H & _ & _ & Hl & _).
      exists w, d'. rewrite H. split; [exact Hw|]. split; [reflexivity|exact Hl].
  - intros e l E. split; [apply (front_back_values d Hr) with (l := l), E|].
    destruct (pop_front_spec d r e l Hr E) as (d' & H & _ & Hl). eauto.
  - intros e l E. split; [apply (front_back_values d Hr) with (l := l), E|].
    destruct (pop_back_spec d r e l Hr E) as (d' & H & _ & Hl). eauto.
Qed.

(** X9.  [insert(it, value)] on a reachable container checks ownership
    first ([invalid_iterator]), then the index ([index_out_of_bound]
    outside [[0, N]]), whatever the argument.  Otherwise, with an
    argument outside the container, it returns an iterator of this
    container at the index of [it] with an empty cache, and dereferencing
    that iterator on the container left behind designates a slot that
    holds that object.  With an argument that designates the element at
    index [k] of the container itself, the slot holds the element the
    call has read: the one of index [k], or of index [k - 1] when it
    lives in the receiving chunk behind [it]; and the call has no defined
    outcome when it lives in the receiving chunk and that chunk is
    full. *)
Theorem insert_checks_then_places this r it d :
  reachable this d ->
  (forall value, base_iterator.q it <> Some this ->
     insert_ref this r it value d = Throw invalid_iterator) /\
  (forall value, base_iterator.q it = Some this ->
     ~ (0 <= base_iterator.pos it <= size d) ->
     insert_ref this r it value d = Throw index_out_of_bound) /\
  (forall v, base_iterator.q it = Some this -> 0 <= base_iterator.pos it <= size d ->
     exists d',
       insert_ref this r it (outer v) d
         = Ok (base_iterator.make (Some this) (base_iterator.pos it), d') /\
       forall heap : gmap ptr (deque T), heap !! this = Some d' ->
         exists ref it',
           base_iterator.deref heap
             (base_iterator.make (Some this) (base_iterator.pos it)) = Ok (ref, it') /\
           load ref d' = Ok v) /\
  (forall k ci cj, base_iterator.q it = Some this ->
     0 <= base_iterator.pos it <= size d -> 0 <= k < size d ->
     access_ref k d = Ok (ci, cj) ->
     exists i off c,
       find_at_allow_end (base_iterator.pos it) d = Ok (i, off) /\ chunk_at i d = Ok c /\
       ((ci =? i) && Vector.full c = true ->
          insert_ref this r it (held ci cj) d = Undefined) /\
       ((ci =? i) && Vector.full c = false ->
          exists w d',
            access (if (ci =? i) && (base_iterator.pos it <? k) then k - 1 else k) d = Ok w /\
            insert_ref this r it (held ci cj) d
              = Ok (base_iterator.make (Some this) (base_iterator.pos it), d') /\
            forall heap : gmap ptr (deque T), heap !! this = Some d' ->
              exists ref it',
                base_iterator.deref heap
                  (base_iterator.make (Some this) (base_iterator.pos it)) = Ok (ref, it') /\
                load ref d' = Ok w)).
Proof.
  intros Hr. apply reachable_wf in Hr. pose proof (wf_size_nonneg d Hr) as Hn.
  unfold insert_ref, base_iterator.check_owns, base_iterator.owns.
  split; [|split; [|split]].
  - intros value Hq. rewrite bool_decide_eq_false_2 by congruence. reflexivity.
  - intros value Hq Hp. rewrite bool_decide_eq_true_2 by congruence.
    cbn [negb mbind result_bind]. unfold insert_at_ref.
    rewrite (throw_if_out_of_bound_past d _ Hn Hp). reflexivity.
  - intros v Hq Hp. rewrite bool_decide_eq_true_2 by congruence. cbn [negb mbind result_bind].
    destruct (insert_at_elements d r _ v Hr Hp) as (d' & H & Hw & Hs & _ & Hv & _).
    rewrite insert_at_outer, H. run_bind. exists d'. split; [reflexivity|].
    intros heap Hh. exact (deref_designates heap this d' _ v Hv Hh).
  - intros k ci cj Hq Hp Hk Hacc. rewrite bool_decide_eq_true_2 by congruence.
    cbn [negb mbind result_bind].
    destruct (insert_at_ref_elements d r _ k ci cj Hr Hp Hk Hacc)
      as (i & off & c & Hf & Hc & Hfull & Hfree).
    exists i, off, c. split; [exact Hf|]. split; [exact Hc|]. split.
    + intros Hb. rewrite (Hfull Hb). reflexivity.
    + intros Hb. destruct (Hfree Hb) as (w & d' & Hw & H & _ & _ & _ & Hv & _).
      exists w, d'. rewrite H. run_bind. split; [exact Hw|]. split; [reflexivity|].
      intros heap Hh. exact (deref_designates heap this d' _ w Hv Hh).
Qed.

(** X10.  [erase(it)] with an owned iterator at an index of [[0, N)]
    returns an iterator of this container at the same index, which now
    designates the element that followed the erased one, and is [end()]
    when the last element was erased. *)
Theorem erase_returns_successor this r it d :
  reachable this d ->
  base_iterator.q it = Some this -> 0 <= base_iterator.pos it < size d ->
  exists d',
    erase this r it d = Ok (base_iterator.make (Some this) (base_iterator.pos it), d') /\
    access (base_iterator.pos it) d' = access (base_iterator.pos it + 1) d /\
    (base_iterator.pos it = size d - 1 ->
       base_iterator.make (Some this) (base_iterator.pos it) = end_ this d').
Proof.
  intros Hr Hq Hp. apply reachable_wf in Hr.
  unfold erase, base_iterator.check_owns, base_iterator.owns.
  rewrite bool_decide_eq_true_2 by congruence. cbn [negb mbind result_bind].
  destruct (remove_at_elements d r _ Hr Hp) as (d' & H & _ & Hs & _ & _ & Hge).
  rewrite H. run_bind. exists d'. split; [reflexivity|]. split; [apply Hge; lia|].
  intros Hlast. unfold end_. rewrite Hs, Hlast. reflexivity.
Qed.

(** X11.  Dereferencing an iterator with an empty cache at an index of
    [[0, N)] of a live reachable container designates the slot that holds
    the element [access] returns for that index, and caches it: every
    later dereference returns the cached slot without consulting the
    container, whatever has become of it. *)
Theorem deref_reads_and_caches (heap : gmap ptr (deque T)) it p d :
  reachable p d -> heap !! p = Some d ->
  base_iterator.q it = Some p -> base_iterator.elem it = None ->
  0 <= base_iterator.pos it < size d ->
  exists ref it' w,
    base_iterator.deref heap it = Ok (ref, it') /\
    load ref d = Ok w /\ access (base_iterator.pos it) d = Ok w /\
    it' = {| base_iterator.q := Some p; base_iterator.elem := Some ref;
             base_iterator.pos := base_iterator.pos it |} /\
    forall heap' : gmap ptr (deque T), base_iterator.deref heap' it' = Ok (ref, it').
Proof.
  intros Hr Hh Hq He Hp. apply reachable_wf in Hr.
  destruct (access_ok d _ Hr Hp) as (w & _ & Ha).
  pose proof Ha as Hl. rewrite access_load in Hl.
  unfold base_iterator.deref, base_iterator.through. rewrite He, Hq, Hh.
  destruct (access_ref (base_iterator.pos it) d) as [ref| |]; try discriminate.
  run_bind. cbn [mbind result_bind] in Hl.
  eexists ref, _, w. split; [reflexivity|]. split; [exact Hl|]. split; [exact Ha|].
  split; [reflexivity|]. intros heap'. reflexivity.
Qed.

(** X12.  On a reachable container [empty()] holds exactly when the
    container has no element, that is when [size()] is 0, and it is what
    [begin() == end()] and [cbegin() == cend()] return; [!=] returns the
    opposite. *)
Theorem empty_iff this d :
  reachable this d ->
  (empty d = true <-> to_list d = []) /\
  (empty d = true <-> size d = 0) /\
  base_iterator.eqb (begin this d) (end_ this d) = empty d /\
  base_iterator.eqb (cbegin this d) (cend this d) = empty d /\
  base_iterator.neqb (begin this d) (end_ this d) = negb (empty d).
Proof.
  intros Hr. apply reachable_wf in Hr. pose proof (wf_size d Hr) as Hz.
  assert (base_iterator.eqb (begin this d) (end_ this d) = empty d) as He.
  { unfold base_iterator.eqb, begin, end_, empty, size.
    cbn [base_iterator.make base_iterator.q base_iterator.pos].
    rewrite bool_decide_eq_true_2 by reflexivity. apply Z.eqb_sym. }
  unfold base_iterator.neqb. rewrite He.
  repeat split; try reflexivity; try exact He; unfold empty, size in *.
  - intros H. apply Z.eqb_eq in H. destruct (to_list d); [reflexivity|simpl in Hz; lia].
  - intros H. apply Z.eqb_eq. rewrite H in Hz. simpl in Hz. lia.
  - apply Z.eqb_eq.
  - apply Z.eqb_eq.
Qed.

(** X13.  [clear()] returns on every state whose chunk table has a
    valid capacity and leaves a container that cannot be told from a
    freshly constructed one: the same single empty chunk of capacity
    512, size 0, valid capacities, and every [access] throws as on the
    fresh one. *)
Theorem clear_is_fresh d :
  vec_ok (x d) ->
  exists d0 d', construct = Ok d0 /\ clear d = Ok d' /\
    chunks d' = chunks d0 /\ empty d' = true /\ caps_ok d' /\ obs_eq d0 d'.
Proof.
  intros Hx. destruct (clear_as_fresh d) as (d' & H & Hs & Hc).
  eexists _, d'. split; [reflexivity|]. split; [exact H|]. split; [exact Hc|].
  split; [unfold empty; rewrite Hs; reflexivity|].
  split; [exact (clear_caps d d' Hx H)|].
  apply obs_eq_intro.
  - apply construct_wf. reflexivity.
  - split; [rewrite Hc; discriminate|]. rewrite Hs, Hc. reflexivity.
  - unfold to_list. rewrite Hc. reflexivity.
Qed.

(** X14.  On a table with valid capacities, at most [2^30] elements
    and a table capacity below [2^29], [split_chunk(i)] on a chunk of the
    table returns normally, replaces the chunk by its first half
    ([len / 2] elements, rounded down) followed by the rest, and keeps
    [_size] and the element sequence; [merge_chunk(i)] after it gives
    back a table with the chunk contents it had; the capacities stay
    valid throughout. *)
Theorem split_then_merge d i c :
  caps_ok d -> total_len (chunks d) <= 2 ^ 30 -> Vector._cap (x d) < 2 ^ 29 ->
  chunk_at i d = Ok c ->
  exists d1 d2 a b,
    split_chunk i d = Ok d1 /\
    chunk_at i d1 = Ok a /\ chunk_at (i + 1) d1 = Ok b /\
    Vector.size a = Vector.size c / 2 /\
    Vector.size b = Vector.size c - Vector.size c / 2 /\
    table_len d1 = table_len d + 1 /\ _size d1 = _size d /\ to_list d1 = to_list d /\
    merge_chunk i d1 = Ok d2 /\
    map Vector.buffer (chunks d2) = map Vector.buffer (chunks d) /\ _size d2 = _size d /\
    caps_ok d1 /\ caps_ok d2.
Proof.
  intros Hok Htot _ Hc. destruct (chunk_split_at d i c Hc) as (Hi & E & Hl).
  set (pre := take (Z.to_nat i) (chunks d)) in *.
  set (post := drop (S (Z.to_nat i)) (chunks d)) in *.
  destruct (split_chunk_middle d pre c post E) as (d1 & a & b & H1 & Hs1 & E1 & Ha & Hb).
  destruct (merge_chunk_middle d1 pre a b post E1) as (d2 & ab & H2 & Hs2 & E2 & Hab).
  destruct (split_chunk_roomy d pre c post E (conj Hok Htot)) as (d1' & H1' & Hr1).
  rewrite H1 in H1'. injection H1' as <-.
  destruct (merge_chunk_roomy d1 pre a b post E1 Hr1) as (d2' & H2' & Hr2).
  rewrite H2 in H2'. injection H2' as <-.
  rewrite Hl in H1, H2.
  exists d1, d2, a, b. split; [exact H1|].
  split; [rewrite <- Hl; apply (chunk_middle d1 pre a (b :: post) E1)|].
  split.
  { rewrite <- Hl, <- (length_snoc_Z pre a). eapply chunk_middle.
    rewrite <- app_assoc. exact E1. }
  split; [apply (size_take_half c a Ha)|]. split; [apply (size_drop_half c b Hb)|].
  split; [unfold table_len; rewrite E1, E, !length_app; simpl; lia|].
  split; [exact Hs1|].
  split; [apply (same_split d d1 pre c a b post _ E E1 Hs1 Ha Hb)|].
  split; [exact H2|].
  split; [rewrite E2, E, !map_app; simpl; rewrite Hab, Ha, Hb, take_drop; reflexivity|].
  split; [congruence|]. split; [exact (proj1 Hr1)|exact (proj1 Hr2)].
Qed.

(** X15.  As long as the products cannot overflow (a total of at most
    5792 and fewer than [2^28] elements), a total for which
    [should_merge] holds is not one for which [should_split] holds: a
    merged chunk is never due for a split, and the halves of a split are
    never due for a merge. *)
Theorem split_merge_exclusive d total :
  0 <= total <= 5792 -> 0 <= _size d < 2 ^ 28 ->
  should_merge total d = true -> should_split total d = false.
Proof.
  intros Ht Hn Hm. unfold should_merge, should_split in *.
  rewrite (wrap_small (total * total)) in * by nia.
  rewrite wrap_small in Hm by nia. rewrite (wrap_small (_size d * 8)) by lia.
  apply Z.leb_le in Hm. apply andb_false_iff. right. rewrite Z.gtb_ltb. apply Z.ltb_ge. nia.
Qed.

(** X16.  [gc()] leaves the container exactly as it is when no chunk
    before the last is empty, [should_split] holds for no chunk and
    [should_merge] for no adjacent pair. *)
Theorem gc_fixed_point d :
  (forall (i : nat) c, chunks d !! i = Some c -> (S i < length (chunks d))%nat ->
     Vector.size c <> 0) ->
  Forall (fun c => should_split (Vector.size c) d = false) (chunks d) ->
  (forall (i : nat) a b, chunks d !! i = Some a -> chunks d !! S i = Some b ->
     should_merge (Vector.size a + Vector.size b) d = false) ->
  gc d = Ok d.
Proof.
  intros Hne Hsp Hmg. unfold gc.
  assert (clear_zero d = Ok d) as ->.
  { unfold clear_zero. destruct (_ <=? _) eqn:Hle; [reflexivity|].
    destruct (clear_zero_loop_rule (fun _ d' => d' = d)) with
      (budget := length (chunks d)) (i := 0) (d := d) as (d' & i' & H & ->).
    - intros i d1 x' pre c post -> E Hi Hp Hc E'. exfalso.
      apply (Hne (length pre) c).
      + rewrite E. apply list_lookup_middle. reflexivity.
      + rewrite E, length_app. destruct post; [done|]. simpl. lia.
      + unfold Vector.size, Vector._size. rewrite Hc. reflexivity.
    - auto.
    - lia.
    - apply Z.leb_gt in Hle. unfold Vector.size, Vector._size in Hle. fold (chunks d) in Hle. lia.
    - unfold table_len. lia.
    - reflexivity.
    - exact H. }
  run_bind.
  assert (gc_split_loop (S (length (Vector.buffer (x d)))) 0 d = Ok d) as ->.
  { destruct (gc_split_loop_rule (fun _ d' => d' = d)) with
      (budget := S (length (chunks d))) (i := 0) (d := d) as (d' & i' & H & -> & _).
    - intros i d1 d2 pre c a b post -> E Hi Hs. exfalso.
      rewrite E in Hsp. apply Forall_app in Hsp as [_ Hsp].
      apply Forall_cons in Hsp as [Hc _]. congruence.
    - auto.
    - lia.
    - lia.
    - unfold table_len. lia.
    - reflexivity.
    - exact H. }
  run_bind.
  destruct (gc_merge_loop_rule (fun _ d' => d' = d)) with
    (budget := S (length (chunks d))) (i := 0) (d := d) as (d' & i' & H & -> & _).
  - intros i d1 d2 pre a b ab post -> E Hi Hm. exfalso.
    rewrite (Hmg (length pre) a b) in Hm; [discriminate| |].
    + rewrite E. apply list_lookup_middle. reflexivity.
    + rewrite E, (cons_middle a pre), app_assoc.
      apply list_lookup_middle. rewrite length_app. simpl. lia.
  - auto.
  - lia.
  - lia.
  - unfold table_len. lia.
  - reflexivity.
  - exact H.
Qed.

End ContainerStatements.

(** ** Statements on iterators *)

Section IteratorStatements.
Context {T : Type}.
Implicit Types (d : deque T) (p : ptr) (it rhs self : iterator) (heap : gmap ptr (deque T)).

Lemma construct_live heap p d (pos : Z) (e : option (Z * Z)) :
  heap !! p = Some d -> 0 <= size d ->
  base_iterator.construct heap
    {| base_iterator.q := Some p; base_iterator.elem := e; base_iterator.pos := pos |}
  = if (0 <=? pos) && (pos <=? size d)
    then Ok (base_iterator.make (Some p) pos)
    else Throw index_out_of_bound.
Proof.
  intros Hh Hn. unfold base_iterator.construct, base_iterator.valid, base_iterator.through.
  cbn [base_iterator.q base_iterator.pos]. rewrite Hh.
  destruct (Z.leb_spec 0 pos); destruct (Z.leb_spec pos (size d)); cbn [andb].
  - rewrite throw_if_out_of_bound_end by lia. reflexivity.
  - rewrite throw_if_out_of_bound_past by lia. reflexivity.
  - rewrite throw_if_out_of_bound_past by lia. reflexivity.
  - rewrite throw_if_out_of_bound_past by lia. reflexivity.
Qed.

Lemma construct_null heap (pos : Z) (e : option (Z * Z)) :
  base_iterator.construct heap
    {| base_iterator.q := None; base_iterator.elem := e; base_iterator.pos := pos |}
  = Throw invalid_iterator.
Proof. reflexivity. Qed.

Lemma in_range_true (a n : Z) : 0 <= a <= n -> (0 <=? a) && (a <=? n) = true.
Proof. intros H. apply andb_true_iff. split; apply Z.leb_le; lia. Qed.

Lemma in_range_false (a n : Z) : ~ (0 <= a <= n) -> (0 <=? a) && (a <=? n) = false.
Proof.
  intros H. apply andb_false_iff.
  destruct (Z.leb_spec 0 a); [|auto]. right. apply Z.leb_gt. lia.
Qed.

Lemma plus_live heap p d (k : Z) (jt : iterator) :
  heap !! p = Some d -> 0 <= size d -> base_iterator.q jt = Some p ->
  base_iterator.plus heap k jt
  = if (0 <=? base_iterator.pos jt + k) && (base_iterator.pos jt + k <=? size d)
    then Ok (base_iterator.make (Some p) (base_iterator.pos jt + k))
    else Throw index_out_of_bound.
Proof.
  intros Hh Hn Hj. unfold base_iterator.plus, base_iterator.make. rewrite Hj.
  apply (construct_live heap p d _ _ Hh Hn).
Qed.

(** X17.  [it + n] throws [invalid_iterator] when the container pointer
    of [it] is null.  For an iterator of a live container it looks only
    at the target index [pos + n]: inside [[0, N]], the end included, it
    returns an iterator there with an empty cache, and outside it (but
    inside the [int] range) throws [index_out_of_bound].  [it - n] is
    [it + (-n)], and [++it], [--it] give what [it + 1], [it - 1] give. *)
Theorem iterator_motion heap it (n : Z) :
  (base_iterator.q it = None ->
     base_iterator.plus heap n it = Throw invalid_iterator) /\
  (forall p d, base_iterator.q it = Some p -> heap !! p = Some d -> 0 <= size d ->
     (0 <= base_iterator.pos it + n <= size d ->
        base_iterator.plus heap n it
          = Ok (base_iterator.make (Some p) (base_iterator.pos it + n))) /\
     (~ (0 <= base_iterator.pos it + n <= size d) ->
      - 2 ^ 31 <= base_iterator.pos it + n < 2 ^ 31 ->
        base_iterator.plus heap n it = Throw index_out_of_bound)) /\
  base_iterator.minus heap n it = base_iterator.plus heap (- n) it /\
  base_iterator.incr heap it = base_iterator.plus heap 1 it /\
  base_iterator.decr heap it = base_iterator.minus heap 1 it.
Proof.
  split; [|split; [|split; [|split]]].
  - intros Hq. unfold base_iterator.plus, base_iterator.make. rewrite Hq. reflexivity.
  - intros p d Hq Hh Hn. unfold base_iterator.plus, base_iterator.make. rewrite Hq.
    rewrite (construct_live heap p d _ _ Hh Hn). split.
    + intros Hr. rewrite in_range_true by exact Hr. reflexivity.
    + intros Hr _. rewrite in_range_false by exact Hr. reflexivity.
  - unfold base_iterator.minus, base_iterator.plus. rewrite Z.add_opp_r. reflexivity.
  - reflexivity.
  - reflexivity.
Qed.

(** X18.  On a live container, from a valid iterator, moving by [n] to
    an index of [[0, N]] and back by [n] returns to the index it started
    from, and two moves that stay inside [[0, N]] add up: they give what
    one move by [n + m] gives, an iterator at [pos + n + m]. *)
Theorem motion_composes heap it p d (n m : Z) :
  base_iterator.q it = Some p -> heap !! p = Some d -> 0 <= size d ->
  0 <= base_iterator.pos it <= size d ->
  0 <= base_iterator.pos it + n <= size d ->
  (it1 ← base_iterator.plus heap n it; base_iterator.minus heap n it1)
  = Ok (base_iterator.make (Some p) (base_iterator.pos it)) /\
  (0 <= base_iterator.pos it + n + m <= size d ->
     (it1 ← base_iterator.plus heap n it; base_iterator.plus heap m it1)
     = base_iterator.plus heap (n + m) it /\
     base_iterator.plus heap (n + m) it
     = Ok (base_iterator.make (Some p) (base_iterator.pos it + n + m))).
Proof.
  intros Hq Hh Hn H0 Hr.
  rewrite (plus_live heap p d n it Hh Hn Hq), in_range_true by exact Hr. run_bind. split.
  - unfold base_iterator.minus.
    cbn [base_iterator.make base_iterator.q base_iterator.pos].
    unfold base_iterator.make at 1.
    rewrite (construct_live heap p d _ _ Hh Hn).
    replace (base_iterator.pos it + n - n) with (base_iterator.pos it) by lia.
    rewrite in_range_true by exact H0. reflexivity.
  - intros Hm.
    rewrite (plus_live heap p d m (base_iterator.make (Some p) (base_iterator.pos it + n))
               Hh Hn eq_refl).
    rewrite (plus_live heap p d (n + m) it Hh Hn Hq).
    cbn [base_iterator.make base_iterator.pos]. rewrite Z.add_assoc.
    rewrite in_range_true by exact Hm. split; reflexivity.
Qed.

(** X19.  [++it] on the end iterator of a live container throws
    [index_out_of_bound] after the index has been moved: the iterator is
    left at [N + 1] with an empty cache, and so does [it++]; a following
    [--it] succeeds and brings it back to [N].  [it += 1] throws the same
    error and leaves the iterator as it was. *)
Theorem failed_increment_moves heap it p d :
  base_iterator.q it = Some p -> heap !! p = Some d -> 0 <= size d ->
  base_iterator.pos it = size d ->
  let moved := {| base_iterator.q := Some p; base_iterator.elem := None;
                  base_iterator.pos := size d + 1 |} in
  base_iterator.pre_incr heap it = (moved, Throw index_out_of_bound) /\
  base_iterator.post_incr heap it = (moved, Throw index_out_of_bound) /\
  base_iterator.pre_decr heap moved = (base_iterator.make (Some p) (size d), Ok tt) /\
  base_iterator.plus_assign heap 1 it = (it, Throw index_out_of_bound).
Proof.
  intros Hq Hh Hn Hp moved.
  assert (forall k (e : option (Z * Z)), ~ (0 <= k <= size d) ->
            base_iterator.valid heap
              {| base_iterator.q := Some p; base_iterator.elem := e; base_iterator.pos := k |}
            = Throw index_out_of_bound) as Hbad.
  { intros k e Hk. unfold base_iterator.valid, base_iterator.through.
    cbn [base_iterator.q base_iterator.pos]. rewrite Hh.
    rewrite throw_if_out_of_bound_past by (auto; lia). reflexivity. }
  assert (base_iterator.pre_incr heap it = (moved, Throw index_out_of_bound)) as H1.
  { unfold base_iterator.pre_incr. rewrite Hq, Hp, Hbad by lia. reflexivity. }
  split; [exact H1|]. split; [|split].
  - unfold base_iterator.post_incr. rewrite H1. reflexivity.
  - unfold base_iterator.pre_decr, moved, base_iterator.valid, base_iterator.through.
    cbn [base_iterator.q base_iterator.pos]. rewrite Hh.
    replace (size d + 1 - 1) with (size d) by lia.
    rewrite throw_if_out_of_bound_end by lia. reflexivity.
  - unfold base_iterator.plus_assign, base_iterator.make. rewrite Hq.
    rewrite (construct_live heap p d _ _ Hh Hn), in_range_false by lia. reflexivity.
Qed.

(** X20.  [self - rhs] first validates [self] (a null container gives
    [invalid_iterator], an index outside [[0, N]] gives
    [index_out_of_bound]) and only then compares the containers
    ([invalid_iterator] when they differ); [rhs] is not validated.  For
    iterators of one container it returns the difference of the indices
    (as long as it is inside the [int] range), so [end() - begin()] is
    [size()] and [(begin() + i) - begin()] is [i]. *)
Theorem distance_spec heap p d rhs self :
  heap !! p = Some d -> 0 <= size d -> base_iterator.q self = Some p ->
  (~ (0 <= base_iterator.pos self <= size d) ->
     base_iterator.distance heap rhs self = Throw index_out_of_bound) /\
  (0 <= base_iterator.pos self <= size d -> base_iterator.q rhs <> Some p ->
     base_iterator.distance heap rhs self = Throw invalid_iterator) /\
  (0 <= base_iterator.pos self <= size d -> base_iterator.q rhs = Some p ->
   - 2 ^ 31 <= base_iterator.pos self - base_iterator.pos rhs < 2 ^ 31 ->
     base_iterator.distance heap rhs self
       = Ok (base_iterator.pos self - base_iterator.pos rhs,
             base_iterator.make (Some p) (base_iterator.pos self))) /\
  base_iterator.distance heap (begin p d) (end_ p d) = Ok (size d, end_ p d) /\
  (forall i, 0 <= i <= size d ->
     (it ← base_iterator.plus heap i (begin p d);
      base_iterator.distance heap (begin p d) it)
     = Ok (i, base_iterator.make (Some p) i)).
Proof.
  intros Hh Hn Hq.
  assert (forall (jt kt : iterator), base_iterator.q jt = Some p ->
            base_iterator.distance heap kt jt
            = if (0 <=? base_iterator.pos jt) && (base_iterator.pos jt <=? size d)
              then if bool_decide (base_iterator.q kt = Some p)
                   then Ok (base_iterator.pos jt - base_iterator.pos kt,
                            base_iterator.make (Some p) (base_iterator.pos jt))
                   else Throw invalid_iterator
              else Throw index_out_of_bound) as Hd.
  { intros jt kt Hj. unfold base_iterator.distance. destruct jt as [qj ej pj].
    cbn [base_iterator.q base_iterator.pos] in *. subst qj.
    rewrite (construct_live heap p d _ _ Hh Hn).
    destruct ((0 <=? pj) && (pj <=? size d)); [|reflexivity]. run_bind.
    unfold base_iterator.check_owns, base_iterator.owns.
    cbn [base_iterator.make base_iterator.q base_iterator.pos].
    destruct (bool_decide (base_iterator.q kt = Some p)); reflexivity. }
  split; [|split; [|split; [|split]]].
  - intros Hr. rewrite (Hd self rhs Hq), in_range_false by exact Hr. reflexivity.
  - intros Hr Hne. rewrite (Hd self rhs Hq), in_range_true by exact Hr.
    rewrite bool_decide_eq_false_2 by exact Hne. reflexivity.
  - intros Hr He _. rewrite (Hd self rhs Hq), in_range_true by exact Hr.
    rewrite bool_decide_eq_true_2 by exact He. reflexivity.
  - rewrite (Hd (end_ p d) (begin p d) eq_refl).
    unfold end_, begin. cbn [base_iterator.make base_iterator.q base_iterator.pos].
    rewrite in_range_true by lia. rewrite bool_decide_eq_true_2 by reflexivity.
    rewrite Z.sub_0_r. reflexivity.
  - intros i Hi. rewrite (plus_live heap p d i (begin p d) Hh Hn eq_refl).
    unfold begin. cbn [base_iterator.make base_iterator.pos]. rewrite Z.add_0_l.
    rewrite in_range_true by exact Hi. run_bind.
    rewrite (Hd (base_iterator.make (Some p) i) (base_iterator.make (Some p) 0) eq_refl).
    cbn [base_iterator.make base_iterator.q base_iterator.pos].
    rewrite in_range_true by exact Hi. rewrite bool_decide_eq_true_2 by reflexivity.
    rewrite Z.sub_0_r. reflexivity.
Qed.

End IteratorStatements.

Lemma balanced_run : run 1%positive balanced_ops = Ok balanced.
Proof. vm_compute. reflexivity. Qed.

(** ** The further statements at concrete values *)

Lemma fit_smallest_power_witness :
  exists k, 9 <= k <= 30 /\ Vector.fit 1000 = 2 ^ k /\ 1000 <= Vector.fit 1000 /\
    (k = 9 \/ 2 ^ (k - 1) < 1000).
Proof. apply (fit_smallest_power 1000). vm_compute. discriminate. Defined.

Lemma vector_insert_then_erase_witness :
  (exists v' v'',
     Vector.insert_ref 1 (Vector.outside 9) small_vec = Ok v' /\
     Vector._size v' = Vector._size small_vec + 1 /\
     Vector.get 1 v' = Ok 9 /\
     (forall i, 0 <= i < 1 -> Vector.get i v' = Vector.get i small_vec) /\
     (forall i, 1 <= i -> Vector.get (i + 1) v' = Vector.get i small_vec) /\
     Vector.erase 1 v' = Ok v'' /\
     Vector.buffer v'' = Vector.buffer small_vec) /\
  (exists v', Vector.insert_ref 1 (Vector.inside 2) small_vec = Ok v' /\
     Vector.get 2 small_vec = Ok 3 /\ Vector.get 1 v' = Ok 2) /\
  Vector.insert_ref 0 (Vector.inside 3) full_vec = Undefined.
Proof.
  assert (vec_ok small_vec) as Hs.
  { split; [exists 9; split; [lia|reflexivity]|]. vm_compute. discriminate. }
  assert (vec_ok full_vec) as Hf.
  { split; [exists 9; split; [lia|reflexivity]|]. vm_compute. discriminate. }
  destruct (vector_insert_then_erase small_vec 1 9 Hs) as [H1 H2];
    [reflexivity|vm_compute; split; discriminate|].
  destruct (vector_insert_then_erase full_vec 0 9 Hf) as [_ H3];
    [reflexivity|vm_compute; split; discriminate|].
  split; [exact H1|]. split.
  - destruct (H2 2) as [_ H]; [vm_compute; split; [discriminate|reflexivity]|].
    destruct H as (w & v' & Hw & Hi & _ & Hg & _); [reflexivity|].
    exists v'. split; [exact Hi|]. split; [reflexivity|].
    rewrite Hg, <- Hw. reflexivity.
  - destruct (H3 3) as [H _]; [vm_compute; split; [discriminate|reflexivity]|].
    apply H. reflexivity.
Defined.

Lemma vector_capacity_policy_witness :
  (vec_ok full_vec_grown /\
   (Vector._cap full_vec_grown = Vector._cap full_vec \/
    Vector._size full_vec = Vector._cap full_vec /\
    Vector._cap full_vec_grown = 2 * Vector._cap full_vec)) /\
  (vec_ok sparse_vec_shrunk /\
   (Vector._cap sparse_vec_shrunk = Vector._cap sparse_vec \/
    2048 <= Vector._cap sparse_vec /\
    4 * Vector._size sparse_vec_shrunk < Vector._cap sparse_vec /\
    4 * Vector._cap sparse_vec_shrunk = Vector._cap sparse_vec)).
Proof.
  split.
  - apply (vector_capacity_policy full_vec full_vec_grown 0 7).
    + split; [exists 9; split; [lia|reflexivity]|]. vm_compute. discriminate.
    + reflexivity.
    + vm_compute. reflexivity.
  - apply (vector_capacity_policy sparse_vec sparse_vec_shrunk 0 0).
    + split; [exists 11; split; [lia|reflexivity]|]. vm_compute. discriminate.
    + reflexivity.
    + vm_compute. reflexivity.
Defined.

Lemma capacities_fit_witness : caps_ok drained.
Proof.
  apply (capacities_fit 1%positive (rev drain_ops) drained).
  - apply run_history, drained_run.
  - reflexivity.
Defined.

Lemma locator_spec_witness :
  (exists i off c, find_at 3 drained = Ok (i, off) /\ chunk_at i drained = Ok c /\
     0 <= off < Vector.size c /\
     total_len (take (Z.to_nat i) (chunks drained)) + off = 3) /\
  (exists i off c, find_at_allow_end 8 drained = Ok (i, off) /\ chunk_at i drained = Ok c /\
     0 <= off <= Vector.size c /\
     total_len (take (Z.to_nat i) (chunks drained)) + off = 8).
Proof.
  split.
  - apply (locator_spec 1%positive drained 3 drained_reachable).
    change (size drained) with 8. lia.
  - apply (locator_spec 1%positive drained 8 drained_reachable).
    change (size drained) with 8. lia.
Defined.

Lemma insert_at_shifts_witness :
  (exists d', insert_at_ref 0 2 (outer 99) alternation = Ok (2, d') /\
     size d' = size alternation + 1 /\
     access 2 d' = Ok 99 /\
     (forall j, 0 <= j < 2 -> access j d' = access j alternation) /\
     (forall j, 2 <= j -> access (j + 1) d' = access j alternation)) /\
  (exists d', access 3 alternation = Ok 40 /\
     insert_at_ref 0 0 (held 0 3) alternation = Ok (0, d') /\ access 0 d' = Ok 20) /\
  insert_at_ref 0 5 (outer 99) alternation = Throw index_out_of_bound.
Proof.
  destruct (insert_at_shifts 1%positive alternation 0 2 alternation_reachable) as (H1 & _ & _).
  destruct (insert_at_shifts 1%positive alternation 0 0 alternation_reachable) as (_ & H2 & _).
  destruct (insert_at_shifts 1%positive alternation 0 5 alternation_reachable) as (_ & _ & H3).
  split; [|split].
  - apply H1. change (size alternation) with 4. lia.
  - destruct (H2 3 0 3) as (i & off & c & Hf & Hc & _ & H);
      [change (size alternation) with 4; lia|change (size alternation) with 4; lia
      |reflexivity|].
    vm_compute in Hf. injection Hf as <- <-. vm_compute in Hc. injection Hc as <-.
    destruct H as (w & d' & Hw & Hi & _ & Hv & _); [reflexivity|].
    vm_compute in Hw. injection Hw as <-.
    exists d'. split; [reflexivity|]. split; [exact Hi|exact Hv].
  - apply H3. change (size alternation) with 4. lia.
Defined.

Lemma remove_at_shifts_witness :
  (exists d', remove_at 0 1 alternation = Ok (1, d') /\
     size d' = size alternation - 1 /\
     (forall j, 0 <= j < 1 -> access j d' = access j alternation) /\
     (forall j, 1 <= j -> access j d' = access (j + 1) alternation)) /\
  remove_at 0 4 alternation = Throw index_out_of_bound.
Proof.
  split.
  - apply (remove_at_shifts 1%positive alternation 0 1 alternation_reachable).
    change (size alternation) with 4. lia.
  - apply (remove_at_shifts 1%positive alternation 0 4 alternation_reachable).
    change (size alternation) with 4. lia.
Defined.

Lemma ends_spec_witness :
  (exists d', push_back_ref 0 (outer 50) alternation = Ok d' /\
     to_list d' = to_list alternation ++ [50] /\ back d' = Ok 50) /\
  (exists d', push_front_ref 0 (outer 50) alternation = Ok d' /\
     to_list d' = 50 :: to_list alternation /\ front d' = Ok 50) /\
  (back alternation = Ok 40 /\
   exists d', push_front_ref 0 (held 0 3) alternation = Ok d' /\
     to_list d' = [20; 30; 10; 20; 40]) /\
  (front alternation = Ok 30 /\
   exists d', push_back_ref 0 (held 0 0) alternation = Ok d' /\
     to_list d' = [30; 10; 20; 40; 30]) /\
  (front alternation = Ok 30 /\
     exists d', pop_front 0 alternation = Ok d' /\ to_list d' = [10; 20; 40]) /\
  (back alternation = Ok 40 /\
     exists d', pop_back 0 alternation = Ok d' /\ to_list d' = [30; 10; 20]).
Proof.
  destruct (ends_spec 1%positive alternation 0 alternation_reachable)
    as (H1 & H2 & H3 & H4 & H5 & H6).
  split; [exact (H1 50)|]. split; [exact (H2 50)|].
  split; [split; [reflexivity|]|split; [split; [reflexivity|]|split]].
  - destruct (H4 3 0 3) as (i & off & c & Hf & Hc & _ & H);
      [change (size alternation) with 4; lia|reflexivity|].
    vm_compute in Hf. injection Hf as <- <-. vm_compute in Hc. injection Hc as <-.
    destruct H as (w & d' & Hw & Hi & Hl); [reflexivity|].
    vm_compute in Hw. injection Hw as <-.
    exists d'. split; [exact Hi|exact Hl].
  - destruct (H3 0 0 0) as (i & off & c & Hf & Hc & _ & H);
      [change (size alternation) with 4; lia|reflexivity|].
    vm_compute in Hf. injection Hf as <- <-. vm_compute in Hc. injection Hc as <-.
    destruct H as (w & d' & Hw & Hi & Hl); [reflexivity|].
    vm_compute in Hw. injection Hw as <-.
    exists d'. split; [exact Hi|exact Hl].
  - apply (H5 30 [10; 20; 40]). reflexivity.
  - apply (H6 40 [30; 10; 20]). reflexivity.
Defined.

Lemma insert_checks_then_places_witness :
  insert_ref 1%positive 0 (base_iterator.make (Some 2%positive) 2) (outer 99) alternation
    = Throw invalid_iterator /\
  insert_ref 1%positive 0 (base_iterator.make (Some 1%positive) 5) (outer 99) alternation
    = Throw index_out_of_bound /\
  (exists d',
    insert_ref 1%positive 0 (base_iterator.make (Some 1%positive) 2) (outer 99) alternation
      = Ok (base_iterator.make (Some 1%positive) 2, d') /\
    forall heap : gmap ptr (deque Z), heap !! 1%positive = Some d' ->
      exists ref it',
        base_iterator.deref heap (base_iterator.make (Some 1%positive) 2) = Ok (ref, it') /\
        load ref d' = Ok 99) /\
  (exists d',
    access 3 alternation = Ok 40 /\
    insert_ref 1%positive 0 (base_iterator.make (Some 1%positive) 2) (held 0 3) alternation
      = Ok (base_iterator.make (Some 1%positive) 2, d') /\
    forall heap : gmap ptr (deque Z), heap !! 1%positive = Some d' ->
      exists ref it',
        base_iterator.deref heap (base_iterator.make (Some 1%positive) 2) = Ok (ref, it') /\
        load ref d' = Ok 20).
Proof.
  destruct (insert_checks_then_places 1%positive 0
              (base_iterator.make (Some 2%positive) 2) alternation alternation_reachable)
    as (H1 & _).
  destruct (insert_checks_then_places 1%positive 0
              (base_iterator.make (Some 1%positive) 5) alternation alternation_reachable)
    as (_ & H2 & _).
  destruct (insert_checks_then_places 1%positive 0
              (base_iterator.make (Some 1%positive) 2) alternation alternation_reachable)
    as (_ & _ & H3 & H4).
  split; [|split; [|split]].
  - apply H1. simpl. discriminate.
  - apply H2; [reflexivity|]. change (size alternation) with 4. simpl. lia.
  - apply H3; [reflexivity|]. change (size alternation) with 4. simpl. lia.
  - destruct (H4 3 0 3) as (i & off & c & Hf & Hc & _ & H);
      [reflexivity|change (size alternation) with 4; simpl; lia
      |change (size alternation) with 4; lia|reflexivity|].
    vm_compute in Hf. injection Hf as <- <-. vm_compute in Hc. injection Hc as <-.
    destruct H as (w & d' & Hw & Hi & Hd); [reflexivity|].
    vm_compute in Hw. injection Hw as <-.
    exists d'. split; [reflexivity|]. split; [exact Hi|exact Hd].
Defined.

Lemma erase_returns_successor_witness :
  exists d',
    erase 1%positive 0 (base_iterator.make (Some 1%positive) 3) alternation
      = Ok (base_iterator.make (Some 1%positive) 3, d') /\
    access 3 d' = access (3 + 1) alternation /\
    (3 = size alternation - 1 -> base_iterator.make (Some 1%positive) 3 = end_ 1%positive d').
Proof.
  apply (erase_returns_successor 1%positive 0 (base_iterator.make (Some 1%positive) 3)
           alternation alternation_reachable).
  - reflexivity.
  - change (size alternation) with 4. simpl. lia.
Defined.

Lemma deref_reads_and_caches_witness :
  exists ref it' w,
    base_iterator.deref one_heap (base_iterator.make (Some 1%positive) 2) = Ok (ref, it') /\
    load ref alternation = Ok w /\ access 2 alternation = Ok w /\
    it' = {| base_iterator.q := Some 1%positive; base_iterator.elem := Some ref;
             base_iterator.pos := 2 |} /\
    forall heap' : gmap ptr (deque Z), base_iterator.deref heap' it' = Ok (ref, it').
Proof.
  apply (deref_reads_and_caches one_heap (base_iterator.make (Some 1%positive) 2)
           1%positive alternation alternation_reachable one_heap_lookup).
  - reflexivity.
  - reflexivity.
  - change (size alternation) with 4. simpl. lia.
Defined.

Lemma empty_iff_witness :
  (empty alternation = true <-> to_list alternation = []) /\
  (empty alternation = true <-> size alternation = 0) /\
  base_iterator.eqb (begin 1%positive alternation) (end_ 1%positive alternation)
    = empty alternation /\
  base_iterator.eqb (cbegin 1%positive alternation) (cend 1%positive alternation)
    = empty alternation /\
  base_iterator.neqb (begin 1%positive alternation) (end_ 1%positive alternation)
    = negb (empty alternation).
Proof. apply (empty_iff 1%positive alternation alternation_reachable). Defined.

Lemma clear_is_fresh_witness :
  exists d0 d', construct = Ok d0 /\ clear alternation = Ok d' /\
    chunks d' = chunks d0 /\ empty d' = true /\ caps_ok d' /\ obs_eq d0 d'.
Proof.
  apply (clear_is_fresh alternation).
  split; [exists 9; split; [lia|reflexivity]|]. vm_compute. discriminate.
Defined.

Lemma split_then_merge_witness :
  exists d1 d2 a b,
    split_chunk 0 balanced = Ok d1 /\
    chunk_at 0 d1 = Ok a /\ chunk_at (0 + 1) d1 = Ok b /\
    Vector.size a = Vector.size balanced_first / 2 /\
    Vector.size b = Vector.size balanced_first - Vector.size balanced_first / 2 /\
    table_len d1 = table_len balanced + 1 /\ _size d1 = _size balanced /\
    to_list d1 = to_list balanced /\
    merge_chunk 0 d1 = Ok d2 /\
    map Vector.buffer (chunks d2) = map Vector.buffer (chunks balanced) /\
    _size d2 = _size balanced /\
    caps_ok d1 /\ caps_ok d2.
Proof.
  apply (split_then_merge balanced 0 balanced_first).
  - apply (history_caps 1%positive (rev balanced_ops) balanced).
    + apply run_history, balanced_run.
    + vm_compute. discriminate.
  - vm_compute. discriminate.
  - reflexivity.
  - reflexivity.
Defined.

Lemma split_merge_exclusive_witness :
  should_merge (8 + 8) packed = true /\ should_split (8 + 8) packed = false.
Proof.
  split; [reflexivity|].
  apply (split_merge_exclusive packed (8 + 8)).
  - lia.
  - vm_compute. split; [discriminate|reflexivity].
  - reflexivity.
Defined.

Lemma gc_fixed_point_witness : gc balanced = Ok balanced.
Proof.
  apply (gc_fixed_point balanced).
  - intros i c H Hlt. destruct i as [|i]; [|simpl in Hlt; lia].
    injection H as <-. vm_compute. discriminate.
  - repeat constructor.
  - intros i a b Ha Hb. destruct i as [|i].
    + injection Ha as <-. injection Hb as <-. reflexivity.
    + destruct i; discriminate.
Defined.

Lemma iterator_motion_witness :
  base_iterator.plus one_heap 2 (base_iterator.default) = Throw invalid_iterator /\
  base_iterator.plus one_heap 4 (begin 1%positive alternation)
    = Ok (base_iterator.make (Some 1%positive) (0 + 4)) /\
  base_iterator.plus one_heap 5 (begin 1%positive alternation) = Throw index_out_of_bound.
Proof.
  split; [|split].
  - destruct (iterator_motion one_heap base_iterator.default 2) as (H & _).
    apply H. reflexivity.
  - destruct (iterator_motion one_heap (begin 1%positive alternation) 4) as (_ & H & _).
    destruct (H 1%positive alternation) as (H1 & _).
    + reflexivity.
    + exact one_heap_lookup.
    + vm_compute. discriminate.
    + apply H1. change (size alternation) with 4. simpl. lia.
  - destruct (iterator_motion one_heap (begin 1%positive alternation) 5) as (_ & H & _).
    destruct (H 1%positive alternation) as (_ & H2).
    + reflexivity.
    + exact one_heap_lookup.
    + vm_compute. discriminate.
    + apply H2; change (size alternation) with 4; simpl; lia.
Defined.

Lemma motion_composes_witness :
  (it1 ← base_iterator.plus one_heap 3 (base_iterator.make (Some 1%positive) 1);
   base_iterator.minus one_heap 3 it1)
  = Ok (base_iterator.make (Some 1%positive) 1) /\
  (it1 ← base_iterator.plus one_heap 3 (base_iterator.make (Some 1%positive) 1);
   base_iterator.plus one_heap (-2) it1)
  = base_iterator.plus one_heap (3 + -2) (base_iterator.make (Some 1%positive) 1) /\
  base_iterator.plus one_heap (3 + -2) (base_iterator.make (Some 1%positive) 1)
  = Ok (base_iterator.make (Some 1%positive) (1 + 3 + -2)).
Proof.
  destruct (motion_composes one_heap (base_iterator.make (Some 1%positive) 1)
              1%positive alternation 3 (-2)) as [H1 H2].
  - reflexivity.
  - exact one_heap_lookup.
  - vm_compute. discriminate.
  - change (size alternation) with 4. simpl. lia.
  - change (size alternation) with 4. simpl. lia.
  - split; [exact H1|]. apply H2. change (size alternation) with 4. simpl. lia.
Defined.

Lemma failed_increment_moves_witness :
  base_iterator.pre_incr one_heap (end_ 1%positive alternation)
    = ({| base_iterator.q := Some 1%positive; base_iterator.elem := None;
          base_iterator.pos := size alternation + 1 |}, Throw index_out_of_bound) /\
  base_iterator.plus_assign one_heap 1 (end_ 1%positive alternation)
    = (end_ 1%positive alternation, Throw index_out_of_bound).
Proof.
  destruct (failed_increment_moves one_heap (end_ 1%positive alternation)
              1%positive alternation) as (H1 & _ & _ & H4).
  - reflexivity.
  - exact one_heap_lookup.
  - vm_compute. discriminate.
  - reflexivity.
  - split; [exact H1|exact H4].
Defined.

Lemma distance_spec_witness :
  base_iterator.distance one_heap (begin 1%positive alternation) (end_ 1%positive alternation)
    = Ok (size alternation, end_ 1%positive alternation) /\
  base_iterator.distance one_heap (base_iterator.make (Some 2%positive) 0)
    (end_ 1%positive alternation) = Throw invalid_iterator.
Proof.
  destruct (distance_spec one_heap 1%positive alternation
              (base_iterator.make (Some 2%positive) 0) (end_ 1%positive alternation))
    as (_ & H2 & _ & H4 & _).
  - exact one_heap_lookup.
  - vm_compute. discriminate.
  - reflexivity.
  - split; [exact H4|]. apply H2.
    + change (size alternation) with 4. simpl. lia.
    + simpl. discriminate.
Defined.
